(** * The versioned object model of nova (nova/objects/base.py)

    A shallow embedding of [NovaObject], its registry lookup, the
    dehydration / hydration pair, the backport walk over
    [obj_relationships], change tracking, the [remotable] wrapper and
    [NovaObjectSerializer._process_object], followed by the properties
    the specification states about them. *)

From Stdlib Require Import ZArith Lia Ascii String.
From stdpp Require Import base option list strings gmap sets.

#[local] Set Warnings "-register-all".

Local Open Scope string_scope.
Local Open Scope Z_scope.

(** ** Exceptions and the error monad *)

(** [objtype] of [UnsupportedObjectError]: either the looked-up name as it
    is, or the text ['%s.%s' % (namespace, name)], kept as its two parts. *)
Inductive objtype_text (V : Type) : Type :=
| ObjType (name : V)
| Dotted (namespace name : V).
Arguments ObjType {V} name.
Arguments Dotted {V} namespace name.

(** Wire values: what [obj_to_primitive] produces and JSON carries. *)
Inductive prim : Type :=
| PNone
| PBool (b : bool)
| PInt (z : Z)
| PStr (s : string)
| PList (l : list prim)
| PDict (d : list (string * prim)).

(** The exceptions of nova/exception.py that base.py raises, and the
    builtin ones its dict, list and attribute accesses can raise. *)
Inductive exn : Type :=
| UnsupportedObjectError (objtype : objtype_text prim)
| IncompatibleObjectVersion (objname objver supported : string)
| ObjectActionError (action reason : string)
| OrphanedObjectError (method objtype : string)
| NotImplementedError (what : string)
| KeyError (key : prim)
| IndexError
| TypeError
| ValueError
| AttributeError (attrname : string).

Inductive result (A : Type) : Type :=
| OK (a : A)
| Raise (e : exn).
Arguments OK {A} a.
Arguments Raise {A} e.

Declare Scope py_scope.
Delimit Scope py_scope with py.
Notation "'let*' x := m 'in' k" :=
  (match m with OK x => k | Raise e => Raise e end)
  (at level 10, x name, m at level 100, k at level 200,
   only parsing) : py_scope.
Local Open Scope py_scope.

Definition is_OK {A} (r : result A) : bool :=
  match r with OK _ => true | Raise _ => false end.

(** ** Python dicts with string keys, in insertion order *)

Section Dict.
Context {A : Type}.

Fixpoint dict_get (k : string) (d : list (string * A)) : option A :=
  match d with
  | [] => None
  | (k', a) :: d' => if decide (k = k') then Some a else dict_get k d'
  end.

(** [d[k] = a]: overwrite in place, or append a new key. *)
Fixpoint dict_set (k : string) (a : A) (d : list (string * A))
  : list (string * A) :=
  match d with
  | [] => [(k, a)]
  | (k', a') :: d' =>
      if decide (k = k') then (k, a) :: d' else (k', a') :: dict_set k a d'
  end.

Fixpoint dict_del (k : string) (d : list (string * A)) : list (string * A) :=
  match d with
  | [] => []
  | (k', a') :: d' =>
      if decide (k = k') then d' else (k', a') :: dict_del k d'
  end.

Definition dict_has (k : string) (d : list (string * A)) : bool :=
  bool_decide (is_Some (dict_get k d)).

Definition dict_keys (d : list (string * A)) : list string := d.*1.

(** [d[k]], raising [KeyError]. *)
Definition dict_item (k : string) (d : list (string * A)) : result A :=
  match dict_get k d with
  | Some a => OK a
  | None => Raise (KeyError (PStr k))
  end.
End Dict.

(** Looking a key up and continuing with what is stored there.  This is
    [dict_get] followed by [f]; written as one recursion so that the
    functions below, which descend into what a dict or an object holds,
    are structurally recursive. *)
Section GetWith.
Context {A R : Type} (f : A → R) (k : string).

Fixpoint dict_get_with (d : list (string * A)) : option R :=
  match d with
  | [] => None
  | (k', a) :: d' => if decide (k = k') then Some (f a) else dict_get_with d'
  end.
End GetWith.

(** ** Strings: [count], [split], [join] on one separator *)

Definition dot : ascii := "."%char.

Fixpoint str_count (c : ascii) (s : string) : nat :=
  match s with
  | EmptyString => 0%nat
  | String a s' => ((if decide (a = c) then 1 else 0) + str_count c s')%nat
  end.

Fixpoint str_split (c : ascii) (s : string) : list string :=
  match s with
  | EmptyString => [EmptyString]
  | String a s' =>
      if decide (a = c) then EmptyString :: str_split c s'
      else match str_split c s' with
           | p :: ps => String a p :: ps
           | [] => [String a EmptyString]
           end
  end.

Fixpoint str_join (sep : string) (l : list string) : string :=
  match l with
  | [] => EmptyString
  | [p] => p
  | p :: ps => p ++ sep ++ str_join sep ps
  end.

(** [needle in s] for two strings. *)
Fixpoint str_contains (needle s : string) : bool :=
  String.prefix needle s
  || match s with
     | EmptyString => false
     | String _ s' => str_contains needle s'
     end.

(** ** Versions *)

Definition digit_of (a : ascii) : option Z :=
  let n := Z.of_nat (nat_of_ascii a) in
  if (48 <=? n) && (n <=? 57) then Some (n - 48) else None.

Fixpoint int_digits (acc : Z) (s : string) : option Z :=
  match s with
  | EmptyString => Some acc
  | String a s' =>
      match digit_of a with
      | Some d => int_digits (10 * acc + d) s'
      | None => None
      end
  end.

(** [int(part)] on a run of decimal digits; [ValueError] otherwise. *)
Definition py_int (s : string) : result Z :=
  match s with
  | EmptyString => Raise ValueError
  | _ => match int_digits 0 s with
         | Some z => OK z
         | None => Raise ValueError
         end
  end.

Fixpoint mapM {A B} (f : A → result B) (l : list A) : result (list B) :=
  match l with
  | [] => OK []
  | a :: l' =>
      let* b := f a in
      let* bs := mapM f l' in
      OK (b :: bs)
  end.

(** Modelled from the spec: [utils.convert_version_to_tuple] (nova/utils.py
    is not among the sources).  The spec orders versions by their numeric
    components; the helper turns ["1.2"] into the tuple [(1, 2)] by
    splitting at the dots and reading each part as an integer. *)
Definition convert_version_to_tuple (version_str : string) : result (list Z) :=
  mapM py_int (str_split dot version_str).

(** Python's ordering of tuples of integers: lexicographic, a proper
    prefix being smaller. *)
Fixpoint tuple_lt (a b : list Z) : bool :=
  match a, b with
  | [], [] => false
  | [], _ :: _ => true
  | _ :: _, [] => false
  | x :: a', y :: b' => (x <? y) || ((x =? y) && tuple_lt a' b')
  end.

Definition tuple_eq (a b : list Z) : bool := bool_decide (a = b).

(** Subscripting a wire value the way Python does: only a dict takes a
    string key, only a list an index. *)
Definition prim_item (k : string) (p : prim) : result prim :=
  match p with
  | PDict d => dict_item k d
  | _ => Raise TypeError
  end.

Definition prim_setitem (k : string) (v : prim) (p : prim) : result prim :=
  match p with
  | PDict d => OK (PDict (dict_set k v d))
  | _ => Raise TypeError
  end.

Definition prim_delitem (k : string) (p : prim) : result prim :=
  match p with
  | PDict d =>
      if dict_has k d then OK (PDict (dict_del k d))
      else Raise (KeyError (PStr k))
  | _ => Raise TypeError
  end.

Definition prim_index (i : nat) (p : prim) : result prim :=
  match p with
  | PList l =>
      match l !! i with Some e => OK e | None => Raise IndexError end
  | PDict _ => Raise (KeyError (PInt (Z.of_nat i)))
  | _ => Raise TypeError
  end.

Definition prim_setindex (i : nat) (v : prim) (p : prim) : result prim :=
  match p with
  | PList l =>
      if decide (i < length l)%nat then OK (PList (<[i:=v]> l))
      else Raise IndexError
  | _ => Raise TypeError
  end.

(** ** Classes, fields and instances *)

(** Modelled from the spec: the field descriptors (nova/objects/fields.py
    is not among the sources).  The two kinds that base.py tells apart
    with [isinstance], for an entity and for a list of entities, and every
    other descriptor as the pair of conversions it brings. *)
Inductive Field : Type :=
| ObjectField (objtype : string)
| ListOfObjectsField (objtype : string)
| PlainField (to_primitive : prim → prim)
             (from_primitive : prim → result prim).

Definition is_composed (f : Field) : bool :=
  match f with
  | ObjectField _ | ListOfObjectsField _ => true
  | PlainField _ _ => false
  end.

(** What a subclass of [NovaObject] declares. *)
Record NovaClass : Type := mkNovaClass {
  obj_name : string;
  cls_VERSION : string;
  fields : list (string * Field);
  obj_extra_fields : list string;
  obj_relationships : list (string * list (string * string))
}.

(** Modelled from the spec: [context.RequestContext] (nova/context.py is
    not among the sources), the request-scoped credentials an instance may
    be bound to. *)
Record RequestContext : Type := mkRequestContext {
  user_id : string;
  is_admin : bool
}.

(** What an attribute of an instance holds: a plain Python value, another
    instance, or a list of instances. *)
Inductive value (O : Type) : Type :=
| VPy (p : prim)
| VObj (o : O)
| VObjs (l : list O).
Arguments VPy {O} p.
Arguments VObj {O} o.
Arguments VObjs {O} l.

(** An instance: its class, the [VERSION] it answers with (hydration
    overrides the class's), [_context], the [_obj_<name>] attributes that
    are present, and [_changed_fields]. *)
Inductive NovaObject : Type :=
| mkNovaObject (obj_class : NovaClass) (VERSION : string)
               (_context : option RequestContext)
               (_attrs : list (string * value NovaObject))
               (_changed_fields : gset string).

Definition obj_class (o : NovaObject) : NovaClass :=
  match o with mkNovaObject c _ _ _ _ => c end.
Definition VERSION (o : NovaObject) : string :=
  match o with mkNovaObject _ v _ _ _ => v end.
Definition _context (o : NovaObject) : option RequestContext :=
  match o with mkNovaObject _ _ c _ _ => c end.
Definition _attrs (o : NovaObject) : list (string * value NovaObject) :=
  match o with mkNovaObject _ _ _ a _ => a end.
Definition _changed_fields (o : NovaObject) : gset string :=
  match o with mkNovaObject _ _ _ _ s => s end.

Definition is_None (v : value NovaObject) : bool :=
  match v with VPy PNone => true | _ => false end.

(** [cls()]: no context, nothing set, nothing changed. *)
Definition new_object (cls : NovaClass) : NovaObject :=
  mkNovaObject cls (cls_VERSION cls) None [] ∅.

Definition set_context (c : option RequestContext) (o : NovaObject) :=
  mkNovaObject (obj_class o) (VERSION o) c (_attrs o) (_changed_fields o).
Definition set_VERSION (v : string) (o : NovaObject) :=
  mkNovaObject (obj_class o) v (_context o) (_attrs o) (_changed_fields o).
Definition set_attrs (a : list (string * value NovaObject)) (o : NovaObject) :=
  mkNovaObject (obj_class o) (VERSION o) (_context o) a (_changed_fields o).
Definition set_changed_fields (s : gset string) (o : NovaObject) :=
  mkNovaObject (obj_class o) (VERSION o) (_context o) (_attrs o) s.

Definition obj_fields (o : NovaObject) : list string :=
  (dict_keys (fields (obj_class o)) ++ obj_extra_fields (obj_class o))%list.

Definition obj_attr_is_set (o : NovaObject) (attrname : string) : result bool :=
  if bool_decide (attrname ∈ obj_fields o)
  then OK (dict_has attrname (_attrs o))
  else Raise (AttributeError attrname).

(** Modelled from the spec: assignment to a declared field (the
    properties are made by the registry of oslo.versionedobjects, not among
    the sources): the value is stored and the name joins
    [_changed_fields]. *)
Definition obj_setattr (name : string) (v : value NovaObject) (o : NovaObject)
  : NovaObject :=
  mkNovaObject (obj_class o) (VERSION o) (_context o)
               (dict_set name v (_attrs o)) ({[name]} ∪ _changed_fields o).

(** Modelled from the spec: reading a field through its property.  An
    unset field is an error; the property hands it to [obj_load_attr],
    which in the base class raises [NotImplementedError]. *)
Definition obj_getattr (name : string) (o : NovaObject)
  : result (value NovaObject) :=
  match dict_get name (_attrs o) with
  | Some v => OK v
  | None =>
      if bool_decide (name ∈ dict_keys (fields (obj_class o)))
      then Raise (NotImplementedError name)
      else Raise (AttributeError name)
  end.

(** ** Change tracking *)

(** These are the methods of [NovaObject] itself; what a list class adds
    to them through [ObjectListBase] lies outside base.py. *)

Fixpoint obj_what_changed (self : NovaObject) : gset string :=
  match self with
  | mkNovaObject cls _ _ attrs changed =>
      foldl (λ changes field,
               match dict_get_with
                       (λ v, match v with
                             | VObj o => bool_decide (obj_what_changed o ≠ ∅)
                             | _ => false
                             end) field attrs with
               | Some true => {[field]} ∪ changes
               | _ => changes
               end)
            changed (dict_keys (fields cls))
  end.

Definition obj_get_changes (self : NovaObject)
  : result (list (string * value NovaObject)) :=
  mapM (λ key, let* v := obj_getattr key self in OK (key, v))
       (elements (obj_what_changed self)).

(** [if fields:] on the optional list argument. *)
Definition truthy_list {A} (l : option (list A)) : bool :=
  match l with Some (_ :: _) => true | _ => false end.

(** The negation of [fields and field not in fields]. *)
Definition in_filter (fields : option (list string)) (field : string) : bool :=
  match fields with
  | Some (f :: fs) => bool_decide (field ∈ f :: fs)
  | _ => true
  end.

Section ResetVisit.
(** [value.obj_reset_changes(recursive=True)] of a sub-object. *)
Context (reset_all : NovaObject → result NovaObject).

(** The body of the loop of [obj_reset_changes] for one changed, set
    field: what the attribute holds afterwards. *)
Definition reset_visit (cls : NovaClass) (filter : option (list string))
    (changes : gset string) (field : string) (v : value NovaObject)
  : result (value NovaObject) :=
  if negb (bool_decide (field ∈ changes)) then OK v
  else if negb (in_filter filter field) then OK v
  else if negb (bool_decide
                  (field ∈ (dict_keys (fields cls) ++ obj_extra_fields cls)%list))
  then Raise (AttributeError field)
  else if is_None v then OK v
  else match dict_get field (fields cls) with
       | None => Raise (KeyError (PStr field))
       | Some (ObjectField _) =>
           match v with
           | VObj o => let* o' := reset_all o in OK (VObj o')
           | _ => Raise (AttributeError "obj_reset_changes")
           end
       | Some (ListOfObjectsField _) =>
           match v with
           | VObjs l => let* l' := mapM reset_all l in OK (VObjs l')
           | VPy (PList []) | VPy (PStr EmptyString) | VPy (PDict []) => OK v
           | VPy (PList _) | VPy (PStr _) | VPy (PDict _) =>
               Raise (AttributeError "obj_reset_changes")
           | _ => Raise TypeError
           end
       | Some (PlainField _ _) => OK v
       end.
End ResetVisit.

(** Reset the list of fields that have been changed.  The loop of the
    source runs over the fields of [obj_get_changes()], all of which are
    set; here it runs over the attributes, and [reset_visit] leaves alone
    those that are not among the changes. *)
Fixpoint obj_reset_changes (self : NovaObject) (fields : option (list string))
    (recursive : bool) {struct self} : result NovaObject :=
  match self with
  | mkNovaObject cls ver ctx attrs changed =>
      let* attrs' :=
        if recursive then
          let* _ := obj_get_changes self in
          mapM (λ kv : string * value NovaObject,
                  let* v' := reset_visit
                               (λ o, obj_reset_changes o None true)
                               cls fields (obj_what_changed self) kv.1 kv.2 in
                  OK (kv.1, v'))
               attrs
        else OK attrs in
      OK (mkNovaObject cls ver ctx attrs'
            (if truthy_list fields
             then changed ∖ list_to_set (default [] fields)
             else ∅))
  end.

(** ** The compatibility engine *)

(** The walk of [obj_calculate_child_version] over
    [enumerate(self.obj_relationships[child])], from position [index]. *)
Fixpoint calculate_from (table : list (string * string)) (target : list Z)
    (index : nat) (rest : list (string * string)) : result (option string) :=
  match rest with
  | [] =>
      match last table with
      | Some versions => OK (Some versions.2)
      | None => Raise IndexError
      end
  | (my_version, child_version) :: rest' =>
      let* my_version := convert_version_to_tuple my_version in
      if tuple_lt target my_version then
        match index with
        | O => OK None
        | S before =>
            match table !! before with
            | Some versions => OK (Some versions.2)
            | None => Raise IndexError
            end
        end
      else if tuple_eq target my_version then OK (Some child_version)
      else calculate_from table target (S index) rest'
  end.

(** [None] when the child is to be omitted from the backport, otherwise
    the version the child is to be backported to. *)
Definition obj_calculate_child_version (self : NovaObject)
    (target_version child : string) : result (option string) :=
  let* target := convert_version_to_tuple target_version in
  let* table := dict_item child (obj_relationships (obj_class self)) in
  calculate_from table target 0 table.

Definition version_is (to_version : string) (p : prim) : bool :=
  match p with
  | PStr s => bool_decide (s = to_version)
  | _ => false
  end.

Section Backport.
(** [obj_make_compatible] of a sub-object, on its own primitive. *)
Context (make_compatible : NovaObject → prim → string → result prim).

(** The loop of [_do_backport] over a list: element [i] is backported
    inside [primitive[field][i]] and its version stamped. *)
Fixpoint backport_elements (to_version : string) (i : nat)
    (elements : list NovaObject) (plist : prim) : result prim :=
  match elements with
  | [] => OK plist
  | element :: elements' =>
      let* pelem := prim_index i plist in
      let* data := prim_item "nova_object.data" pelem in
      let* data' := make_compatible element data to_version in
      let* pelem := prim_setitem "nova_object.data" data' pelem in
      let* pelem := prim_setitem "nova_object.version"
                      (PStr to_version) pelem in
      let* plist := prim_setindex i pelem plist in
      backport_elements to_version (S i) elements' plist
  end.

(** [_do_backport(to_version)] for the value [obj] of the field whose
    slot in the owner's primitive is [pfield]; the slot afterwards. *)
Definition _do_backport (to_version : string) (obj : value NovaObject)
    (pfield : result prim) : result (option prim) :=
  match obj with
  | VPy PNone => OK None
  | VObj o =>
      let* pchild := pfield in
      let* ver := prim_item "nova_object.version" pchild in
      let* pchild :=
        if version_is to_version ver then OK pchild
        else
          let* data := prim_item "nova_object.data" pchild in
          let* data' := make_compatible o data to_version in
          prim_setitem "nova_object.data" data' pchild in
      let* pchild := prim_setitem "nova_object.version"
                       (PStr to_version) pchild in
      OK (Some pchild)
  | VObjs l =>
      match l with
      | [] => OK None
      | _ =>
          let* plist := pfield in
          let* plist := backport_elements to_version 0 l plist in
          OK (Some plist)
      end
  | VPy (PList (_ :: _)) => Raise (AttributeError "obj_make_compatible")
  | VPy _ => OK None
  end.
End Backport.

Section MakeObjCompatible.
Context (make_compatible : NovaObject → prim → string → result prim).

(** [_obj_make_obj_compatible(primitive, target_version, field)], given
    what [getattr(self, field)] holds. *)
Definition _obj_make_obj_compatible (self : NovaObject) (primitive : prim)
    (target_version field : string) (obj : value NovaObject) : result prim :=
  let* child_version :=
    obj_calculate_child_version self target_version field in
  match child_version with
  | None => prim_delitem field primitive
  | Some to_version =>
      let* slot := _do_backport make_compatible to_version obj
                                (prim_item field primitive) in
      match slot with
      | None => OK primitive
      | Some pfield => prim_setitem field pfield primitive
      end
  end.
End MakeObjCompatible.

(** The loop of [obj_make_compatible] over [self.fields.items()]. *)
Section MakeCompatibleLoop.
Context (self : NovaObject)
        (backport_field : prim → string → value NovaObject → result prim).

Fixpoint make_compatible_loop (fs : list (string * Field)) (primitive : prim)
  : result prim :=
  match fs with
  | [] => OK primitive
  | (key, field) :: fs' =>
      if negb (is_composed field) then make_compatible_loop fs' primitive
      else
        match dict_get_with (backport_field primitive key)
                            key (_attrs self) with
        | None => make_compatible_loop fs' primitive
        | Some backported =>
            if negb (dict_has key (obj_relationships (obj_class self)))
            then Raise (ObjectActionError "obj_make_compatible"
                                          ("No rule for " ++ key))
            else
              let* primitive := backported in
              make_compatible_loop fs' primitive
        end
  end.
End MakeCompatibleLoop.

Fixpoint obj_make_compatible (self : NovaObject) (primitive : prim)
    (target_version : string) {struct self} : result prim :=
  match self with
  | mkNovaObject cls _ _ attrs _ =>
      make_compatible_loop self
        (λ primitive key obj,
           _obj_make_obj_compatible obj_make_compatible self
                                    primitive target_version key obj)
        (fields cls) primitive
  end.

(** ** Dehydration *)

Section FieldToPrimitive.
(** [value.obj_to_primitive()] of a sub-object. *)
Context (to_primitive_obj : NovaObject → result prim).

(** Modelled from the spec: [Field.to_primitive] (nova/objects/fields.py
    is not among the sources).  A field is serialized by its descriptor:
    [None] stays [None], an entity becomes its own wire primitive, a list
    of entities the list of theirs, any other value what the descriptor's
    conversion makes of it. *)
Definition field_to_primitive (field : Field) (v : value NovaObject)
  : result prim :=
  match field, v with
  | _, VPy PNone => OK PNone
  | PlainField to_primitive _, VPy p => OK (to_primitive p)
  | PlainField _ _, _ => Raise TypeError
  | ObjectField _, VObj o => to_primitive_obj o
  | ObjectField _, _ => Raise (AttributeError "obj_to_primitive")
  | ListOfObjectsField _, VObjs l =>
      let* ps := mapM to_primitive_obj l in OK (PList ps)
  | ListOfObjectsField _, _ => Raise TypeError
  end.
End FieldToPrimitive.

(** The loop of [obj_to_primitive] over [self.fields.items()]. *)
Section ToPrimitiveLoop.
Context (attrs : list (string * value NovaObject))
        (to_primitive_field : Field → value NovaObject → result prim).

Fixpoint to_primitive_loop (fs : list (string * Field))
    (primitive : list (string * prim)) : result (list (string * prim)) :=
  match fs with
  | [] => OK primitive
  | (name, field) :: fs' =>
      match dict_get_with (to_primitive_field field) name attrs with
      | None => to_primitive_loop fs' primitive
      | Some converted =>
          let* p := converted in
          to_primitive_loop fs' (dict_set name p primitive)
      end
  end.
End ToPrimitiveLoop.

(** [if target_version:] and [target_version or self.VERSION]. *)
Definition truthy_str (s : option string) : bool :=
  match s with
  | Some (String _ _) => true
  | _ => false
  end.

Definition str_or (s : option string) (d : string) : string :=
  match s with
  | Some (String a s') => String a s'
  | _ => d
  end.

Definition changes_prim (changes : gset string) : prim :=
  PList (PStr <$> elements changes).

Fixpoint obj_to_primitive (self : NovaObject) (target_version : option string)
    {struct self} : result prim :=
  match self with
  | mkNovaObject cls ver _ attrs _ =>
      let* primitive :=
        to_primitive_loop attrs
          (field_to_primitive (λ o, obj_to_primitive o None))
          (fields cls) [] in
      let* primitive :=
        if truthy_str target_version
        then obj_make_compatible self (PDict primitive)
                                 (str_or target_version ver)
        else OK (PDict primitive) in
      let obj := [("nova_object.name", PStr (obj_name cls));
                  ("nova_object.namespace", PStr "nova");
                  ("nova_object.version", PStr (str_or target_version ver));
                  ("nova_object.data", primitive)] in
      let changes := obj_what_changed self in
      OK (PDict (if bool_decide (changes ≠ ∅)
                 then dict_set "nova_object.changes" (changes_prim changes) obj
                 else obj))
  end.

(** ** The registry and hydration *)

Section Registry.
(** [versionutils.is_compatible(requested, current)] of oslo.utils. *)
Variable is_compatible : string → string → bool.
(** [NovaObjectRegistry.obj_classes()]: for each name the registered
    classes, which the registry keeps newest first. *)
Variable registry : list (string * list NovaClass).

(** The loop of [obj_class_from_name] over [obj_classes[objname]]; what
    it returns, or the [compatible_match] it ends with. *)
Fixpoint class_loop (objver : string) (compatible_match : option NovaClass)
    (classes : list NovaClass) : option NovaClass :=
  match classes with
  | [] => compatible_match
  | objclass :: classes' =>
      if bool_decide (cls_VERSION objclass = objver) then Some objclass
      else
        class_loop objver
          (match compatible_match with
           | Some c => Some c
           | None =>
               if is_compatible objver (cls_VERSION objclass)
               then Some objclass else None
           end)
          classes'
  end.

Definition obj_class_from_name (objname objver : string) : result NovaClass :=
  match dict_get objname registry with
  | None => Raise (UnsupportedObjectError (ObjType (PStr objname)))
  | Some classes =>
      match class_loop objver None classes with
      | Some objclass => OK objclass
      | None =>
          match classes with
          | latest :: _ =>
              Raise (IncompatibleObjectVersion objname objver
                                               (cls_VERSION latest))
          | [] => Raise IndexError
          end
      end
  end.

(** [obj_class_from_name] on what a primitive carries under its name and
    version keys.  A name that is no string is in no registry (a list or
    dict cannot even be looked up); a version that is no string equals
    no [VERSION] and is refused by [is_compatible]. *)
Definition class_from_prims (objname objver : prim) : result NovaClass :=
  match objname with
  | PStr name =>
      match objver with
      | PStr ver => obj_class_from_name name ver
      | _ =>
          match dict_get name registry with
          | None => Raise (UnsupportedObjectError (ObjType objname))
          | Some [] => Raise IndexError
          | Some (_ :: _) => Raise TypeError
          end
      end
  | PList _ | PDict _ => Raise TypeError
  | _ => Raise (UnsupportedObjectError (ObjType objname))
  end.

Section FieldFromPrimitive.
(** [NovaObject.obj_from_primitive(value, context)] of a sub-object. *)
Context (from_primitive_obj :
           prim → option RequestContext → result NovaObject).

(** Modelled from the spec: [Field.from_primitive] (nova/objects/fields.py
    is not among the sources), the inverse direction of
    [field_to_primitive]; a sub-object is hydrated with the context of
    the object it belongs to. *)
Definition field_from_primitive (context : option RequestContext)
    (field : Field) (p : prim) : result (value NovaObject) :=
  match field, p with
  | _, PNone => OK (VPy PNone)
  | PlainField _ from_primitive, _ =>
      let* v := from_primitive p in OK (VPy v)
  | ObjectField _, _ =>
      let* o := from_primitive_obj p context in OK (VObj o)
  | ListOfObjectsField _, PList l =>
      let* os := mapM (λ e, from_primitive_obj e context) l in
      OK (VObjs os)
  | ListOfObjectsField _, _ => Raise TypeError
  end.

(** The loop of [_obj_from_primitive] over [self.fields.items()]. *)
Fixpoint hydrate_loop (objdata : list (string * prim))
    (fs : list (string * Field)) (self : NovaObject) : result NovaObject :=
  match fs with
  | [] => OK self
  | (name, field) :: fs' =>
      match dict_get_with (field_from_primitive (_context self) field)
                          name objdata with
      | None => hydrate_loop objdata fs' self
      | Some hydrated =>
          let* v := hydrated in
          hydrate_loop objdata fs' (obj_setattr name v self)
      end
  end.

(** Iterating the value under ["nova_object.changes"]. *)
Definition changes_iter (changes : prim) : result (list prim) :=
  match changes with
  | PList l => OK l
  | PDict d => OK (PStr <$> dict_keys d)
  | PStr s => OK ((λ a, PStr (String a EmptyString)) <$> list_ascii_of_string s)
  | _ => Raise TypeError
  end.

(** [[x for x in changes if x in self.fields]]. *)
Fixpoint known_changes (fs : list (string * Field)) (changes : list prim)
  : result (list string) :=
  match changes with
  | [] => OK []
  | x :: changes' =>
      match x with
      | PList _ | PDict _ => Raise TypeError
      | PStr name =>
          let* rest := known_changes fs changes' in
          OK (if dict_has name fs then name :: rest else rest)
      | _ => known_changes fs changes'
      end
  end.

(** The same loop when the data entry is no dict: [name in objdata] is
    a membership test on a list, a substring test on a string and a
    [TypeError] on anything else, and [objdata[name]] is a [TypeError]. *)
Fixpoint probe_loop (objdata : prim) (fs : list (string * Field))
    (self : NovaObject) : result NovaObject :=
  match fs with
  | [] => OK self
  | (name, _) :: fs' =>
      let* present :=
        match objdata with
        | PList l =>
            OK (existsb (λ x, match x with
                              | PStr s => bool_decide (s = name)
                              | _ => false
                              end) l)
        | PStr s => OK (str_contains name s)
        | _ => Raise TypeError
        end in
      if present then Raise TypeError else probe_loop objdata fs' self
  end.

Definition _obj_from_primitive (cls : NovaClass)
    (context : option RequestContext) (objver : string)
    (primitive : list (string * prim)) : result NovaObject :=
  let self := set_VERSION objver (set_context context (new_object cls)) in
  match dict_get_with
          (λ objdata,
             match objdata with
             | PDict d => hydrate_loop d (fields cls) self
             | _ => probe_loop objdata (fields cls) self
             end)
          "nova_object.data" primitive with
  | None => Raise (KeyError (PStr "nova_object.data"))
  | Some hydrated =>
      let* self := hydrated in
      let* changes :=
        match dict_get "nova_object.changes" primitive with
        | None => OK []
        | Some c => changes_iter c
        end in
      let* changes := known_changes (fields cls) changes in
      OK (set_changed_fields (list_to_set changes) self)
  end.
End FieldFromPrimitive.

Definition is_nova (namespace : prim) : bool :=
  match namespace with
  | PStr s => bool_decide (s = "nova")
  | _ => false
  end.

(** Object field-by-field hydration. *)
Fixpoint obj_from_primitive (primitive : prim)
    (context : option RequestContext) {struct primitive}
  : result NovaObject :=
  match primitive with
  | PDict d =>
      let* namespace := dict_item "nova_object.namespace" d in
      if negb (is_nova namespace) then
        let* name := dict_item "nova_object.name" d in
        Raise (UnsupportedObjectError (Dotted namespace name))
      else
        let* objname := dict_item "nova_object.name" d in
        let* objver := dict_item "nova_object.version" d in
        let* objclass := class_from_prims objname objver in
        match objver with
        | PStr objver =>
            _obj_from_primitive obj_from_primitive objclass context objver d
        | _ => Raise TypeError
        end
  | _ => Raise TypeError
  end.
End Registry.

(** ** Remotable methods *)

(** A positional or keyword argument of a call: a request context or any
    other value. *)
Inductive pyarg : Type :=
| ArgContext (c : RequestContext)
| ArgValue (v : value NovaObject).

(** The decorated function: its [__name__] and what it does to [self]. *)
Record Method : Type := mkMethod {
  fn_name : string;
  fn_body : NovaObject → list pyarg → list (string * pyarg) →
            result (NovaObject * value NovaObject)
}.

(** [NovaObject.indirection_api.object_action]: the updates and the result
    the remote end sends back. *)
Definition IndirectionAPI : Type :=
  RequestContext → NovaObject → string → list pyarg → list (string * pyarg) →
  result (list (string * value NovaObject) * value NovaObject).

Section Remotable.
Variable is_compatible : string → string → bool.
Variable registry : list (string * list NovaClass).
Variable indirection_api : option IndirectionAPI.

(** One update of the remote end applied to [self]: a value that is an
    instance already is stored as it is, anything else goes through the
    field's [from_primitive]. *)
Definition apply_update (self : NovaObject) (key : string)
    (v : value NovaObject) : result NovaObject :=
  match dict_get key (fields (obj_class self)) with
  | None => OK self
  | Some field =>
      match v with
      | VObj o => OK (obj_setattr key (VObj o) self)
      | VPy p =>
          let* v' := field_from_primitive
                       (obj_from_primitive is_compatible registry)
                       (_context self) field p in
          OK (obj_setattr key v' self)
      | VObjs l =>
          match field with
          | ListOfObjectsField _ => OK (obj_setattr key (VObjs l) self)
          | _ => Raise TypeError
          end
      end
  end.

Fixpoint apply_updates (updates : list (string * value NovaObject))
    (self : NovaObject) : result NovaObject :=
  match updates with
  | [] => OK self
  | (key, v) :: updates' =>
      let* self := apply_update self key v in
      apply_updates updates' self
  end.

(** [set(updates.get('obj_what_changed', []))], for the list of field
    names the remote end reports; [_changed_fields] holds names only, so
    any other reply is refused here. *)
Definition reported_changes (updates : list (string * value NovaObject))
  : result (gset string) :=
  match dict_get "obj_what_changed" updates with
  | None => OK ∅
  | Some (VPy (PList l)) =>
      let* names := mapM (λ x, match x with
                               | PStr s => OK s
                               | _ => Raise TypeError
                               end) l in
      OK (list_to_set names)
  | Some _ => Raise TypeError
  end.

Definition leading_context (args : list pyarg) : bool :=
  match args with
  | ArgContext _ :: _ => true
  | _ => false
  end.

(** The [wrapper] that [remotable(fn)] puts in place of [fn]. *)
Definition remotable (fn : Method) (self : NovaObject) (args : list pyarg)
    (kwargs : list (string * pyarg))
  : result (NovaObject * value NovaObject) :=
  if leading_context args then
    Raise (ObjectActionError (fn_name fn)
             "Calling remotables with context is deprecated")
  else
    match _context self with
    | None =>
        Raise (OrphanedObjectError (fn_name fn) (obj_name (obj_class self)))
    | Some ctx =>
        match indirection_api with
        | Some api =>
            let* reply := api ctx self (fn_name fn) args kwargs in
            let* self := apply_updates reply.1 self in
            let* self := obj_reset_changes self None false in
            let* changed := reported_changes reply.1 in
            OK (set_changed_fields changed self, reply.2)
        | None => fn_body fn self args kwargs
        end
    end.
End Remotable.

(** ** The serializer's entry point for one object primitive *)

Section Serializer.
Variable is_compatible : string → string → bool.
Variable registry : list (string * list NovaClass).
(** [self.conductor.object_backport(context, objprim, version)]. *)
Variable object_backport :
  option RequestContext → prim → string → result NovaObject.

(** ['.'.join(objver.split('.')[:2])]. *)
Definition major_minor (objver : string) : string :=
  str_join "." (take 2 (str_split dot objver)).

(** What the [except] clause does when the version is not cut. *)
Definition ask_backport (context : option RequestContext) (objprim : prim)
    (e : exn) : result NovaObject :=
  let* objname := prim_item "nova_object.name" objprim in
  let* supported :=
    match objname with
    | PStr name => OK (default [] (dict_get name registry))
    | PList _ | PDict _ => Raise TypeError
    | _ => OK []
    end in
  match supported with
  | latest :: _ => object_backport context objprim (cls_VERSION latest)
  | [] => Raise e
  end.

(** [_process_object]; the recursion is bounded by [fuel], [None]
    meaning that the bound was reached. *)
Fixpoint _process_object (fuel : nat) (context : option RequestContext)
    (objprim : prim) : option (result NovaObject) :=
  match fuel with
  | O => None
  | S fuel' =>
      match obj_from_primitive is_compatible registry objprim context with
      | OK objinst => Some (OK objinst)
      | Raise (IncompatibleObjectVersion n v s) =>
          match prim_item "nova_object.version" objprim with
          | Raise e => Some (Raise e)
          | OK (PStr objver) =>
              if decide (str_count dot objver = 2%nat) then
                match prim_setitem "nova_object.version"
                                   (PStr (major_minor objver)) objprim with
                | OK objprim' => _process_object fuel' context objprim'
                | Raise e => Some (Raise e)
                end
              else
                Some (ask_backport context objprim
                                   (IncompatibleObjectVersion n v s))
          | OK _ => Some (Raise (AttributeError "count"))
          end
      | Raise e => Some (Raise e)
      end
  end.
End Serializer.

(** ** Ascending tables and the running examples *)

Fixpoint ascending (l : list (list Z)) : bool :=
  match l with
  | a :: (b :: _) as l' => tuple_lt a b && ascending l'
  | _ => true
  end.


Module Examples.
(** The child class and an owner whose table for [child] is the one of
    the specification's backport example. *)
Definition Child : NovaClass :=
  mkNovaClass "Child" "1.2" [("x", PlainField id OK)] [] [].

Definition Owner : NovaClass :=
  mkNovaClass "Owner" "1.5"
    [("child", ObjectField "Child"); ("n", PlainField id OK);
     ("kids", ListOfObjectsField "Child")]
    []
    [("child", [("1.2", "1.0"); ("1.4", "1.2")]);
     ("kids", [("1.2", "1.0"); ("1.4", "1.2")])].

Definition a_child : NovaObject :=
  mkNovaObject Child "1.2" None [("x", VPy (PInt 7))] {["x"]}.

Definition an_owner : NovaObject :=
  mkNovaObject Owner "1.5" None
    [("child", VObj a_child); ("n", VPy (PInt 1))] ∅.
End Examples.


(** Modelled from the spec: [versionutils.is_compatible(requested, current)]
    (oslo.utils, not among the sources).  The spec states it: compatible
    means that the registered MAJOR equals the requested one and the
    registered MINOR is at least the requested MINOR; a missing MINOR
    counts as 0, and a string that is no dotted number is compatible with
    nothing. *)
Definition is_compatible (requested current : string) : bool :=
  match convert_version_to_tuple requested,
        convert_version_to_tuple current with
  | OK (rmajor :: rrest), OK (cmajor :: crest) =>
      (rmajor =? cmajor) && (hd 0 rrest <=? hd 0 crest)
  | _, _ => false
  end.

(** [older c1 c2]: the version of [c1] is below the version of [c2]. *)
Definition older (c1 c2 : NovaClass) : bool :=
  match convert_version_to_tuple (cls_VERSION c1),
        convert_version_to_tuple (cls_VERSION c2) with
  | OK v1, OK v2 => tuple_lt v1 v2
  | _, _ => false
  end.

(** The order the registry keeps the classes of one name in. *)
Fixpoint newest_first (classes : list NovaClass) : bool :=
  match classes with
  | c1 :: (c2 :: _) as classes' => older c2 c1 && newest_first classes'
  | _ => true
  end.

Module RegistryExample.
(** The registry of the specification's version-resolution example. *)
Definition Foo_1_0 : NovaClass := mkNovaClass "Foo" "1.0" [] [] [].
Definition Foo_1_3 : NovaClass :=
  mkNovaClass "Foo" "1.3" [("a", PlainField id OK)] [] [].
Definition registry : list (string * list NovaClass) :=
  [("Foo", [Foo_1_3; Foo_1_0])].
End RegistryExample.

Module RemotableExample.
(** A remotable method that leaves the object as it is, a request
    context, and an instance bound to it. *)
Definition save : Method :=
  mkMethod "save" (λ self _ _, OK (self, VPy PNone)).

Definition a_context : RequestContext := mkRequestContext "alice" false.

Definition a_bound_owner : NovaObject :=
  set_context (Some a_context) Examples.an_owner.
End RemotableExample.

Module HydrationExample.
(** A primitive of [Foo] at version 1.1 with a stale change marker, and
    one from a foreign namespace. *)
Definition foo_prim : list (string * prim) :=
  [("nova_object.name", PStr "Foo");
   ("nova_object.namespace", PStr "nova");
   ("nova_object.version", PStr "1.1");
   ("nova_object.data", PDict [("a", PInt 5)]);
   ("nova_object.changes", PList [PStr "a"; PStr "gone"])].

Definition foreign_prim : list (string * prim) :=
  [("nova_object.name", PStr "Foo");
   ("nova_object.namespace", PStr "cinder");
   ("nova_object.version", PStr "1.3");
   ("nova_object.data", PDict [])].
End HydrationExample.

(** Whether the field holds an instance that reports changes. *)
Definition holds_changed (attrs : list (string * value NovaObject))
    (field : string) : bool :=
  match dict_get field attrs with
  | Some (VObj o) => bool_decide (obj_what_changed o ≠ ∅)
  | _ => false
  end.

(** ** Well-formed instances *)

(** A property of every instance a value holds. *)
Definition value_Forall (P : NovaObject → Prop) (v : value NovaObject) : Prop :=
  match v with
  | VPy _ => True
  | VObj o => P o
  | VObjs l => Forall P l
  end.

(** What the property setters maintain: the attributes present belong to
    declared fields, one each; an entity field holds an instance or
    [None], a field for a list of entities a list of instances or [None],
    any other field a plain value; and only fields that are set are marked
    as changed.  The same holds of every instance inside. *)
Fixpoint well_formed (o : NovaObject) : bool :=
  match o with
  | mkNovaObject cls _ _ attrs changed =>
      bool_decide (NoDup (dict_keys (fields cls)))
      && bool_decide (NoDup (dict_keys attrs))
      && bool_decide (changed ⊆ list_to_set (dict_keys attrs))
      && forallb (λ kv : string * value NovaObject,
                    match dict_get kv.1 (fields cls), kv.2 with
                    | Some _, VPy PNone => true
                    | Some (PlainField _ _), VPy _ => true
                    | Some (ObjectField _), VObj o' => well_formed o'
                    | Some (ListOfObjectsField _), VObjs l =>
                        forallb well_formed l
                    | _, _ => false
                    end)
                 attrs
  end.

(** [v] has the shape the descriptor [field] asks for. *)
Definition well_typed (field : Field) (v : value NovaObject) : bool :=
  match field, v with
  | _, VPy PNone => true
  | PlainField _ _, VPy _ => true
  | ObjectField _, VObj o => well_formed o
  | ListOfObjectsField _, VObjs l => forallb well_formed l
  | _, _ => false
  end.

Module NoRuleExample.
(** A class with an entity field and no entry for it in
    [obj_relationships], an instance that has the field set and one that
    has not. *)
Definition Lodger : NovaClass :=
  mkNovaClass "Lodger" "1.1"
    [("n", PlainField id OK); ("child", ObjectField "Child")] [] [].

Definition a_lodger : NovaObject :=
  mkNovaObject Lodger "1.1" None
    [("n", VPy (PInt 3)); ("child", VObj Examples.a_child)] ∅.

Definition a_bare_lodger : NovaObject :=
  mkNovaObject Lodger "1.1" None [("n", VPy (PInt 3))] ∅.
End NoRuleExample.

(** The dict [obj_to_primitive] returns around the serialized fields. *)
Definition wire_envelope (self : NovaObject) (version : string) (data : prim)
  : prim :=
  let obj := [("nova_object.name", PStr (obj_name (obj_class self)));
              ("nova_object.namespace", PStr "nova");
              ("nova_object.version", PStr version);
              ("nova_object.data", data)] in
  PDict (if bool_decide (obj_what_changed self ≠ ∅)
         then dict_set "nova_object.changes"
                       (changes_prim (obj_what_changed self)) obj
         else obj).

(** What the loop of [obj_to_primitive] is to store under a key. *)
Definition serialized (attrs : list (string * value NovaObject))
    (to_primitive_field : Field → value NovaObject → result prim)
    (fs : list (string * Field)) (k : string) : option prim :=
  match dict_get k fs, dict_get k attrs with
  | Some field, Some v =>
      match to_primitive_field field v with
      | OK p => Some p
      | Raise _ => None
      end
  | _, _ => None
  end.

Module SerializerExample.
(** A primitive of [Foo] at 1.5.1, newer than the registry's 1.3, and a
    backport authority that answers with an instance of the version it is
    asked for. *)
Definition newer_prim : list (string * prim) :=
  [("nova_object.name", PStr "Foo");
   ("nova_object.namespace", PStr "nova");
   ("nova_object.version", PStr "1.5.1");
   ("nova_object.data", PDict [("a", PInt 5)])].

Definition a_backport (context : option RequestContext) (objprim : prim)
    (version : string) : result NovaObject :=
  OK (mkNovaObject RegistryExample.Foo_1_3 version context
                   [("a", VPy (PInt 5))] ∅).
End SerializerExample.

(** ** What a reset leaves behind *)

(** [o'] is [o] after [o.obj_reset_changes(recursive=True)], and reports
    no change. *)
Definition fully_reset (o o' : NovaObject) : Prop :=
  obj_reset_changes o None true = OK o' ∧ obj_what_changed o' = ∅.

(** The fields the recursive loop of [obj_reset_changes] descends into:
    those reported as changed that pass the [fields] filter. *)
Definition visited (self : NovaObject) (fields : option (list string))
    (field : string) : bool :=
  bool_decide (field ∈ obj_what_changed self) && in_filter fields field.

(** What a field holds after the loop, given what it held before. *)
Definition reset_outcome (is_visited : bool) (v v' : value NovaObject) : Prop :=
  if is_visited then
    match v with
    | VPy _ => v' = v
    | VObj o => ∃ o', v' = VObj o' ∧ fully_reset o o'
    | VObjs l => ∃ l', v' = VObjs l' ∧ Forall2 fully_reset l l'
    end
  else v' = v.

Module ResetExample.
(** An owner that reports no change itself and holds, in its list field,
    an instance with a changed field. *)
Definition an_owner_of_kids : NovaObject :=
  mkNovaObject Examples.Owner "1.5" None
    [("kids", VObjs [Examples.a_child])] ∅.

(** An owner marked as changed in [child], which holds a changed
    instance. *)
Definition a_changed_owner : NovaObject :=
  mkNovaObject Examples.Owner "1.5" None
    [("child", VObj Examples.a_child); ("n", VPy (PInt 1))] {["child"; "n"]}.
End ResetExample.

(** ** Equality of instances up to changes and context *)

(** Two values hold the same, their instances being compared by [R]. *)
Inductive same_value (R : NovaObject → NovaObject → Prop)
  : value NovaObject → value NovaObject → Prop :=
| same_py p : same_value R (VPy p) (VPy p)
| same_obj o o' : R o o' → same_value R (VObj o) (VObj o')
| same_objs l l' : Forall2 R l l' → same_value R (VObjs l) (VObjs l').

(** Two instances of one class and version that agree on every declared
    field: both unset, or both set to the same value; [_changed_fields]
    and [_context] are not compared, here or in the instances inside. *)
Inductive same_object : NovaObject → NovaObject → Prop :=
| same_object_fields cls ver ctx1 ctx2 attrs1 attrs2 changed1 changed2 :
    (∀ field, field ∈ dict_keys (fields cls) →
              option_Forall2 (same_value same_object)
                             (dict_get field attrs1) (dict_get field attrs2)) →
    same_object (mkNovaObject cls ver ctx1 attrs1 changed1)
                (mkNovaObject cls ver ctx2 attrs2 changed2).

(** A descriptor's [from_primitive] undoes its [to_primitive] on [p]. *)
Definition inverts (field : option Field) (p : prim) : Prop :=
  match field, p with
  | Some (PlainField to_primitive from_primitive), PNone => True
  | Some (PlainField to_primitive from_primitive), _ =>
      to_primitive p ≠ PNone ∧ from_primitive (to_primitive p) = OK p
  | _, _ => True
  end.

Section Hydratable.
Variable compatible : string → string → bool.
Variable registry : list (string * list NovaClass).

(** The instance can be hydrated back: the registry resolves its name and
    version to its class, the descriptors of its plain fields invert on
    the values held, and the same holds of every instance inside. *)
Fixpoint hydratable (o : NovaObject) : Prop :=
  match o with
  | mkNovaObject cls ver _ attrs _ =>
      obj_class_from_name compatible registry (obj_name cls) ver = OK cls ∧
      (fix all (attrs : list (string * value NovaObject)) : Prop :=
         match attrs with
         | [] => True
         | (k, v) :: attrs' =>
             match v with
             | VPy p => inverts (dict_get k (fields cls)) p
             | VObj o' => hydratable o'
             | VObjs l =>
                 (fix each (l : list NovaObject) : Prop :=
                    match l with
                    | [] => True
                    | o' :: l' => hydratable o' ∧ each l'
                    end) l
             end ∧ all attrs'
         end) attrs
  end.
End Hydratable.

(** What the round trip gives for one instance: it is serialized to a
    dict, and the dict is hydrated, in any context, to an instance that
    holds the same. *)
Definition comes_back (compatible : string → string → bool)
    (registry : list (string * list NovaClass)) (o : NovaObject) : Prop :=
  ∀ context, ∃ env o',
    obj_to_primitive o None = OK (PDict env) ∧
    obj_from_primitive compatible registry (PDict env) context = OK o' ∧
    same_object o o'.

Module RoundTripExample.
(** A registry that knows the owner and the child of the examples. *)
Definition registry : list (string * list NovaClass) :=
  [("Owner", [Examples.Owner]); ("Child", [Examples.Child])].

Definition a_full_owner : NovaObject :=
  mkNovaObject Examples.Owner "1.5" None
    [("n", VPy (PInt 1)); ("child", VObj Examples.a_child);
     ("kids", VObjs [Examples.a_child; Examples.a_child])]
    {["n"]}.
End RoundTripExample.

(** What the loop of [_obj_from_primitive] is to store under a key. *)
Definition hydrated (from_primitive_field : Field → prim → result (value NovaObject))
    (objdata : list (string * prim)) (fs : list (string * Field)) (k : string)
  : option (value NovaObject) :=
  match dict_get k fs, dict_get k objdata with
  | Some field, Some p =>
      match from_primitive_field field p with
      | OK v => Some v
      | Raise _ => None
      end
  | _, _ => None
  end.

(** ** Further parts of the module *)

(** What [remotable] stores for an update [v] of a field with descriptor
    [field], when the update needs no hydration of a sub-object: an
    instance as it is, a list of instances under a list field, and a plain
    value through [from_primitive]. *)
Definition stored (field : Field) (v : value NovaObject)
  : option (value NovaObject) :=
  match v with
  | VObj o => Some (VObj o)
  | VPy PNone => Some (VPy PNone)
  | VPy p =>
      match field with
      | PlainField _ from_primitive =>
          match from_primitive p with
          | OK q => Some (VPy q)
          | Raise _ => None
          end
      | _ => None
      end
  | VObjs l =>
      match field with
      | ListOfObjectsField _ => Some (VObjs l)
      | _ => None
      end
  end.

Module RemoteExample.
(** A remote end that reports a new [n] and a change the caller does not
    know of, and declares [n] as the one changed field. *)
Definition an_api : IndirectionAPI :=
  λ _ _ _ _ _,
    OK ([("n", VPy (PInt 2)); ("later", VPy (PInt 9));
         ("obj_what_changed", VPy (PList [PStr "n"]))],
        VPy (PStr "done")).
End RemoteExample.

(** ** Defaults *)

Section Defaults.
(** [self.fields[attr].default] of the descriptor declared under [attr];
    [None] stands for [UnspecifiedDefault]. *)
Variable default : string → Field → option (value NovaObject).

(** The names [obj_set_defaults] works on when it is given none: the
    fields with a declared default. *)
Definition defaulted (fs : list (string * Field)) : list string :=
  (filter (λ nf : string * Field, is_Some (default nf.1 nf.2)) fs).*1.

(** The loop of [obj_set_defaults] over [attrs]. *)
Fixpoint set_defaults_loop (attrs : list string) (self : NovaObject)
  : result NovaObject :=
  match attrs with
  | [] => OK self
  | attr :: attrs' =>
      let* field := dict_item attr (fields (obj_class self)) in
      match default attr field with
      | None =>
          Raise (ObjectActionError "set_defaults"
                   ("No default set for field " ++ attr))
      | Some d =>
          set_defaults_loop attrs'
            (if dict_has attr (_attrs self) then self
             else obj_setattr attr d self)
      end
  end.

Definition obj_set_defaults (self : NovaObject) (attrs : list string)
  : result NovaObject :=
  set_defaults_loop
    (match attrs with
     | [] => defaulted (fields (obj_class self))
     | _ => attrs
     end)
    self.
End Defaults.

Module DefaultsExample.
(** The persistent-object mixin's [deleted] field is the one with a
    default, [False]. *)
Definition Persistent : NovaClass :=
  mkNovaClass "Persistent" "1.0"
    [("deleted_at", PlainField id OK); ("deleted", PlainField id OK)] [] [].

Definition default (name : string) (field : Field) : option (value NovaObject) :=
  if decide (name = "deleted") then Some (VPy (PBool false)) else None.

Definition a_fresh_one : NovaObject := new_object Persistent.

Definition a_deleted_one : NovaObject :=
  mkNovaObject Persistent "1.0" None [("deleted", VPy (PBool true))] ∅.
End DefaultsExample.

(** ** Remotable class methods *)

(** The decorated class method: its [__name__] and what it returns. *)
Record ClassMethod : Type := mkClassMethod {
  cm_name : string;
  cm_body : NovaClass → option RequestContext → list pyarg →
            list (string * pyarg) → result (value NovaObject)
}.

(** [NovaObject.indirection_api.object_class_action]. *)
Definition ClassActionAPI : Type :=
  option RequestContext → string → string → string → list pyarg →
  list (string * pyarg) → result (value NovaObject).

(** The [wrapper] that [remotable_classmethod(fn)] puts in place of
    [fn]. *)
Definition remotable_classmethod (indirection_api : option ClassActionAPI)
    (fn : ClassMethod) (cls : NovaClass) (context : option RequestContext)
    (args : list pyarg) (kwargs : list (string * pyarg))
  : result (value NovaObject) :=
  match indirection_api with
  | Some api =>
      api context (obj_name cls) (cm_name fn) (cls_VERSION cls) args kwargs
  | None =>
      let* result := cm_body fn cls context args kwargs in
      OK (match result with
          | VObj o => VObj (set_context context o)
          | _ => result
          end)
  end.

(** ** Blocks run under another context *)

Section ContextManagers.
Context {R : Type}.
(** [context.elevated()] of nova/context.py. *)
Variable elevated : RequestContext → RequestContext.

(** [with self.obj_alternate_context(context): block].  The block is
    given the instance and leaves it in some state, with a result or an
    exception; the [finally] clause runs either way. *)
Definition obj_alternate_context (self : NovaObject)
    (context : option RequestContext)
    (block : NovaObject → NovaObject * result R) : NovaObject * result R :=
  let original_context := _context self in
  let after := block (set_context context self) in
  (set_context original_context after.1, after.2).

(** [with self.obj_as_admin(): block]. *)
Definition obj_as_admin (self : NovaObject)
    (block : NovaObject → NovaObject * result R) : NovaObject * result R :=
  match _context self with
  | None =>
      (self, Raise (OrphanedObjectError "obj_as_admin"
                      (obj_name (obj_class self))))
  | Some original_context =>
      let after := block (set_context (Some (elevated original_context))
                                      self) in
      (set_context (Some original_context) after.1, after.2)
  end.
End ContextManagers.

(** ** Copies *)

(** [__deepcopy__]: a new instance of the class, bound to the same
    context, with a copy of every declared field that is set and a copy of
    the changed set. *)
Fixpoint deepcopy (self : NovaObject) : NovaObject :=
  match self with
  | mkNovaObject cls _ ctx attrs changed =>
      let nobj :=
        foldl (λ nobj name,
                 match dict_get_with
                         (λ v, match v with
                               | VPy p => VPy p
                               | VObj o => VObj (deepcopy o)
                               | VObjs l => VObjs (deepcopy <$> l)
                               end) name attrs with
                 | Some nval => obj_setattr name nval nobj
                 | None => nobj
                 end)
              (set_context ctx (new_object cls)) (dict_keys (fields cls)) in
      set_changed_fields changed nobj
  end.

Definition copy_value (v : value NovaObject) : value NovaObject :=
  match v with
  | VPy p => VPy p
  | VObj o => VObj (deepcopy o)
  | VObjs l => VObjs (deepcopy <$> l)
  end.

(** Create a copy. *)
Definition obj_clone (self : NovaObject) : NovaObject := deepcopy self.

(** The instance and every instance inside answer with the [VERSION] of
    their class. *)
Fixpoint at_class_version (o : NovaObject) : bool :=
  match o with
  | mkNovaObject cls ver _ attrs _ =>
      bool_decide (ver = cls_VERSION cls)
      && forallb (λ kv : string * value NovaObject,
                    match kv.2 with
                    | VPy _ => true
                    | VObj o' => at_class_version o'
                    | VObjs l => forallb at_class_version l
                    end) attrs
  end.

Module CloneExample.
(** An instance of [Foo] 1.3 hydrated from a primitive of version 1.1. *)
Definition an_older_foo : NovaObject :=
  mkNovaObject RegistryExample.Foo_1_3 "1.1" None [("a", VPy (PInt 5))]
               {["a"]}.
End CloneExample.

Module ContextExample.
(** An elevated context is the same user's, with the admin flag. *)
Definition elevated (c : RequestContext) : RequestContext :=
  mkRequestContext (user_id c) true.

(** A block that reads the admin flag of the context it runs under. *)
Definition a_block (o : NovaObject) : NovaObject * result bool :=
  (o, match _context o with
      | Some c => OK (is_admin c)
      | None => Raise TypeError
      end).

(** A class method that builds an owner and leaves it unbound. *)
Definition get_by_id : ClassMethod :=
  mkClassMethod "get_by_id" (λ _ _ _ _, OK (VObj Examples.an_owner)).
End ContextExample.

(** ** Comparison of primitives *)

Section Strip.
Variable keys : list string.

(** [_strip(prim, keys)] inside [obj_equal_prims]: in a dict the keys
    are popped and the values that remain are stripped in turn; the
    elements of a list are stripped; anything else is left alone. *)
Fixpoint _strip (p : prim) : prim :=
  match p with
  | PDict d =>
      PDict ((fix strip_items (d : list (string * prim)) :=
                match d with
                | [] => []
                | (k, v) :: d' =>
                    if bool_decide (k ∈ keys) then strip_items d'
                    else (k, _strip v) :: strip_items d'
                end) d)
  | PList l => PList (_strip <$> l)
  | _ => p
  end.

Fixpoint strip_items (d : list (string * prim)) : list (string * prim) :=
  match d with
  | [] => []
  | (k, v) :: d' =>
      if bool_decide (k ∈ keys) then strip_items d'
      else (k, _strip v) :: strip_items d'
  end.
End Strip.

(** Two primitives that are the same once the keys are stripped. *)
Definition alike (keys : list string) (p1 p2 : prim) : Prop :=
  _strip keys p1 = _strip keys p2.

(** Python's [==] on primitives: [None] equals [None] only, a bool
    equals the int it counts as, lists are compared element by element in
    order, dicts key by key whatever the order of their entries. *)
Fixpoint py_eq (p1 p2 : prim) {struct p1} : bool :=
  match p1, p2 with
  | PNone, PNone => true
  | PBool b1, PBool b2 => Bool.eqb b1 b2
  | PBool b, PInt z => (Z.b2z b =? z)%Z
  | PInt z, PBool b => (z =? Z.b2z b)%Z
  | PInt z1, PInt z2 => (z1 =? z2)%Z
  | PStr s1, PStr s2 => bool_decide (s1 = s2)
  | PList l1, PList l2 =>
      (fix all (l1 l2 : list prim) : bool :=
         match l1, l2 with
         | [], [] => true
         | x :: l1', y :: l2' => py_eq x y && all l1' l2'
         | _, _ => false
         end) l1 l2
  | PDict d1, PDict d2 =>
      forallb (λ k, match dict_get_with
                            (λ v1, dict_get_with (py_eq v1) k d2) k d1 with
                    | Some (Some b) => b
                    | _ => false
                    end) (dict_keys d1)
      && forallb (λ k, dict_has k d1) (dict_keys d2)
  | _, _ => false
  end.

(** Compare two primitives for equivalence ignoring some keys. *)
Definition obj_equal_prims (obj_1 obj_2 : NovaObject)
    (ignore : option (list string)) : result bool :=
  let keys := match ignore with
              | Some ignore => "nova_object.changes" :: ignore
              | None => ["nova_object.changes"]
              end in
  let* prim_1 := obj_to_primitive obj_1 None in
  let* prim_2 := obj_to_primitive obj_2 None in
  OK (py_eq (_strip keys prim_1) (_strip keys prim_2)).

(** ** The serializer *)

(** What a service passes as an argument or returns: plain values,
    tuples, lists, sets and dicts of entities, and instances.  A set is
    given by its elements in the order of iteration. *)
Inductive pyvalue : Type :=
| ENone
| EBool (b : bool)
| EInt (z : Z)
| EStr (s : string)
| ETuple (l : list pyvalue)
| EList (l : list pyvalue)
| ESet (l : list pyvalue)
| EDict (d : list (string * pyvalue))
| EObj (o : NovaObject).

(** A primitive as an entity, and the entity that is a primitive. *)
Fixpoint of_prim (p : prim) : pyvalue :=
  match p with
  | PNone => ENone
  | PBool b => EBool b
  | PInt z => EInt z
  | PStr s => EStr s
  | PList l => EList (of_prim <$> l)
  | PDict d => EDict ((λ kv, (kv.1, of_prim kv.2)) <$> d)
  end.

(** [f] on every item, if it gives a result on each. *)
Fixpoint option_all {A B} (f : A → option B) (l : list A) : option (list B) :=
  match l with
  | [] => Some []
  | a :: l' =>
      match f a, option_all f l' with
      | Some b, Some bs => Some (b :: bs)
      | _, _ => None
      end
  end.

Fixpoint as_prim (e : pyvalue) : option prim :=
  match e with
  | ENone => Some PNone
  | EBool b => Some (PBool b)
  | EInt z => Some (PInt z)
  | EStr s => Some (PStr s)
  | EList l => PList <$> option_all as_prim l
  | EDict d =>
      PDict <$> option_all (λ kv, match as_prim kv.2 with
                                  | Some p => Some (kv.1, p)
                                  | None => None
                                  end) d
  | ETuple _ | ESet _ | EObj _ => None
  end.

(** The values that [_process_iterable] is called with. *)
Inductive container : Type :=
| a_tuple (l : list pyvalue)
| a_list (l : list pyvalue)
| a_set (l : list pyvalue)
| a_dict (d : list (string * pyvalue)).

(** How an action on the items is run over a container.  An action
    either returns or raises; one whose recursion is bounded may also run
    into its bound. *)
Class Outcome (M : Type → Type) : Type := {
  for_each : ∀ {A B : Type}, (A → M B) → list A → M (list B);
  and_then : ∀ {A B : Type}, M A → (A → B) → M B
}.

#[export] Instance returns_or_raises : Outcome result := {|
  for_each := @mapM;
  and_then := λ A B m f, let* a := m in OK (f a)
|}.

Fixpoint mapM_bounded {A B} (f : A → option (result B)) (l : list A)
  : option (result (list B)) :=
  match l with
  | [] => Some (OK [])
  | a :: l' =>
      match f a with
      | None => None
      | Some (Raise e) => Some (Raise e)
      | Some (OK b) =>
          match mapM_bounded f l' with
          | None => None
          | Some (Raise e) => Some (Raise e)
          | Some (OK bs) => Some (OK (b :: bs))
          end
      end
  end.

#[export] Instance bounded : Outcome (λ A, option (result A)) := {|
  for_each := @mapM_bounded;
  and_then := λ A B m f,
    match m with
    | None => None
    | Some (Raise e) => Some (Raise e)
    | Some (OK a) => Some (OK (f a))
    end
|}.

(** [_process_iterable(context, action_fn, values)], the action having
    the context in it: a new container of the same type, except that a
    set becomes a list. *)
Definition _process_iterable `{Outcome M} (action_fn : pyvalue → M pyvalue)
    (values : container) : M pyvalue :=
  match values with
  | a_dict d =>
      and_then (for_each (λ kv, and_then (action_fn kv.2) (pair kv.1)) d)
               EDict
  | a_set l | a_list l => and_then (for_each action_fn l) EList
  | a_tuple l => and_then (for_each action_fn l) ETuple
  end.

(** [serialize_entity(context, entity)]; the context is not looked
    at. *)
Fixpoint serialize_entity (context : option RequestContext)
    (entity : pyvalue) : result pyvalue :=
  match entity with
  | ETuple l => _process_iterable (serialize_entity context) (a_tuple l)
  | EList l => _process_iterable (serialize_entity context) (a_list l)
  | ESet l => _process_iterable (serialize_entity context) (a_set l)
  | EDict d => _process_iterable (serialize_entity context) (a_dict d)
  | EObj o => let* p := obj_to_primitive o None in OK (of_prim p)
  | _ => OK entity
  end.

Section Deserialize.
Variable is_compatible : string → string → bool.
Variable registry : list (string * list NovaClass).
Variable object_backport :
  option RequestContext → prim → string → result NovaObject.
(** The bound on the calls of [_process_object]. *)
Variable fuel : nat.

(** [deserialize_entity(context, entity)].  [None] when
    [_process_object] runs into its bound, and for a dict that carries
    ['nova_object.name'] and holds a tuple, a set or an instance: what
    hydration makes of those is beyond the primitives modelled here. *)
Fixpoint deserialize_entity (context : option RequestContext)
    (entity : pyvalue) : option (result pyvalue) :=
  match entity with
  | EDict d =>
      if dict_has "nova_object.name" d then
        match as_prim entity with
        | Some objprim =>
            and_then (_process_object is_compatible registry object_backport
                                      fuel context objprim) EObj
        | None => None
        end
      else _process_iterable (deserialize_entity context) (a_dict d)
  | ETuple l => _process_iterable (deserialize_entity context) (a_tuple l)
  | EList l => _process_iterable (deserialize_entity context) (a_list l)
  | ESet l => _process_iterable (deserialize_entity context) (a_set l)
  | _ => Some (OK entity)
  end.
End Deserialize.

(** The instances inside a value, in the order of iteration. *)
Fixpoint instances (e : pyvalue) : list NovaObject :=
  match e with
  | EObj o => [o]
  | ETuple l | EList l | ESet l => flat_map instances l
  | EDict d => flat_map (λ kv, instances kv.2) d
  | _ => []
  end.

(** Neither a set nor an instance is inside. *)
Fixpoint on_the_wire (e : pyvalue) : bool :=
  match e with
  | ESet _ | EObj _ => false
  | ETuple l | EList l => forallb on_the_wire l
  | EDict d => forallb (λ kv, on_the_wire kv.2) d
  | _ => true
  end.

(** What comes back for a value that was sent: the same containers with
    the same keys, a list for a set, and for an instance one that holds
    the same and is bound to the receiver's context. *)
Inductive received (context : option RequestContext)
  : pyvalue → pyvalue → Prop :=
| received_None : received context ENone ENone
| received_bool b : received context (EBool b) (EBool b)
| received_int z : received context (EInt z) (EInt z)
| received_str s : received context (EStr s) (EStr s)
| received_tuple l l' :
    Forall2 (received context) l l' →
    received context (ETuple l) (ETuple l')
| received_list l l' :
    Forall2 (received context) l l' →
    received context (EList l) (EList l')
| received_set l l' :
    Forall2 (received context) l l' →
    received context (ESet l) (EList l')
| received_dict d d' :
    Forall2 (λ kv kv', kv.1 = kv'.1 ∧ received context kv.2 kv'.2) d d' →
    received context (EDict d) (EDict d')
| received_obj o o' :
    same_object o o' → _context o' = context →
    received context (EObj o) (EObj o').

Section Sendable.
Variable compatible : string → string → bool.
Variable registry : list (string * list NovaClass).

(** A value whose instances are well formed and can be hydrated back,
    and whose own dicts do not carry the key by which the receiver tells a
    serialized instance. *)
Fixpoint sendable (e : pyvalue) : Prop :=
  match e with
  | EObj o => well_formed o = true ∧ hydratable compatible registry o
  | ETuple l | EList l | ESet l =>
      (fix all (l : list pyvalue) : Prop :=
         match l with
         | [] => True
         | x :: l' => sendable x ∧ all l'
         end) l
  | EDict d =>
      dict_has "nova_object.name" d = false ∧
      (fix all (d : list (string * pyvalue)) : Prop :=
         match d with
         | [] => True
         | kv :: d' => sendable kv.2 ∧ all d'
         end) d
  | _ => True
  end.
End Sendable.

Module SerializerRoundTrip.
(** A dict with a set of two entities and a plain number. *)
Definition a_reply : pyvalue :=
  EDict [("owners", ESet [EObj RoundTripExample.a_full_owner;
                          EObj Examples.a_child]);
         ("count", EInt 2)].
End SerializerRoundTrip.

(** * Properties *)

#[local] Set Warnings "-clear-no-such-hyp".

(** ** Facts about dicts *)

Section DictFacts.
Context {A : Type}.
Implicit Types (d : list (string * A)) (k : string).

Lemma dict_get_with_get {R} (f : A → R) k d :
  dict_get_with f k d = f <$> dict_get k d.
Proof.
  induction d as [|[k' a] d IH]; simpl; [done|].
  destruct (decide (k = k')); [done|apply IH].
Qed.

Lemma dict_get_set_eq k (a : A) d : dict_get k (dict_set k a d) = Some a.
Proof.
  induction d as [|[k' a'] d IH]; simpl.
  - by rewrite decide_True.
  - destruct (decide (k = k')) as [->|Hne]; simpl.
    + by rewrite decide_True.
    + by rewrite decide_False.
Qed.

Lemma dict_get_set_ne k k' (a : A) d :
  k ≠ k' → dict_get k' (dict_set k a d) = dict_get k' d.
Proof.
  intros Hne. induction d as [|[k0 a0] d IH]; simpl.
  - by rewrite decide_False.
  - destruct (decide (k = k0)) as [->|Hk]; simpl.
    + by rewrite !decide_False.
    + destruct (decide (k' = k0)); [done|apply IH].
Qed.

Lemma dict_get_None k d : dict_get k d = None ↔ k ∉ dict_keys d.
Proof.
  unfold dict_keys. induction d as [|[k' a] d IH]; simpl.
  - split; [intros _; apply not_elem_of_nil|done].
  - rewrite not_elem_of_cons. destruct (decide (k = k')) as [->|Hne].
    + split; [done|intros [? _]; done].
    + rewrite IH. naive_solver.
Qed.

Lemma dict_get_is_Some k d : is_Some (dict_get k d) ↔ k ∈ dict_keys d.
Proof.
  rewrite <-not_eq_None_Some, dict_get_None.
  destruct (decide (k ∈ dict_keys d)); naive_solver.
Qed.

Lemma dict_has_true k d : dict_has k d = true ↔ k ∈ dict_keys d.
Proof. unfold dict_has. by rewrite bool_decide_eq_true, dict_get_is_Some. Qed.

Lemma dict_keys_set k (a : A) d :
  ∀ k', k' ∈ dict_keys (dict_set k a d) ↔ k' = k ∨ k' ∈ dict_keys d.
Proof.
  intros k'. rewrite <-!dict_get_is_Some.
  destruct (decide (k = k')) as [->|Hne].
  - rewrite dict_get_set_eq. naive_solver.
  - rewrite dict_get_set_ne by done. naive_solver.
Qed.

Lemma dict_get_del_eq k d :
  NoDup (dict_keys d) → dict_get k (dict_del k d) = None.
Proof.
  unfold dict_keys. induction d as [|[k' a] d IH]; simpl; [done|].
  rewrite NoDup_cons. intros [Hk' Hd].
  destruct (decide (k = k')) as [->|Hne]; simpl.
  - by apply dict_get_None.
  - rewrite decide_False by done. by apply IH.
Qed.

Lemma dict_get_del_ne k k' d :
  k ≠ k' → dict_get k' (dict_del k d) = dict_get k' d.
Proof.
  intros Hne. induction d as [|[k0 a0] d IH]; simpl; [done|].
  destruct (decide (k = k0)) as [->|Hk]; simpl.
  - by rewrite decide_False.
  - destruct (decide (k' = k0)); [done|apply IH].
Qed.
End DictFacts.

(** ** [mapM] *)

Lemma mapM_Forall2 {A B} (f : A → result B) l l' :
  mapM f l = OK l' → Forall2 (λ a b, f a = OK b) l l'.
Proof.
  revert l'. induction l as [|a l IH]; intros l'; simpl.
  - intros [= <-]. constructor.
  - destruct (f a) as [b|] eqn:Hb; [|done].
    destruct (mapM f l) as [bs|]; [|done].
    intros [= <-]. constructor; [done|by apply IH].
Qed.

Lemma Forall2_mapM {A B} (f : A → result B) l l' :
  Forall2 (λ a b, f a = OK b) l l' → mapM f l = OK l'.
Proof.
  induction 1 as [|a b l l' Hab _ IH]; simpl; [done|].
  by rewrite Hab, IH.
Qed.

(** ** The order on version tuples *)

Lemma tuple_lt_irrefl a : tuple_lt a a = false.
Proof.
  induction a as [|x a IH]; simpl; [done|].
  rewrite Z.ltb_irrefl, Z.eqb_refl, IH. done.
Qed.

Lemma tuple_lt_trans a b c :
  tuple_lt a b = true → tuple_lt b c = true → tuple_lt a c = true.
Proof.
  revert b c. induction a as [|x a IH]; intros [|y b] [|z c]; simpl; try done.
  rewrite !orb_true_iff, !andb_true_iff, !Z.ltb_lt, !Z.eqb_eq.
  intros [Hxy|[-> Hab]] [Hyz|[Heq Hbc]]; subst.
  - left. lia.
  - by left.
  - by left.
  - right. split; [done|]. by apply (IH b).
Qed.

Lemma tuple_lt_asym a b : tuple_lt a b = true → tuple_lt b a = false.
Proof.
  intros Hab. destruct (tuple_lt b a) eqn:Hba; [|done].
  by rewrite <-(tuple_lt_irrefl a), (tuple_lt_trans a b a).
Qed.

Lemma tuple_lt_ne a b : tuple_lt a b = true → tuple_eq b a = false.
Proof.
  intros Hab. unfold tuple_eq. apply bool_decide_eq_false. intros ->.
  by rewrite tuple_lt_irrefl in Hab.
Qed.

Lemma tuple_eq_refl a : tuple_eq a a = true.
Proof. unfold tuple_eq. by apply bool_decide_eq_true. Qed.

(** ** The walk over a relationship table *)

Section Walk.
Variables (table : list (string * string)) (target : list Z).

(** Entries whose owner version lies below the target are passed over. *)
Lemma calculate_from_skip (owners : list (list Z)) :
  ∀ (rest : list (string * string)) (index k : nat),
    Forall2 (λ entry o, convert_version_to_tuple entry.1 = OK o)
            (take k rest) owners →
    Forall (λ o, tuple_lt o target = true) owners →
    calculate_from table target index rest
    = calculate_from table target (index + k) (drop k rest).
Proof.
  induction owners as [|o owners IH]; intros rest index k Hconv Hbelow.
  - apply Forall2_nil_inv_r in Hconv.
    destruct k as [|k]; [by rewrite Nat.add_0_r|].
    destruct rest; [by destruct index|done].
  - destruct k as [|k]; [by inversion Hconv|].
    destruct rest as [|[my child_version] rest]; [by inversion Hconv|].
    simpl in Hconv. apply Forall2_cons_1 in Hconv as [Hmy Hconv].
    apply Forall_cons_1 in Hbelow as [Ho Hbelow].
    simpl in *. rewrite Hmy, (tuple_lt_asym _ _ Ho), (tuple_lt_ne _ _ Ho).
    rewrite (IH rest (S index) k Hconv Hbelow). f_equal. lia.
Qed.
End Walk.

(** ** Induction over an instance and the instances it holds *)

Lemma NovaObject_nested_ind (P : NovaObject → Prop) :
  (∀ cls ver ctx attrs changed,
     Forall (λ kv, value_Forall P kv.2) attrs →
     P (mkNovaObject cls ver ctx attrs changed)) →
  ∀ o, P o.
Proof.
  intros step. fix IH 1. intros [cls ver ctx attrs changed]. apply step.
  induction attrs as [|[k v] attrs IHattrs]; constructor; [|exact IHattrs].
  destruct v as [p|o|l]; simpl; [exact I|apply IH|].
  induction l as [|o l IHl]; constructor; [apply IH|exact IHl].
Qed.

Lemma well_formed_unfold cls ver ctx attrs changed :
  well_formed (mkNovaObject cls ver ctx attrs changed) = true ↔
  NoDup (dict_keys (fields cls)) ∧ NoDup (dict_keys attrs) ∧
  changed ⊆ list_to_set (dict_keys attrs) ∧
  Forall (λ kv, ∃ field, dict_get kv.1 (fields cls) = Some field ∧
                         well_typed field kv.2 = true) attrs.
Proof.
  simpl. rewrite !andb_true_iff, !bool_decide_eq_true, forallb_forall.
  rewrite Forall_forall. split.
  - intros [[[? ?] ?] Hall]. repeat split; try done.
    intros kv Hkv. apply list_elem_of_In, Hall in Hkv.
    destruct (dict_get kv.1 (fields cls)) as [field|]; [|done].
    exists field. split; [done|]. unfold well_typed.
    by destruct field, kv.2 as [[]| |].
  - intros (? & ? & ? & Hall). repeat split; try done.
    intros kv Hkv. apply list_elem_of_In, Hall in Hkv
      as (field & -> & Htyped). unfold well_typed in Htyped.
    by destruct field, kv.2 as [[]| |].
Qed.

(** What is stored under a key is an element of the dict. *)
Lemma dict_get_elem_of {A} k (a : A) d : dict_get k d = Some a → (k, a) ∈ d.
Proof.
  induction d as [|[k' a'] d IH]; simpl; [done|].
  destruct (decide (k = k')) as [->|Hne].
  - intros [= ->]. apply list_elem_of_here.
  - intros Hget. apply list_elem_of_further. by apply IH.
Qed.

Lemma elem_of_dict_get {A} k (a : A) d :
  NoDup (dict_keys d) → (k, a) ∈ d → dict_get k d = Some a.
Proof.
  unfold dict_keys. induction d as [|[k' a'] d IH]; simpl.
  - intros _ Hin. by apply elem_of_nil in Hin.
  - rewrite NoDup_cons. intros [Hk' Hd] Hin.
    apply elem_of_cons in Hin as [[= -> ->]|Hin].
    + by rewrite decide_True.
    + rewrite decide_False; [by apply IH|].
      intros ->. apply Hk'. apply list_elem_of_fmap. by exists (k', a).
Qed.

(** ** The loop of dehydration *)

Lemma mapM_total {A B} (f : A → result B) l :
  Forall (λ a, ∃ b, f a = OK b) l → ∃ l', mapM f l = OK l'.
Proof.
  induction 1 as [|a l [b Hb] _ [l' Hl']]; simpl; [by eexists|].
  rewrite Hb, Hl'. by eexists.
Qed.

Lemma mapM_length {A B} (f : A → result B) l l' :
  mapM f l = OK l' → length l' = length l.
Proof. intros H. apply mapM_Forall2, Forall2_length in H. done. Qed.

Section ToPrimitiveLoopFacts.
Variables (attrs : list (string * value NovaObject))
          (to_primitive_field : Field → value NovaObject → result prim).

Lemma to_primitive_loop_get fs :
  NoDup (dict_keys fs) →
  Forall (λ nf, ∀ v, dict_get nf.1 attrs = Some v →
                     ∃ p, to_primitive_field nf.2 v = OK p) fs →
  ∀ acc, ∃ d,
    to_primitive_loop attrs to_primitive_field fs acc = OK d ∧
    ∀ k, dict_get k d = match serialized attrs to_primitive_field fs k with
                        | Some p => Some p
                        | None => dict_get k acc
                        end.
Proof.
  unfold dict_keys.
  induction fs as [|[name field] fs IH]; intros Hnodup Hok acc; simpl.
  - by exists acc.
  - apply NoDup_cons in Hnodup as [Hname Hnodup].
    apply Forall_cons_1 in Hok as [Hhere Hok]. simpl in Hhere.
    assert (Hfresh : dict_get name fs = None) by (by apply dict_get_None).
    rewrite dict_get_with_get.
    destruct (dict_get name attrs) as [v|] eqn:Hv; simpl.
    + destruct (Hhere v eq_refl) as [p Hp]. rewrite Hp.
      destruct (IH Hnodup Hok (dict_set name p acc)) as (d & -> & Hd).
      exists d. split; [done|]. intros k. rewrite Hd. unfold serialized.
      simpl. destruct (decide (k = name)) as [->|Hne].
      * by rewrite Hfresh, Hv, Hp, dict_get_set_eq.
      * by rewrite dict_get_set_ne by done.
    + destruct (IH Hnodup Hok acc) as (d & -> & Hd).
      exists d. split; [done|]. intros k. rewrite Hd. unfold serialized.
      simpl. destruct (decide (k = name)) as [->|Hne]; [|done].
      by rewrite Hfresh, Hv.
Qed.
End ToPrimitiveLoopFacts.

Lemma obj_to_primitive_unfold self target_version :
  obj_to_primitive self target_version
  = let* primitive :=
      to_primitive_loop (_attrs self)
        (field_to_primitive (λ o, obj_to_primitive o None))
        (fields (obj_class self)) [] in
    let* primitive :=
      if truthy_str target_version
      then obj_make_compatible self (PDict primitive)
                               (str_or target_version (VERSION self))
      else OK (PDict primitive) in
    OK (wire_envelope self (str_or target_version (VERSION self)) primitive).
Proof. by destruct self. Qed.

(** A declared field and what a well-formed instance holds under it. *)
Lemma well_formed_typed self name field v :
  well_formed self = true →
  (name, field) ∈ fields (obj_class self) →
  dict_get name (_attrs self) = Some v →
  well_typed field v = true.
Proof.
  destruct self as [cls ver ctx attrs changed]. simpl obj_class. simpl _attrs.
  rewrite well_formed_unfold. intros (Hfields & _ & _ & Hall) Hin Hv.
  rewrite Forall_forall in Hall.
  destruct (Hall _ (dict_get_elem_of _ _ _ Hv)) as (field' & Hfield' & Htyped).
  simpl in *. rewrite (elem_of_dict_get _ _ _ Hfields Hin) in Hfield'.
  by injection Hfield' as <-.
Qed.

Lemma well_formed_children cls ver ctx attrs changed :
  well_formed (mkNovaObject cls ver ctx attrs changed) = true →
  Forall (λ kv, value_Forall (λ o, well_formed o = true) kv.2) attrs.
Proof.
  rewrite well_formed_unfold. intros (_ & _ & _ & Hall).
  eapply Forall_impl; [exact Hall|]. intros [k v] (field & _ & Htyped).
  simpl in *. unfold well_typed in Htyped.
  destruct field, v as [[]|o|l]; simpl; try done.
  apply Forall_forall. intros o Ho. rewrite forallb_forall in Htyped.
  by apply Htyped, list_elem_of_In.
Qed.

Lemma value_Forall_get (P : NovaObject → Prop) attrs k v :
  Forall (λ kv, value_Forall P kv.2) attrs →
  dict_get k attrs = Some v → value_Forall P v.
Proof.
  rewrite Forall_forall. intros Hall Hv.
  by apply (Hall (k, v)), dict_get_elem_of.
Qed.

Lemma field_to_primitive_total field v :
  well_typed field v = true →
  value_Forall (λ o, ∃ p, obj_to_primitive o None = OK p) v →
  ∃ p, field_to_primitive (λ o, obj_to_primitive o None) field v = OK p.
Proof.
  unfold well_typed.
  destruct field, v as [[]|o|l]; simpl; try done; try by eexists.
  intros _ Hall. destruct (mapM_total _ _ Hall) as [ps ->]. by eexists.
Qed.

(** Dehydration of a well-formed instance, without a target version,
    returns. *)
Lemma obj_to_primitive_total self :
  well_formed self = true → ∃ p, obj_to_primitive self None = OK p.
Proof.
  induction self as [cls ver ctx attrs changed IH] using NovaObject_nested_ind.
  intros Hwf. rewrite obj_to_primitive_unfold. simpl.
  pose proof (well_formed_children _ _ _ _ _ Hwf) as Hchildren.
  pose proof Hwf as Hwf'.
  apply well_formed_unfold in Hwf' as (Hfields & _ & _ & _).
  destruct (to_primitive_loop_get attrs
              (field_to_primitive (λ o, obj_to_primitive o None))
              (fields cls) Hfields) with (acc := @nil (string * prim))
    as (d & -> & _); [|by eexists].
  apply Forall_forall. intros [name field] Hin v Hv. simpl in Hv |- *.
  apply field_to_primitive_total.
  - by apply (well_formed_typed (mkNovaObject cls ver ctx attrs changed)
                                name field v Hwf).
  - pose proof (value_Forall_get _ _ _ _ IH Hv) as HIH.
    pose proof (value_Forall_get _ _ _ _ Hchildren Hv) as Hwfv.
    destruct v as [p|o|l]; simpl in HIH, Hwfv |- *; [done|by apply HIH|].
    rewrite Forall_forall in *. intros o Ho. by apply HIH, Hwfv.
Qed.

(** ** C1: the child version of a backport *)

Section ChildVersion.
Variables (self : NovaObject) (child : string).
Variables (table : list (string * string)) (owners : list (list Z)).
Hypothesis Htable :
  dict_get child (obj_relationships (obj_class self)) = Some table.
Hypothesis Hconv :
  Forall2 (λ entry o, convert_version_to_tuple entry.1 = OK o) table owners.

Lemma calculate_unfold target_version target :
  convert_version_to_tuple target_version = OK target →
  obj_calculate_child_version self target_version child
  = calculate_from table target 0 table.
Proof.
  intros Htarget. unfold obj_calculate_child_version, dict_item.
  by rewrite Htarget, Htable.
Qed.

Lemma calculate_reach target k :
  (∀ j o, (j < k)%nat → owners !! j = Some o → tuple_lt o target = true) →
  calculate_from table target 0 table
  = calculate_from table target k (drop k table).
Proof.
  intros Hbelow.
  apply (calculate_from_skip table target (take k owners) table 0 k).
  - by apply Forall2_take.
  - apply Forall_forall. intros o Ho.
    apply list_elem_of_lookup in Ho as [j Hj].
    apply lookup_take_Some in Hj as [Hj Hlt]. by apply (Hbelow j).
Qed.
End ChildVersion.

Lemma ascending_head a l :
  ascending (a :: l) = true → Forall (λ b, tuple_lt a b = true) l.
Proof.
  revert a. induction l as [|b l IH]; intros a; simpl; [constructor|].
  rewrite andb_true_iff. intros [Hab Hl]. constructor; [done|].
  eapply Forall_impl; [by apply IH|].
  intros c Hbc. simpl in Hbc. by apply (tuple_lt_trans a b c).
Qed.

Lemma ascending_tail a l : ascending (a :: l) = true → ascending l = true.
Proof. destruct l; simpl; [done|]. rewrite andb_true_iff. by intros [_ ?]. Qed.

Lemma ascending_lookup l i j a b :
  ascending l = true → (i < j)%nat → l !! i = Some a → l !! j = Some b →
  tuple_lt a b = true.
Proof.
  revert i j. induction l as [|x l IH]; intros i j Hasc Hij Ha Hb; [done|].
  destruct j as [|j]; [lia|]. destruct i as [|i]; simpl in *.
  - injection Ha as ->. apply ascending_head in Hasc.
    rewrite Forall_forall in Hasc. apply Hasc.
    by apply list_elem_of_lookup_2 in Hb.
  - apply (IH i j); [by apply ascending_tail in Hasc|lia|done|done].
Qed.

Lemma last_drop {A} (l : list A) k x :
  l !! k = Some x → length l = S k → drop k l = [x].
Proof.
  revert k. induction l as [|y l IH]; intros k Hk Hlen; [done|].
  destruct k as [|k]; simpl in *.
  - injection Hk as ->. by destruct l.
  - apply IH; [done|lia].
Qed.

(** C1, as the code has it.  For a table in ascending order of owner
    version, [obj_calculate_child_version] answers: below the first entry
    the child is omitted, and [_obj_make_obj_compatible] then deletes the
    field from the primitive; strictly between two entries the older
    entry's child version; on an entry that entry's child version; above
    the last entry the last entry's child version.  Whatever version is
    answered is stamped on the child's primitive.  For the table
    [("1.2","1.0"), ("1.4","1.2")] this gives: omitted at "1.1" and at
    "1.0", "1.0" at "1.3", "1.2" at "1.5". *)
Theorem child_version_by_table (self : NovaObject) (child : string)
    (table : list (string * string)) (owners : list (list Z))
    (target_version : string) (target : list Z) :
  dict_get child (obj_relationships (obj_class self)) = Some table →
  mapM convert_version_to_tuple table.*1 = OK owners →
  ascending owners = true →
  convert_version_to_tuple target_version = OK target →
  let answer := obj_calculate_child_version self target_version child in
  (∀ first, owners !! 0%nat = Some first → tuple_lt target first = true →
     answer = OK None ∧
     ∀ mc d obj,
       dict_has child d = true →
       _obj_make_obj_compatible mc self (PDict d) target_version child obj
       = OK (PDict (dict_del child d)))
  ∧ (∀ i lo hi entry,
       owners !! i = Some lo → owners !! S i = Some hi →
       tuple_lt lo target = true → tuple_lt target hi = true →
       table !! i = Some entry → answer = OK (Some entry.2))
  ∧ (∀ i entry,
       owners !! i = Some target → table !! i = Some entry →
       answer = OK (Some entry.2))
  ∧ (∀ lo entry,
       last owners = Some lo → tuple_lt lo target = true →
       last table = Some entry → answer = OK (Some entry.2))
  ∧ (∀ mc primitive primitive' o to_version,
       answer = OK (Some to_version) →
       _obj_make_obj_compatible mc self primitive target_version child (VObj o)
       = OK primitive' →
       ∃ pchild, prim_item child primitive' = OK pchild ∧
                 prim_item "nova_object.version" pchild = OK (PStr to_version))
  ∧ (table = [("1.2", "1.0"); ("1.4", "1.2")] →
       (target_version = "1.1" → answer = OK None) ∧
       (target_version = "1.3" → answer = OK (Some "1.0")) ∧
       (target_version = "1.5" → answer = OK (Some "1.2")) ∧
       (target_version = "1.0" → answer = OK None)).
Proof.
  intros Htable Hmap Hasc Htarget answer.
  assert (Hconv : Forall2 (λ entry o, convert_version_to_tuple entry.1 = OK o)
                          table owners).
  { apply mapM_Forall2 in Hmap. by apply Forall2_fmap_l in Hmap. }
  assert (Hanswer : answer = calculate_from table target 0 table)
    by by apply (calculate_unfold self child table Htable).
  assert (Hreach := calculate_reach table owners Hconv target).
  assert (Hlen := Forall2_length _ _ _ Hconv).
  split; [|split; [|split; [|split; [|split]]]].
  - (* below the first entry *)
    intros first Hfirst Hlt.
    assert (Hnone : calculate_from table target 0 table = OK None).
    { destruct Hconv as [|[my cv] o ? ? Hmy _]; [done|].
      simpl in *. injection Hfirst as ->. by rewrite Hmy, Hlt. }
    split; [by rewrite Hanswer|].
    intros mc d obj Hhas. unfold _obj_make_obj_compatible.
    fold answer. rewrite Hanswer, Hnone. simpl. by rewrite Hhas.
  - (* strictly between two entries *)
    intros i lo hi entry Hlo Hhi Hlt Hgt Hentry.
    rewrite Hanswer, (Hreach (S i)).
    + destruct (Forall2_lookup_r _ _ _ _ _ Hconv Hhi) as ([my cv] & Hnext & Hmy).
      rewrite (drop_S _ _ _ Hnext). simpl in *.
      by rewrite Hmy, Hgt, Hentry.
    + intros j o Hj Ho. destruct (decide (j = i)) as [->|Hne].
      * by simplify_eq.
      * apply (tuple_lt_trans o lo target); [|done].
        apply (ascending_lookup owners j i); [done|lia|done|done].
  - (* on an entry *)
    intros i entry Hi Hentry. rewrite Hanswer, (Hreach i).
    + destruct (Forall2_lookup_r _ _ _ _ _ Hconv Hi) as ([my cv] & Hnext & Hmy).
      rewrite (drop_S _ _ _ Hnext). simpl in *.
      rewrite Hmy, tuple_lt_irrefl, tuple_eq_refl. by simplify_eq.
    + intros j o Hj Ho. by apply (ascending_lookup owners j i).
  - (* above the last entry *)
    intros lo entry Hlo Hlt Hentry.
    rewrite Hanswer, (Hreach (length table)).
    + rewrite drop_all. simpl. by rewrite Hentry.
    + intros j o Hj Ho. rewrite last_lookup in Hlo.
      destruct (decide (j = pred (length owners))) as [->|Hne].
      * by simplify_eq.
      * apply (tuple_lt_trans o lo target); [|done].
        apply (ascending_lookup owners j (pred (length owners)));
          [done|lia|done|done].
  - (* the version is stamped *)
    intros mc primitive primitive' o to_version Hto.
    unfold _obj_make_obj_compatible. fold answer. rewrite Hto. simpl.
    destruct (prim_item child primitive) as [pchild|]; [|done]. simpl.
    destruct (prim_item "nova_object.version" pchild) as [ver|]; [|done].
    set (inner := if version_is to_version ver then _ else _).
    destruct inner as [pchild1|]; [|done].
    destruct pchild1 as [| | | | |d1]; try done. simpl.
    destruct primitive as [| | | | |d]; try done. simpl.
    intros [= <-]. eexists. simpl. unfold dict_item.
    rewrite dict_get_set_eq. split; [done|]. simpl. unfold dict_item.
    by rewrite dict_get_set_eq.
  - (* the table of the example *)
    intros ->. rewrite Hanswer.
    repeat split; intros ->; vm_compute in Htarget;
      injection Htarget as <-; reflexivity.
Qed.

Lemma child_version_by_table_witness :
  obj_calculate_child_version Examples.an_owner "1.3" "child"
  = OK (Some "1.0").
Proof.
  pose proof (child_version_by_table Examples.an_owner "child"
                [("1.2", "1.0"); ("1.4", "1.2")] [[1; 2]; [1; 4]]
                "1.3" [1; 3] eq_refl eq_refl eq_refl eq_refl) as H.
  simpl in H. destruct H as (_ & Hbetween & _).
  exact (Hbetween 0%nat [1; 2] [1; 4] ("1.2", "1.0")
                  eq_refl eq_refl eq_refl eq_refl eq_refl).
Defined.

(** C1, the claim refuted: with the table [("1.2","1.0"), ("1.4","1.2")]
    a backport to "1.1" does not give the child version "1.0" (the field
    is omitted), and a backport to "1.3" does not give "1.2" (it gives
    "1.0"). *)
Lemma child_version_claim_fails :
  obj_calculate_child_version Examples.an_owner "1.1" "child" = OK None ∧
  obj_calculate_child_version Examples.an_owner "1.1" "child"
    ≠ OK (Some "1.0") ∧
  obj_calculate_child_version Examples.an_owner "1.3" "child"
    = OK (Some "1.0") ∧
  obj_calculate_child_version Examples.an_owner "1.3" "child"
    ≠ OK (Some "1.2").
Proof. repeat split; done. Qed.

(** ** C2: resolution of a name and version in the registry *)

Section ClassLoop.
Variable compatible : string → string → bool.
Variable objver : string.

Let exact (c : NovaClass) : Prop := cls_VERSION c = objver.
Let fits (c : NovaClass) : bool := compatible objver (cls_VERSION c).

Lemma class_loop_exact classes c :
  c ∈ classes → exact c →
  ∀ held, ∃ c', class_loop compatible objver held classes = Some c' ∧
                c' ∈ classes ∧ exact c'.
Proof.
  induction classes as [|c0 classes IH]; intros Hin Hc held; simpl.
  - by apply elem_of_nil in Hin.
  - destruct (bool_decide (cls_VERSION c0 = objver)) eqn:Hc0.
    + apply bool_decide_eq_true in Hc0.
      exists c0. split; [done|]. split; [apply list_elem_of_here|done].
    + apply bool_decide_eq_false in Hc0.
      apply elem_of_cons in Hin as [->|Hin]; [done|].
      destruct (IH Hin Hc (match held with
                           | Some c1 => Some c1
                           | None => if compatible objver (cls_VERSION c0)
                                     then Some c0 else None
                           end)) as (c' & Hloop & Hc' & Hexact).
      exists c'. split; [done|]. split; [by apply list_elem_of_further|done].
Qed.

Lemma class_loop_held classes c0 :
  Forall (λ c, ¬ exact c) classes →
  class_loop compatible objver (Some c0) classes = Some c0.
Proof.
  induction 1 as [|c classes Hc _ IH]; simpl; [done|].
  by rewrite bool_decide_eq_false_2.
Qed.

(** Without an exact match the loop ends with the first class of the
    list that is compatible. *)
Lemma class_loop_first classes :
  Forall (λ c, ¬ exact c) classes →
  class_loop compatible objver None classes = List.find fits classes.
Proof.
  induction 1 as [|c classes Hc Hrest IH]; simpl; [done|].
  rewrite bool_decide_eq_false_2 by done. unfold fits at 1.
  destruct (compatible objver (cls_VERSION c)); [|done].
  by apply class_loop_held.
Qed.
End ClassLoop.

Lemma older_trans c1 c2 c3 :
  older c1 c2 = true → older c2 c3 = true → older c1 c3 = true.
Proof.
  unfold older.
  destruct (convert_version_to_tuple (cls_VERSION c1)) as [v1|]; [|done].
  destruct (convert_version_to_tuple (cls_VERSION c2)) as [v2|]; [|done].
  destruct (convert_version_to_tuple (cls_VERSION c3)) as [v3|]; [|done].
  apply tuple_lt_trans.
Qed.

Lemma newest_first_head c classes :
  newest_first (c :: classes) = true →
  Forall (λ c', older c' c = true) classes ∧ newest_first classes = true.
Proof.
  revert c. induction classes as [|c1 classes IH]; intros c; simpl.
  - by split; [constructor|].
  - rewrite andb_true_iff. intros [Hc1 Hrest].
    split; [|done]. constructor; [done|].
    destruct (IH c1 Hrest) as [Hall _].
    eapply Forall_impl; [done|]. intros c2 Hc2. simpl in Hc2.
    by apply (older_trans c2 c1 c).
Qed.

(** In a list kept newest first, the first class that satisfies a test is
    newer than every other class that satisfies it. *)
Lemma find_newest (test : NovaClass → bool) classes c :
  newest_first classes = true → List.find test classes = Some c →
  ∀ c', c' ∈ classes → test c' = true → c' = c ∨ older c' c = true.
Proof.
  induction classes as [|c0 classes IH]; intros Hsorted Hfind c' Hin Hc';
    [by apply elem_of_nil in Hin|].
  apply newest_first_head in Hsorted as [Hhead Hsorted]. simpl in Hfind.
  destruct (test c0) eqn:Hc0.
  - injection Hfind as <-. apply elem_of_cons in Hin as [->|Hin]; [by left|].
    right. rewrite Forall_forall in Hhead. by apply Hhead.
  - apply elem_of_cons in Hin as [->|Hin]; [congruence|]. by apply IH.
Qed.

(** C2.  Resolving a name and a version in the registry: an unregistered
    name fails with [UnsupportedObjectError]; a class registered under the
    name with exactly the requested version is returned; otherwise the
    answer is a compatible class (same MAJOR, MINOR at least the requested
    one), and with the classes kept newest first it is the highest
    compatible one; with no compatible class the lookup fails with
    [IncompatibleObjectVersion] carrying the requested version and, as
    [supported], the version of the newest registered class. *)
Theorem registry_resolution (registry : list (string * list NovaClass))
    (objname objver : string) (classes : list NovaClass) :
  dict_get objname registry = Some classes →
  newest_first classes = true →
  let resolve := obj_class_from_name is_compatible in
  (∀ unknown, dict_get unknown registry = None →
     resolve registry unknown objver
     = Raise (UnsupportedObjectError (ObjType (PStr unknown))))
  ∧ (∀ c, c ∈ classes → cls_VERSION c = objver →
       ∃ c', resolve registry objname objver = OK c' ∧
             c' ∈ classes ∧ cls_VERSION c' = objver)
  ∧ ((∀ c, c ∈ classes → cls_VERSION c ≠ objver) →
     ∀ c, c ∈ classes → is_compatible objver (cls_VERSION c) = true →
       ∃ c', resolve registry objname objver = OK c' ∧ c' ∈ classes ∧
             is_compatible objver (cls_VERSION c') = true ∧
             ∀ c'', c'' ∈ classes →
                    is_compatible objver (cls_VERSION c'') = true →
                    c'' = c' ∨ older c'' c' = true)
  ∧ ((∀ c, c ∈ classes →
           cls_VERSION c ≠ objver ∧
           is_compatible objver (cls_VERSION c) = false) →
     ∀ latest rest, classes = latest :: rest →
       resolve registry objname objver
       = Raise (IncompatibleObjectVersion objname objver (cls_VERSION latest))
       ∧ Forall (λ c, older c latest = true) rest).
Proof.
  intros Hreg Hsorted resolve. unfold resolve, obj_class_from_name.
  split; [|split; [|split]].
  - intros unknown Hunknown. by rewrite Hunknown.
  - intros c Hin Hexact. rewrite Hreg.
    destruct (class_loop_exact is_compatible objver classes c Hin Hexact None)
      as (c' & -> & Hc' & Hver).
    by exists c'.
  - intros Hno c Hin Hfits. rewrite Hreg.
    rewrite class_loop_first by (by apply Forall_forall).
    destruct (List.find (λ c, is_compatible objver (cls_VERSION c)) classes)
      as [c'|] eqn:Hfind.
    + exists c'. apply find_some in Hfind as Hc'. destruct Hc' as [Hc' Hok].
      split; [done|]. split; [by apply list_elem_of_In|]. split; [done|].
      by apply (find_newest _ classes).
    + apply list_elem_of_In in Hin.
      pose proof (find_none _ _ Hfind c Hin) as Hc. simpl in Hc. congruence.
  - intros Hnone latest rest ->. rewrite Hreg.
    rewrite class_loop_first
      by (apply Forall_forall; intros c Hc; by apply Hnone).
    destruct (List.find _ (latest :: rest)) as [c'|] eqn:Hfind.
    + apply find_some in Hfind as [Hc' Hok].
      apply list_elem_of_In, Hnone in Hc' as [_ Hc']. congruence.
    + split; [done|]. by apply newest_first_head in Hsorted as [? _].
Qed.

Lemma registry_resolution_witness :
  ∃ c', obj_class_from_name is_compatible RegistryExample.registry "Foo" "1.2"
        = OK c' ∧
        c' ∈ [RegistryExample.Foo_1_3; RegistryExample.Foo_1_0] ∧
        is_compatible "1.2" (cls_VERSION c') = true ∧
        ∀ c'', c'' ∈ [RegistryExample.Foo_1_3; RegistryExample.Foo_1_0] →
               is_compatible "1.2" (cls_VERSION c'') = true →
               c'' = c' ∨ older c'' c' = true.
Proof.
  pose proof (registry_resolution RegistryExample.registry "Foo" "1.2"
                [RegistryExample.Foo_1_3; RegistryExample.Foo_1_0]
                eq_refl eq_refl) as H.
  simpl in H. destruct H as (_ & _ & Hcompatible & _).
  apply (Hcompatible
           ltac:(intros c Hc; repeat (apply elem_of_cons in Hc as [->|Hc]);
                 [done|done|by apply elem_of_nil in Hc])
           RegistryExample.Foo_1_3 ltac:(apply list_elem_of_here) eq_refl).
Defined.

Example resolve_compatible :
  obj_class_from_name is_compatible RegistryExample.registry "Foo" "1.2"
  = OK RegistryExample.Foo_1_3.
Proof. reflexivity. Qed.

Example resolve_incompatible :
  obj_class_from_name is_compatible RegistryExample.registry "Foo" "2.0"
  = Raise (IncompatibleObjectVersion "Foo" "2.0" "1.3").
Proof. reflexivity. Qed.

(** ** C4: the guards of a remotable instance call *)

(** C4.  For every remotable instance method: a call whose leading
    positional argument is a request context is rejected with
    [ObjectActionError], whether or not the instance is bound to a
    context; a call without one on an instance that has no bound context
    fails with [OrphanedObjectError] carrying the method's name and the
    instance's type name. *)
Theorem remotable_guards (compatible : string → string → bool)
    (registry : list (string * list NovaClass))
    (indirection_api : option IndirectionAPI) (fn : Method)
    (self : NovaObject) (args : list pyarg) (kwargs : list (string * pyarg)) :
  (leading_context args = true →
   remotable compatible registry indirection_api fn self args kwargs
   = Raise (ObjectActionError (fn_name fn)
              "Calling remotables with context is deprecated"))
  ∧ (leading_context args = false → _context self = None →
     remotable compatible registry indirection_api fn self args kwargs
     = Raise (OrphanedObjectError (fn_name fn) (obj_name (obj_class self)))).
Proof.
  unfold remotable. split.
  - by intros ->.
  - by intros -> ->.
Qed.

Lemma remotable_guards_witness :
  remotable is_compatible [] None RemotableExample.save
            RemotableExample.a_bound_owner
            [ArgContext RemotableExample.a_context] []
  = Raise (ObjectActionError "save"
             "Calling remotables with context is deprecated")
  ∧ remotable is_compatible [] None RemotableExample.save
              Examples.an_owner [ArgValue (VPy (PInt 1))] []
    = Raise (OrphanedObjectError "save" "Owner").
Proof.
  split.
  - exact (proj1 (remotable_guards is_compatible [] None RemotableExample.save
                    RemotableExample.a_bound_owner
                    [ArgContext RemotableExample.a_context] []) eq_refl).
  - exact (proj2 (remotable_guards is_compatible [] None RemotableExample.save
                    Examples.an_owner [ArgValue (VPy (PInt 1))] [])
                 eq_refl eq_refl).
Defined.

(** The positional context is looked at first: an instance without a
    bound context that is called with one is refused for the deprecated
    usage. *)
Example context_argument_comes_first :
  _context Examples.an_owner = None ∧
  remotable is_compatible [] None RemotableExample.save Examples.an_owner
            [ArgContext RemotableExample.a_context] []
  = Raise (ObjectActionError "save"
             "Calling remotables with context is deprecated").
Proof. by split. Qed.

(** Bound to a context and called without one, the method runs. *)
Example remotable_runs_locally :
  remotable is_compatible [] None RemotableExample.save
            RemotableExample.a_bound_owner [] []
  = OK (RemotableExample.a_bound_owner, VPy PNone).
Proof. reflexivity. Qed.

(** ** C10: the namespace check and the version of a hydrated object *)

Section Hydration.
Variable compatible : string → string → bool.
Variable registry : list (string * list NovaClass).

Lemma hydrate_loop_VERSION from_obj objdata fs :
  ∀ self self',
    hydrate_loop from_obj objdata fs self = OK self' →
    VERSION self' = VERSION self ∧ _context self' = _context self ∧
    obj_class self' = obj_class self.
Proof.
  induction fs as [|[name field] fs IH]; intros self self'; simpl.
  - by intros [= <-].
  - destruct (dict_get_with _ name objdata) as [[v|]|]; [|done|by apply IH].
    intros Hloop. by destruct (IH _ _ Hloop) as (-> & -> & ->).
Qed.

Lemma probe_loop_OK objdata fs self self' :
  probe_loop objdata fs self = OK self' → self' = self.
Proof.
  induction fs as [|[name field] fs IH]; simpl; [by intros [= <-]|].
  destruct (match objdata with
            | PList _ => _ | PStr _ => _ | _ => _ end) as [[|]|];
    [done|exact IH|done].
Qed.

Lemma _obj_from_primitive_VERSION from_obj cls context objver d self :
  _obj_from_primitive from_obj cls context objver d = OK self →
  VERSION self = objver ∧ _context self = context ∧ obj_class self = cls.
Proof.
  unfold _obj_from_primitive. rewrite dict_get_with_get.
  destruct (dict_get "nova_object.data" d) as [objdata|]; [|done]. simpl.
  set (start := set_VERSION _ _).
  assert (∀ self0,
            match objdata with
            | PDict d0 => hydrate_loop from_obj d0 (fields cls) start
            | _ => probe_loop objdata (fields cls) start
            end = OK self0 →
            VERSION self0 = objver ∧ _context self0 = context ∧
            obj_class self0 = cls) as Hstart.
  { intros self0. destruct objdata;
      try (intros Hloop; by apply probe_loop_OK in Hloop as ->).
    intros Hloop. by destruct (hydrate_loop_VERSION _ _ _ _ _ Hloop)
      as (-> & -> & ->). }
  destruct (match objdata with PDict _ => _ | _ => _ end) as [self0|];
    [|done].
  destruct (Hstart self0 eq_refl) as (<- & <- & <-).
  destruct (match dict_get "nova_object.changes" d with
            | Some c => _ | None => _ end) as [changes|]; [|done].
  destruct (known_changes _ changes) as [names|]; [|done].
  by intros [= <-].
Qed.
End Hydration.

(** C10.  A primitive whose namespace is not ["nova"] is refused with
    [UnsupportedObjectError] naming the namespace and the type, whatever
    the registry holds; and an object that hydration returns carries the
    version string of the primitive, not the [VERSION] of the class the
    registry resolved. *)
Theorem hydration_namespace_and_version
    (compatible : string → string → bool)
    (registry : list (string * list NovaClass))
    (d : list (string * prim)) (context : option RequestContext) :
  (∀ namespace name,
     dict_get "nova_object.namespace" d = Some namespace →
     is_nova namespace = false →
     dict_get "nova_object.name" d = Some name →
     obj_from_primitive compatible registry (PDict d) context
     = Raise (UnsupportedObjectError (Dotted namespace name)))
  ∧ (∀ self,
       obj_from_primitive compatible registry (PDict d) context = OK self →
       ∃ objname,
         dict_get "nova_object.name" d = Some (PStr objname) ∧
         dict_get "nova_object.version" d = Some (PStr (VERSION self)) ∧
         obj_class_from_name compatible registry objname (VERSION self)
         = OK (obj_class self)).
Proof.
  split.
  - intros namespace name Hns Hforeign Hname. simpl. unfold dict_item.
    by rewrite Hns, Hforeign, Hname.
  - intros self. simpl. unfold dict_item.
    destruct (dict_get "nova_object.namespace" d) as [namespace|]; [|done].
    destruct (is_nova namespace); simpl;
      [|by destruct (dict_get "nova_object.name" d)].
    destruct (dict_get "nova_object.name" d) as [objname|]; [|done].
    destruct (dict_get "nova_object.version" d) as [objver|]; [|done].
    destruct (class_from_prims compatible registry objname objver)
      as [objclass|] eqn:Hclass; [|done].
    destruct objver as [| | |objver| |]; try done.
    intros Hself. apply _obj_from_primitive_VERSION in Hself
      as (-> & _ & ->).
    destruct objname as [| | |name| |]; try done. by exists name.
Qed.

Lemma hydration_namespace_and_version_witness :
  obj_from_primitive is_compatible RegistryExample.registry
    (PDict HydrationExample.foreign_prim) None
  = Raise (UnsupportedObjectError (Dotted (PStr "cinder") (PStr "Foo")))
  ∧ ∃ self,
      obj_from_primitive is_compatible RegistryExample.registry
        (PDict HydrationExample.foo_prim) None = OK self ∧
      dict_get "nova_object.version" HydrationExample.foo_prim
      = Some (PStr (VERSION self)) ∧
      obj_class self = RegistryExample.Foo_1_3.
Proof.
  split.
  - exact (proj1 (hydration_namespace_and_version is_compatible
                    RegistryExample.registry HydrationExample.foreign_prim
                    None)
                 (PStr "cinder") (PStr "Foo") eq_refl eq_refl eq_refl).
  - destruct (obj_from_primitive is_compatible RegistryExample.registry
                (PDict HydrationExample.foo_prim) None) as [self|e] eqn:Hself;
      [|by vm_compute in Hself].
    exists self. split; [done|].
    destruct (proj2 (hydration_namespace_and_version is_compatible
                       RegistryExample.registry HydrationExample.foo_prim
                       None) self Hself)
      as (objname & Hname & Hver & Hclass).
    split; [done|].
    injection Hname as <-.
    assert (Hv : VERSION self = "1.1") by (by injection Hver).
    rewrite Hv in Hclass. vm_compute in Hclass. by injection Hclass.
Defined.

Example hydration_keeps_wire_version :
  VERSION <$> (match obj_from_primitive is_compatible RegistryExample.registry
                       (PDict HydrationExample.foo_prim) None with
               | OK self => Some self
               | Raise _ => None
               end) = Some "1.1".
Proof. reflexivity. Qed.

(** ** C5: what [obj_what_changed] reports *)

Lemma obj_what_changed_unfold self :
  obj_what_changed self
  = foldl (λ changes field,
             if holds_changed (_attrs self) field
             then {[field]} ∪ changes else changes)
          (_changed_fields self) (dict_keys (fields (obj_class self))).
Proof.
  destruct self as [cls ver ctx attrs changed]. simpl.
  generalize (dict_keys (fields cls)) changed.
  intros keys. induction keys as [|k keys IH]; intros acc; simpl; [done|].
  rewrite IH. f_equal. unfold holds_changed. rewrite dict_get_with_get.
  by destruct (dict_get k attrs) as [[p|o|l]|].
Qed.

Lemma elem_of_foldl_marked (marked : string → bool) keys :
  ∀ (acc : gset string) field,
    field ∈ foldl (λ changes k, if marked k then {[k]} ∪ changes else changes)
                  acc keys
    ↔ field ∈ acc ∨ (field ∈ keys ∧ marked field = true).
Proof.
  induction keys as [|k keys IH]; intros acc field; simpl.
  - rewrite elem_of_nil. naive_solver.
  - rewrite IH, elem_of_cons. destruct (marked k) eqn:Hk.
    + rewrite elem_of_union, elem_of_singleton.
      split; [intros [[->|?]|[? ?]]|intros [?|[[->|?] ?]]]; eauto.
    + split; [intros [?|[? ?]]|intros [?|[[->|?] ?]]]; eauto; congruence.
Qed.

Lemma changed_fields_reported self :
  _changed_fields self ⊆ obj_what_changed self.
Proof.
  intros field Hfield. rewrite obj_what_changed_unfold.
  apply elem_of_foldl_marked. by left.
Qed.

(** Membership in what [obj_what_changed] reports. *)
Lemma elem_of_obj_what_changed self field :
  field ∈ obj_what_changed self ↔
    field ∈ _changed_fields self ∨
    (field ∈ dict_keys (fields (obj_class self)) ∧
     ∃ o, dict_get field (_attrs self) = Some (VObj o) ∧
          obj_what_changed o ≠ ∅).
Proof.
  rewrite obj_what_changed_unfold, elem_of_foldl_marked.
  unfold holds_changed. split.
  - intros [?|[Hdecl Hheld]]; [by left|right]. split; [done|].
    destruct (dict_get field (_attrs self)) as [[p|o|l]|]; try done.
    exists o. split; [done|]. by apply bool_decide_eq_true in Hheld.
  - intros [?|(Hdecl & o & -> & Ho)]; [by left|right]. split; [done|].
    by apply bool_decide_eq_true.
Qed.

(** C5, as the code has it.  [obj_what_changed] reports the instance's own
    changed field names together with the name of every declared field
    that currently holds an instance which itself reports a change; in
    particular a change made inside a composed instance shows at its
    owner, under the name of the field that holds it. *)
Theorem what_changed_reports (self : NovaObject) (field : string) :
  (field ∈ obj_what_changed self ↔
     field ∈ _changed_fields self ∨
     (field ∈ dict_keys (fields (obj_class self)) ∧
      ∃ o, dict_get field (_attrs self) = Some (VObj o) ∧
           obj_what_changed o ≠ ∅))
  ∧ (∀ o, field ∈ dict_keys (fields (obj_class self)) →
          dict_get field (_attrs self) = Some (VObj o) →
          _changed_fields o ≠ ∅ →
          field ∈ obj_what_changed self).
Proof.
  split; [apply elem_of_obj_what_changed|].
  intros o Hdecl Hheld Hchanged. apply elem_of_obj_what_changed. right.
  split; [done|]. exists o. split; [done|].
  pose proof (changed_fields_reported o). set_solver.
Qed.

Lemma what_changed_reports_witness :
  "child" ∈ obj_what_changed Examples.an_owner.
Proof.
  apply (proj2 (what_changed_reports Examples.an_owner "child")
               Examples.a_child).
  - vm_compute. set_solver.
  - reflexivity.
  - vm_compute. discriminate.
Defined.

(** C5, the claim refuted: ["x"] is in the change set of the instance held
    by the set entity field [child] of the owner, yet the owner does not
    report ["x"]: what it reports is not the union with the child's change
    set but the one name ["child"]. *)
Lemma what_changed_union_fails :
  (dict_get "child" (_attrs Examples.an_owner)
   = Some (VObj Examples.a_child)) ∧
  ("x" ∈ obj_what_changed Examples.a_child) ∧
  ("x" ∉ obj_what_changed Examples.an_owner) ∧
  (obj_what_changed Examples.an_owner = {["child"]}).
Proof.
  assert (Hchild : obj_what_changed Examples.a_child = {["x"]})
    by (by vm_compute).
  assert (Howner : obj_what_changed Examples.an_owner = {["child"]})
    by (by vm_compute).
  rewrite Hchild, Howner. repeat split; set_solver.
Qed.

(** ** C9: a composed field without a rule *)

Section MakeCompatibleFacts.
Variables (self : NovaObject)
          (backport_field : prim → string → value NovaObject → result prim).

Lemma make_compatible_loop_app before rest primitive :
  make_compatible_loop self backport_field (before ++ rest)%list primitive
  = let* primitive := make_compatible_loop self backport_field
                                           before primitive in
    make_compatible_loop self backport_field rest primitive.
Proof.
  revert primitive. induction before as [|[key field] before IH];
    intros primitive; simpl; [done|].
  destruct (negb (is_composed field)); [apply IH|].
  destruct (dict_get_with _ key (_attrs self)) as [backported|]; [|apply IH].
  destruct (negb (dict_has key _)); [done|].
  destruct backported; [apply IH|done].
Qed.

Lemma make_compatible_loop_unset fs primitive :
  (∀ key field, (key, field) ∈ fs → is_composed field = true →
                dict_get key (_attrs self) = None) →
  make_compatible_loop self backport_field fs primitive = OK primitive.
Proof.
  induction fs as [|[key field] fs IH]; intros Hunset; simpl; [done|].
  assert (Hrest : make_compatible_loop self backport_field fs primitive
                  = OK primitive).
  { apply IH. intros k f Hin. apply Hunset. by apply list_elem_of_further. }
  destruct (is_composed field) eqn:Hfield; simpl; [|done].
  rewrite dict_get_with_get, (Hunset key field); [done| |done].
  apply list_elem_of_here.
Qed.
End MakeCompatibleFacts.

Lemma obj_make_compatible_unfold self primitive target_version :
  obj_make_compatible self primitive target_version
  = make_compatible_loop self
      (λ primitive key obj,
         _obj_make_obj_compatible obj_make_compatible self
                                  primitive target_version key obj)
      (fields (obj_class self)) primitive.
Proof. by destruct self. Qed.

(** C9.  When an entity or entity-list field is set and has no entry in
    [obj_relationships], [obj_make_compatible] does not return: it raises,
    and unless the backport of a field that comes earlier in [fields] has
    raised already, what it raises is [ObjectActionError] for that field.
    Composed fields that are unset are passed over: with none of them set
    the primitive is returned as it is. *)
Theorem make_compatible_needs_rule (self : NovaObject) (primitive : prim)
    (target_version : string) :
  (∀ before key field after,
     fields (obj_class self) = (before ++ (key, field) :: after)%list →
     is_composed field = true →
     is_Some (dict_get key (_attrs self)) →
     dict_get key (obj_relationships (obj_class self)) = None →
     (∀ primitive',
        obj_make_compatible self primitive target_version ≠ OK primitive')
     ∧ (∀ reached,
          make_compatible_loop self
            (λ primitive key obj,
               _obj_make_obj_compatible obj_make_compatible self
                                        primitive target_version key obj)
            before primitive = OK reached →
          obj_make_compatible self primitive target_version
          = Raise (ObjectActionError "obj_make_compatible"
                                     ("No rule for " ++ key))))
  ∧ ((∀ key field, (key, field) ∈ fields (obj_class self) →
                   is_composed field = true →
                   dict_get key (_attrs self) = None) →
     obj_make_compatible self primitive target_version = OK primitive).
Proof.
  split.
  - intros before key field after Hfields Hcomposed [v Hset] Hrule.
    rewrite obj_make_compatible_unfold, Hfields, make_compatible_loop_app.
    set (backport := λ primitive key obj, _).
    assert (Hhere : ∀ reached,
              make_compatible_loop self backport ((key, field) :: after)
                                   reached
              = Raise (ObjectActionError "obj_make_compatible"
                                         ("No rule for " ++ key))).
    { intros reached. simpl. rewrite Hcomposed, dict_get_with_get, Hset.
      simpl. unfold dict_has. rewrite Hrule.
      by rewrite bool_decide_eq_false_2 by (by intros [? ?]). }
    split.
    + intros primitive'.
      destruct (make_compatible_loop self backport before primitive)
        as [reached|]; [by rewrite Hhere|done].
    + intros reached ->. apply Hhere.
  - intros Hunset. rewrite obj_make_compatible_unfold.
    by apply make_compatible_loop_unset.
Qed.

Lemma make_compatible_needs_rule_witness :
  obj_make_compatible NoRuleExample.a_lodger
    (PDict [("n", PInt 3)]) "1.0"
  = Raise (ObjectActionError "obj_make_compatible" "No rule for child")
  ∧ obj_make_compatible NoRuleExample.a_bare_lodger
      (PDict [("n", PInt 3)]) "1.0"
    = OK (PDict [("n", PInt 3)]).
Proof.
  split.
  - apply (proj2 (proj1 (make_compatible_needs_rule NoRuleExample.a_lodger
                           (PDict [("n", PInt 3)]) "1.0")
                        [("n", PlainField id OK)] "child"
                        (ObjectField "Child") []
                        eq_refl eq_refl (mk_is_Some _ _ eq_refl) eq_refl)
                 (PDict [("n", PInt 3)])).
    reflexivity.
  - apply (proj2 (make_compatible_needs_rule NoRuleExample.a_bare_lodger
                    (PDict [("n", PInt 3)]) "1.0")).
    intros key field Hin Hcomposed.
    repeat (apply elem_of_cons in Hin as [[= -> ->]|Hin]); try done.
    by apply elem_of_nil in Hin.
Defined.

(** ** C7: the shape of the wire primitive *)

Lemma dict_keys_del {A} k k' (d : list (string * A)) :
  k' ∈ dict_keys (dict_del k d) → k' ∈ dict_keys d.
Proof.
  unfold dict_keys. induction d as [|[k0 a0] d IH]; simpl; [done|].
  destruct (decide (k = k0)) as [->|Hne]; simpl.
  - apply list_elem_of_further.
  - rewrite !elem_of_cons. intros [->|Hin]; [by left|right; by apply IH].
Qed.

(** Backporting one field leaves a dict a dict and adds no key to it. *)
Lemma _obj_make_obj_compatible_keys mc self d target_version key obj data :
  _obj_make_obj_compatible mc self (PDict d) target_version key obj = OK data →
  ∃ d', data = PDict d' ∧ ∀ k, k ∈ dict_keys d' → k ∈ dict_keys d.
Proof.
  unfold _obj_make_obj_compatible.
  destruct (obj_calculate_child_version self target_version key)
    as [[to_version|]|]; [| |done].
  - assert (Hslot : ∀ slot,
              _do_backport mc to_version obj (prim_item key (PDict d))
              = OK (Some slot) → key ∈ dict_keys d).
    { intros slot. simpl. unfold dict_item.
      destruct (dict_get key d) as [pfield|] eqn:Hkey.
      - intros _. apply dict_get_is_Some. by eexists.
      - destruct obj as [[| | | |[]|]|o|[]]; simpl; done. }
    destruct (_do_backport mc to_version obj (prim_item key (PDict d)))
      as [[slot|]|]; [| |done].
    + specialize (Hslot slot eq_refl). simpl. intros [= <-].
      eexists. split; [done|]. intros k Hk.
      apply dict_keys_set in Hk as [->|Hk]; done.
    + intros [= <-]. by eexists.
  - simpl. destruct (dict_has key d); [|done]. intros [= <-].
    eexists. split; [done|]. intros k. apply dict_keys_del.
Qed.

Lemma make_compatible_loop_keys self mc target_version fs :
  ∀ d data,
    make_compatible_loop self
      (λ primitive key obj,
         _obj_make_obj_compatible mc self primitive target_version key obj)
      fs (PDict d) = OK data →
    ∃ d', data = PDict d' ∧ ∀ k, k ∈ dict_keys d' → k ∈ dict_keys d.
Proof.
  induction fs as [|[key field] fs IH]; intros d data; simpl.
  - intros [= <-]. by eexists.
  - destruct (negb (is_composed field)); [apply IH|].
    rewrite dict_get_with_get.
    destruct (dict_get key (_attrs self)) as [obj|]; simpl; [|apply IH].
    destruct (negb (dict_has key _)); [done|].
    destruct (_obj_make_obj_compatible mc self (PDict d) target_version
                                       key obj) as [data1|] eqn:Hstep; [|done].
    apply _obj_make_obj_compatible_keys in Hstep as (d1 & -> & Hd1).
    intros Hrest. apply IH in Hrest as (d' & -> & Hd').
    exists d'. split; [done|]. intros k Hk. by apply Hd1, Hd'.
Qed.

Lemma obj_make_compatible_keys self d target_version data :
  obj_make_compatible self (PDict d) target_version = OK data →
  ∃ d', data = PDict d' ∧ ∀ k, k ∈ dict_keys d' → k ∈ dict_keys d.
Proof.
  rewrite obj_make_compatible_unfold. apply make_compatible_loop_keys.
Qed.

Lemma wire_envelope_items self version data :
  let p := wire_envelope self version data in
  prim_item "nova_object.namespace" p = OK (PStr "nova") ∧
  prim_item "nova_object.name" p = OK (PStr (obj_name (obj_class self))) ∧
  prim_item "nova_object.version" p = OK (PStr version) ∧
  prim_item "nova_object.data" p = OK data ∧
  (obj_what_changed self ≠ ∅ →
   prim_item "nova_object.changes" p
   = OK (changes_prim (obj_what_changed self))) ∧
  (obj_what_changed self = ∅ →
   prim_item "nova_object.changes" p
   = Raise (KeyError (PStr "nova_object.changes"))).
Proof.
  unfold wire_envelope.
  destruct (bool_decide (obj_what_changed self ≠ ∅)) eqn:Hchanged.
  - apply bool_decide_eq_true in Hchanged. by repeat split.
  - apply bool_decide_eq_false in Hchanged. by repeat split.
Qed.

(** C7, as the code has it.  Serializing a well-formed instance without a
    target version returns a dict with namespace ["nova"], the type name,
    the instance's own version and a data map whose keys are exactly the
    fields that are set; ["nova_object.changes"] is present exactly when
    [obj_what_changed] is not empty, and then lists it.  With a target
    version the version entry is the target, and the data map is what
    [obj_make_compatible] leaves of the serialized fields: its keys are
    among the set fields, and an error of the backport is passed on. *)
Theorem wire_primitive_shape (self : NovaObject) :
  well_formed self = true →
  ∃ d,
    (∀ k, k ∈ dict_keys d ↔
          k ∈ dict_keys (fields (obj_class self)) ∧
          is_Some (dict_get k (_attrs self)))
    ∧ (∀ target_version,
         truthy_str target_version = false →
         obj_to_primitive self target_version
         = OK (wire_envelope self (VERSION self) (PDict d)))
    ∧ (∀ target_version,
         truthy_str (Some target_version) = true →
         match obj_make_compatible self (PDict d) target_version with
         | OK data =>
             obj_to_primitive self (Some target_version)
             = OK (wire_envelope self target_version data) ∧
             ∃ d', data = PDict d' ∧
                   ∀ k, k ∈ dict_keys d' → k ∈ dict_keys d
         | Raise e => obj_to_primitive self (Some target_version) = Raise e
         end)
    ∧ (∀ version data,
         let p := wire_envelope self version data in
         prim_item "nova_object.namespace" p = OK (PStr "nova") ∧
         prim_item "nova_object.name" p
         = OK (PStr (obj_name (obj_class self))) ∧
         prim_item "nova_object.version" p = OK (PStr version) ∧
         prim_item "nova_object.data" p = OK data ∧
         (obj_what_changed self ≠ ∅ →
          prim_item "nova_object.changes" p
          = OK (changes_prim (obj_what_changed self))) ∧
         (obj_what_changed self = ∅ →
          prim_item "nova_object.changes" p
          = Raise (KeyError (PStr "nova_object.changes")))).
Proof.
  intros Hwf.
  destruct self as [cls ver ctx attrs changed].
  pose proof Hwf as Hwf'.
  apply well_formed_unfold in Hwf' as (Hfields & _ & _ & _).
  pose proof (well_formed_children _ _ _ _ _ Hwf) as Hchildren.
  destruct (to_primitive_loop_get attrs
              (field_to_primitive (λ o, obj_to_primitive o None))
              (fields cls) Hfields) with (acc := @nil (string * prim))
    as (d & Hloop & Hd).
  { apply Forall_forall. intros [name field] Hin v Hv. simpl in Hv |- *.
    apply field_to_primitive_total.
    - by apply (well_formed_typed (mkNovaObject cls ver ctx attrs changed)
                                  name field v Hwf).
    - pose proof (value_Forall_get _ _ _ _ Hchildren Hv) as Hwfv.
      destruct v as [p|o|l]; simpl in Hwfv |- *;
        [done|by apply obj_to_primitive_total|].
      eapply Forall_impl; [exact Hwfv|]. apply obj_to_primitive_total. }
  exists d. split; [|split; [|split]].
  - intros k. simpl. rewrite <-!dict_get_is_Some, Hd. unfold serialized.
    destruct (dict_get k (fields cls)) as [field|] eqn:Hfield;
      [|split; [by intros [? ?]|by intros [[? ?] _]]].
    destruct (dict_get k attrs) as [v|] eqn:Hv;
      [|split; [by intros [? ?]|by intros [_ [? ?]]]].
    assert (∃ p, field_to_primitive (λ o, obj_to_primitive o None) field v
                 = OK p) as [p ->]; [|by split; eauto].
    apply field_to_primitive_total.
    + apply (well_formed_typed (mkNovaObject cls ver ctx attrs changed)
                               k field v Hwf); [|done].
      by apply dict_get_elem_of.
    + pose proof (value_Forall_get _ _ _ _ Hchildren Hv) as Hwfv.
      destruct v as [p|o|l]; simpl in Hwfv |- *;
        [done|by apply obj_to_primitive_total|].
      eapply Forall_impl; [exact Hwfv|]. apply obj_to_primitive_total.
  - intros target_version Hfalsy. rewrite obj_to_primitive_unfold.
    simpl _attrs. simpl obj_class. rewrite Hloop, Hfalsy. simpl.
    by destruct target_version as [[|]|].
  - intros target_version Htruthy.
    rewrite obj_to_primitive_unfold.
    simpl _attrs. simpl obj_class. rewrite Hloop, Htruthy.
    assert (Hor : str_or (Some target_version)
                         (VERSION (mkNovaObject cls ver ctx attrs changed))
                  = target_version) by (by destruct target_version).
    rewrite Hor.
    destruct (obj_make_compatible _ (PDict d) target_version)
      as [data|e] eqn:Hdata; [|done].
    split; [done|]. by apply obj_make_compatible_keys in Hdata.
  - intros version data. apply wire_envelope_items.
Qed.

Lemma wire_primitive_shape_witness :
  ∃ d, obj_to_primitive Examples.an_owner None
       = OK (wire_envelope Examples.an_owner "1.5" (PDict d)) ∧
       ∀ k, k ∈ dict_keys d ↔
            k ∈ ["child"; "n"; "kids"] ∧
            is_Some (dict_get k (_attrs Examples.an_owner)).
Proof.
  destruct (wire_primitive_shape Examples.an_owner eq_refl)
    as (d & Hkeys & Hplain & _).
  exists d. split; [|exact Hkeys]. exact (Hplain None eq_refl).
Defined.

(** C7, the claim refuted: serialized for the target version "1.0", the
    owner's data map has no entry for [child] although the field is set;
    the backport has removed it. *)
Lemma data_map_claim_fails :
  well_formed Examples.an_owner = true ∧
  is_Some (dict_get "child" (_attrs Examples.an_owner)) ∧
  obj_to_primitive Examples.an_owner (Some "1.0")
  = OK (PDict [("nova_object.name", PStr "Owner");
               ("nova_object.namespace", PStr "nova");
               ("nova_object.version", PStr "1.0");
               ("nova_object.data", PDict [("n", PInt 1)]);
               ("nova_object.changes", PList [PStr "child"])]).
Proof. split; [done|]. split; [by eexists|done]. Qed.

(** ** C8: the one retry of the serializer *)

Lemma str_count_app c s1 s2 :
  str_count c (s1 ++ s2) = (str_count c s1 + str_count c s2)%nat.
Proof. induction s1 as [|a s1 IH]; simpl; [done|]. rewrite IH. lia. Qed.

Lemma str_split_length c s : length (str_split c s) = S (str_count c s).
Proof.
  induction s as [|a s IH]; simpl; [done|].
  destruct (decide (a = c)); simpl; [by rewrite IH|].
  destruct (str_split c s); simpl in *; [done|lia].
Qed.

Lemma str_split_pieces c s : Forall (λ p, str_count c p = 0%nat) (str_split c s).
Proof.
  induction s as [|a s IH]; simpl; [by repeat constructor|].
  destruct (decide (a = c)) as [->|Hne]; [by constructor|].
  destruct (str_split c s) as [|p ps].
  - repeat constructor. cbn [str_count]. by rewrite decide_False.
  - apply Forall_cons_1 in IH as [Hp Hps]. constructor; [|done].
    cbn [str_count]. by rewrite decide_False, Hp.
Qed.

(** A version with a PATCH component is cut to one with a single dot. *)
Lemma major_minor_dots objver :
  (1 ≤ str_count dot objver)%nat → str_count dot (major_minor objver) = 1%nat.
Proof.
  intros Hdots. unfold major_minor.
  pose proof (str_split_length dot objver) as Hlen.
  pose proof (str_split_pieces dot objver) as Hpieces.
  destruct (str_split dot objver) as [|p1 [|p2 ps]]; simpl in Hlen; try lia.
  apply Forall_cons_1 in Hpieces as [Hp1 Hpieces].
  apply Forall_cons_1 in Hpieces as [Hp2 _].
  cbn [take str_join]. rewrite take_0, !str_count_app, Hp1, Hp2. done.
Qed.

Lemma str_split_whole c p : str_count c p = 0%nat → str_split c p = [p].
Proof.
  induction p as [|a p IH]; cbn [str_count str_split]; [done|].
  destruct (decide (a = c)); [done|]. intros Hp. by rewrite IH.
Qed.

Lemma str_split_app c p s :
  str_count c p = 0%nat →
  str_split c (p ++ String c s) = p :: str_split c s.
Proof.
  induction p as [|a p IH]; cbn [str_count]; intros Hp.
  - change (str_split c (String c s) = EmptyString :: str_split c s).
    cbn [str_split]. by rewrite decide_True.
  - change (str_split c (String a (p ++ String c s))
            = String a p :: str_split c s).
    cbn [str_split]. destruct (decide (a = c)); [done|]. by rewrite IH.
Qed.

Lemma str_split_join pieces :
  Forall (λ p, str_count dot p = 0%nat) pieces → pieces ≠ [] →
  str_split dot (str_join "." pieces) = pieces.
Proof.
  induction 1 as [|p pieces Hp Hpieces IH]; [done|]. intros _.
  destruct pieces as [|q pieces].
  - by apply str_split_whole.
  - assert (Hjoin : str_join "." (p :: q :: pieces)
                    = p ++ String dot (str_join "." (q :: pieces)))
      by reflexivity.
    rewrite Hjoin, str_split_app by done. by rewrite IH.
Qed.

Lemma str_join_split s : str_join "." (str_split dot s) = s.
Proof.
  induction s as [|a s IH]; cbn [str_split]; [done|].
  destruct (decide (a = dot)) as [->|Hne].
  - destruct (str_split dot s) as [|p ps] eqn:Hs.
    + by pose proof (str_split_length dot s) as Hlen; rewrite Hs in Hlen.
    + cbn [str_join]. by rewrite <-IH.
  - destruct (str_split dot s) as [|p ps] eqn:Hs.
    + by pose proof (str_split_length dot s) as Hlen; rewrite Hs in Hlen.
    + rewrite <-IH. by destruct ps.
Qed.

Lemma mapM_take {A B} (f : A → result B) n l t :
  mapM f l = OK t → mapM f (take n l) = OK (take n t).
Proof.
  revert l t. induction n as [|n IH]; intros [|a l] t; simpl;
    try (by intros [= <-]).
  - by destruct (f a), (mapM f l).
  - destruct (f a) as [b|]; [|done].
    destruct (mapM f l) as [bs|] eqn:Hbs; [|done]. intros [= <-].
    by rewrite (IH l bs Hbs).
Qed.

Lemma major_minor_split objver :
  str_split dot (major_minor objver) = take 2 (str_split dot objver).
Proof.
  unfold major_minor. apply str_split_join.
  - apply Forall_take, str_split_pieces.
  - pose proof (str_split_length dot objver).
    by destruct (str_split dot objver).
Qed.

(** A version of two dots is MAJOR.MINOR.PATCH, and its cut is
    MAJOR.MINOR. *)
Lemma major_minor_cut objver :
  str_count dot objver = 2%nat →
  ∃ major minor patch,
    objver = major ++ "." ++ minor ++ "." ++ patch ∧
    str_count dot major = 0%nat ∧ str_count dot minor = 0%nat ∧
    str_count dot patch = 0%nat ∧
    major_minor objver = major ++ "." ++ minor.
Proof.
  intros Hdots. unfold major_minor.
  pose proof (str_split_length dot objver) as Hlen.
  pose proof (str_split_pieces dot objver) as Hpieces.
  pose proof (str_join_split objver) as Hjoin.
  destruct (str_split dot objver) as [|major [|minor [|patch [|? ?]]]];
    simpl in Hlen; try lia.
  apply Forall_cons_1 in Hpieces as [Hmajor Hpieces].
  apply Forall_cons_1 in Hpieces as [Hminor Hpieces].
  apply Forall_cons_1 in Hpieces as [Hpatch _].
  exists major, minor, patch. by rewrite <- Hjoin.
Qed.

Section ProcessObject.
Variable compatible : string → string → bool.
Variable registry : list (string * list NovaClass).
Variable object_backport :
  option RequestContext → prim → string → result NovaObject.

Lemma class_loop_nonempty objver classes c :
  class_loop compatible objver None classes = Some c → classes ≠ [].
Proof. by destruct classes. Qed.

(** Where [IncompatibleObjectVersion] comes out of hydration, the primitive
    is a dict that names a registered type and carries a version string. *)
Lemma incompatible_origin objprim context n v s :
  obj_from_primitive compatible registry objprim context
  = Raise (IncompatibleObjectVersion n v s) →
  ∃ d name objver latest rest,
    objprim = PDict d ∧
    dict_get "nova_object.name" d = Some (PStr name) ∧
    dict_get "nova_object.version" d = Some (PStr objver) ∧
    dict_get name registry = Some (latest :: rest).
Proof.
  destruct objprim as [| | | | |d]; try done. simpl. unfold dict_item.
  destruct (dict_get "nova_object.namespace" d) as [namespace|]; [|done].
  destruct (is_nova namespace); simpl;
    [|by destruct (dict_get "nova_object.name" d)].
  destruct (dict_get "nova_object.name" d) as [objname|] eqn:Hname; [|done].
  destruct (dict_get "nova_object.version" d) as [objver|] eqn:Hver; [|done].
  intros Hraise.
  assert (∃ name ver latest rest,
            objname = PStr name ∧ objver = PStr ver ∧
            dict_get name registry = Some (latest :: rest))
    as (name & ver & latest & rest & -> & -> & Hreg).
  { destruct objname as [| | |name| |]; simpl in Hraise; try done.
    destruct objver as [| | |ver| |]; simpl in Hraise;
      try (by destruct (dict_get name registry) as [[|]|]).
    unfold obj_class_from_name in Hraise.
    destruct (dict_get name registry) as [classes|] eqn:Hreg; [|done].
    destruct classes as [|latest rest]; [by simpl in Hraise|].
    by exists name, ver, latest, rest. }
  by exists d, name, ver, latest, rest.
Qed.

Lemma ask_backport_asks context d name latest rest e :
  dict_get "nova_object.name" d = Some (PStr name) →
  dict_get name registry = Some (latest :: rest) →
  ask_backport registry object_backport context (PDict d) e
  = object_backport context (PDict d) (cls_VERSION latest).
Proof.
  intros Hname Hreg. unfold ask_backport. simpl. unfold dict_item.
  by rewrite Hname, Hreg.
Qed.

(** One step of [_process_object] when the version is not one with two
    dots: no further call is made. *)
Lemma _process_object_final fuel context d objver :
  dict_get "nova_object.version" d = Some (PStr objver) →
  str_count dot objver ≠ 2%nat →
  _process_object compatible registry object_backport (S fuel) context
                  (PDict d)
  = Some match obj_from_primitive compatible registry (PDict d) context with
         | OK objinst => OK objinst
         | Raise (IncompatibleObjectVersion n v s) =>
             ask_backport registry object_backport context (PDict d)
                          (IncompatibleObjectVersion n v s)
         | Raise e => Raise e
         end.
Proof.
  intros Hver Hdots. cbn [_process_object].
  destruct (obj_from_primitive compatible registry (PDict d) context)
    as [objinst|[]]; try done.
  simpl. unfold dict_item. rewrite Hver. by rewrite decide_False.
Qed.
End ProcessObject.

(** The calls of [_process_object], case by case. *)
Lemma process_object_cases (compatible : string → string → bool)
    (registry : list (string * list NovaClass))
    (object_backport :
       option RequestContext → prim → string → result NovaObject)
    (fuel : nat) (context : option RequestContext) (objprim : prim) :
  (2 ≤ fuel)%nat →
  let hydrate := obj_from_primitive compatible registry in
  let process := _process_object compatible registry object_backport in
  match hydrate objprim context with
  | OK objinst =>
      process 1%nat context objprim = Some (OK objinst) ∧
      process fuel context objprim = Some (OK objinst)
  | Raise (IncompatibleObjectVersion n v s) =>
      ∃ d name objver latest rest,
        objprim = PDict d ∧
        dict_get "nova_object.name" d = Some (PStr name) ∧
        dict_get "nova_object.version" d = Some (PStr objver) ∧
        dict_get name registry = Some (latest :: rest) ∧
        if decide (str_count dot objver = 2%nat) then
          let objprim' :=
            PDict (dict_set "nova_object.version"
                            (PStr (major_minor objver)) d) in
          (∃ major minor patch,
             objver = major ++ "." ++ minor ++ "." ++ patch ∧
             str_count dot major = 0%nat ∧ str_count dot minor = 0%nat ∧
             str_count dot patch = 0%nat ∧
             major_minor objver = major ++ "." ++ minor) ∧
          str_count dot (major_minor objver) = 1%nat ∧
          process 1%nat context objprim = None ∧
          match hydrate objprim' context with
          | OK objinst => process fuel context objprim = Some (OK objinst)
          | Raise (IncompatibleObjectVersion _ _ _) =>
              process fuel context objprim
              = Some (object_backport context objprim' (cls_VERSION latest))
          | Raise e => process fuel context objprim = Some (Raise e)
          end
        else
          process 1%nat context objprim
          = Some (object_backport context objprim (cls_VERSION latest)) ∧
          process fuel context objprim
          = Some (object_backport context objprim (cls_VERSION latest))
  | Raise e =>
      process 1%nat context objprim = Some (Raise e) ∧
      process fuel context objprim = Some (Raise e)
  end.
Proof.
  intros Hfuel hydrate process.
  destruct fuel as [|[|fuel]]; try lia.
  destruct (hydrate objprim context) as [objinst|e] eqn:Hfirst.
  { split; unfold process; cbn [_process_object]; fold hydrate;
      by rewrite Hfirst. }
  assert (Hother : (∀ n v s, e ≠ IncompatibleObjectVersion n v s) →
                   process 1%nat context objprim = Some (Raise e) ∧
                   process (S (S fuel)) context objprim = Some (Raise e)).
  { intros Hne.
    split; unfold process; cbn [_process_object]; fold hydrate;
      rewrite Hfirst; destruct e; try done;
      by destruct (Hne objname objver supported). }
  destruct e as [|n v s| | | | | | | |]; try (by apply Hother).
  clear Hother.
  destruct (incompatible_origin _ _ _ _ _ _ _ Hfirst)
    as (d & name & objver & latest & rest & -> & Hname & Hver & Hreg).
  exists d, name, objver, latest, rest.
  split; [done|]. split; [done|]. split; [done|]. split; [done|].
  destruct (decide (str_count dot objver = 2%nat)) as [Hdots|Hdots].
  - assert (Hcut : str_count dot (major_minor objver) = 1%nat)
      by (apply major_minor_dots; lia).
    split; [by apply major_minor_cut|]. split; [done|].
    assert (Hstep : ∀ fuel',
              process (S fuel') context (PDict d)
              = process fuel' context
                  (PDict (dict_set "nova_object.version"
                            (PStr (major_minor objver)) d))).
    { intros fuel'. unfold process. cbn [_process_object]. fold hydrate.
      rewrite Hfirst. simpl. unfold dict_item. rewrite Hver.
      by rewrite decide_True. }
    split; [by rewrite Hstep|].
    rewrite Hstep. unfold process.
    rewrite (_process_object_final _ _ _ _ _ _ (major_minor objver));
      [|by rewrite dict_get_set_eq|lia].
    fold hydrate.
    destruct (hydrate (PDict (dict_set "nova_object.version"
                                (PStr (major_minor objver)) d)) context)
      as [objinst|[]]; try done.
    f_equal. apply (ask_backport_asks _ _ _ _ name latest rest); [|done].
    by rewrite dict_get_set_ne.
  - split; unfold process;
      rewrite (_process_object_final _ _ _ _ _ _ objver) by done;
      fold hydrate; rewrite Hfirst; f_equal;
      by apply (ask_backport_asks _ _ _ _ name latest rest).
Qed.

(** C8.  [_process_object] returns what hydration returns, in one call,
    and every error of hydration other than [IncompatibleObjectVersion]
    is passed on, in one call.  On [IncompatibleObjectVersion] with a
    version of two dots, MAJOR.MINOR.PATCH, one call is not enough: the
    version in the primitive is cut to MAJOR.MINOR and hydration is tried
    once more, and that second call is the last, whatever the bound on
    the calls.  The result or error of the second hydration is the
    answer, except that on [IncompatibleObjectVersion] again, as on a
    first failure with a version that has no PATCH part, the backport
    authority is asked for the version of the newest registered class and
    its answer is returned.  There is no other way from a failed
    hydration to a result: when hydration raises and [_process_object]
    returns an instance, the error was [IncompatibleObjectVersion] and
    the instance is the one hydrated from the primitive with the cut
    version, or the answer of the backport authority. *)
Theorem process_object_retry (compatible : string → string → bool)
    (registry : list (string * list NovaClass))
    (object_backport :
       option RequestContext → prim → string → result NovaObject)
    (fuel : nat) (context : option RequestContext) (objprim : prim) :
  (2 ≤ fuel)%nat →
  let hydrate := obj_from_primitive compatible registry in
  let process := _process_object compatible registry object_backport in
  match hydrate objprim context with
  | OK objinst =>
      process 1%nat context objprim = Some (OK objinst) ∧
      process fuel context objprim = Some (OK objinst)
  | Raise (IncompatibleObjectVersion n v s) =>
      ∃ d name objver latest rest,
        objprim = PDict d ∧
        dict_get "nova_object.name" d = Some (PStr name) ∧
        dict_get "nova_object.version" d = Some (PStr objver) ∧
        dict_get name registry = Some (latest :: rest) ∧
        if decide (str_count dot objver = 2%nat) then
          let objprim' :=
            PDict (dict_set "nova_object.version"
                            (PStr (major_minor objver)) d) in
          (∃ major minor patch,
             objver = major ++ "." ++ minor ++ "." ++ patch ∧
             str_count dot major = 0%nat ∧ str_count dot minor = 0%nat ∧
             str_count dot patch = 0%nat ∧
             major_minor objver = major ++ "." ++ minor) ∧
          str_count dot (major_minor objver) = 1%nat ∧
          process 1%nat context objprim = None ∧
          match hydrate objprim' context with
          | OK objinst => process fuel context objprim = Some (OK objinst)
          | Raise (IncompatibleObjectVersion _ _ _) =>
              process fuel context objprim
              = Some (object_backport context objprim' (cls_VERSION latest))
          | Raise e => process fuel context objprim = Some (Raise e)
          end
        else
          process 1%nat context objprim
          = Some (object_backport context objprim (cls_VERSION latest)) ∧
          process fuel context objprim
          = Some (object_backport context objprim (cls_VERSION latest))
  | Raise e =>
      process 1%nat context objprim = Some (Raise e) ∧
      process fuel context objprim = Some (Raise e)
  end
  ∧ (∀ e objinst,
       hydrate objprim context = Raise e →
       process fuel context objprim = Some (OK objinst) →
       ∃ n v s d name objver latest rest,
         e = IncompatibleObjectVersion n v s ∧
         objprim = PDict d ∧
         dict_get "nova_object.name" d = Some (PStr name) ∧
         dict_get "nova_object.version" d = Some (PStr objver) ∧
         dict_get name registry = Some (latest :: rest) ∧
         let objprim' :=
           PDict (dict_set "nova_object.version"
                           (PStr (major_minor objver)) d) in
         ((str_count dot objver = 2%nat ∧
           hydrate objprim' context = OK objinst)
          ∨ (str_count dot objver = 2%nat ∧
             object_backport context objprim' (cls_VERSION latest)
             = OK objinst)
          ∨ (str_count dot objver ≠ 2%nat ∧
             object_backport context objprim (cls_VERSION latest)
             = OK objinst))).
Proof.
  intros Hfuel hydrate process.
  pose proof (process_object_cases compatible registry object_backport
                fuel context objprim Hfuel) as Hcases.
  cbv zeta in Hcases. fold hydrate process in Hcases.
  split; [exact Hcases|].
  intros e objinst Hfirst Hdone. rewrite Hfirst in Hcases.
  destruct e as [|n v s| | | | | | | |];
    try (destruct Hcases as [_ Hcases]; rewrite Hcases in Hdone; done).
  destruct Hcases as (d & name & objver & latest & rest
                      & Hd & Hname & Hver & Hreg & Hcases).
  exists n, v, s, d, name, objver, latest, rest.
  split; [done|]. split; [done|]. split; [done|]. split; [done|].
  split; [done|]. cbv zeta.
  destruct (decide (str_count dot objver = 2%nat)) as [Hdots|Hdots].
  - destruct Hcases as (_ & _ & _ & Hcases).
    destruct (hydrate (PDict (dict_set "nova_object.version"
                                (PStr (major_minor objver)) d)) context)
      as [objinst'|[]]; rewrite Hcases in Hdone; try done.
    + left. split; [done|]. by injection Hdone as ->.
    + right. left. split; [done|]. by injection Hdone.
  - destruct Hcases as [_ Hcases]. rewrite Hcases in Hdone.
    right. right. split; [done|]. by injection Hdone.
Qed.

Lemma process_object_retry_witness :
  _process_object is_compatible RegistryExample.registry
    SerializerExample.a_backport 1 None (PDict SerializerExample.newer_prim)
  = None
  ∧ major_minor "1.5.1" = "1.5"
  ∧ _process_object is_compatible RegistryExample.registry
      SerializerExample.a_backport 2 None (PDict SerializerExample.newer_prim)
    = Some (SerializerExample.a_backport None
              (PDict (dict_set "nova_object.version" (PStr "1.5")
                               SerializerExample.newer_prim))
              "1.3").
Proof.
  pose proof (proj1 (process_object_retry is_compatible
                       RegistryExample.registry
                       SerializerExample.a_backport 2 None
                       (PDict SerializerExample.newer_prim) (le_n 2))) as H.
  cbv zeta in H.
  change (obj_from_primitive is_compatible RegistryExample.registry
            (PDict SerializerExample.newer_prim) None)
    with (@Raise NovaObject (IncompatibleObjectVersion "Foo" "1.5.1" "1.3"))
    in H.
  cbv beta iota in H.
  destruct H as (d & name & objver & latest & rest
                 & Hd & Hname & Hver & Hreg & H).
  injection Hd as <-. injection Hname as <-. injection Hver as <-.
  injection Hreg as <- <-.
  destruct H as ((major & minor & patch & Hparts & Hmajor & Hminor & _
                  & Hcut) & _ & Hone & Htwo).
  split; [exact Hone|]. split; [|exact Htwo].
  rewrite Hcut. clear Hcut Hone Htwo.
  destruct major as [|a [|b major]]; try discriminate Hparts.
  - injection Hparts as <- Hparts.
    destruct minor as [|c [|e minor]]; try discriminate Hparts.
    + by injection Hparts as <- _.
    + injection Hparts as <- <- _. discriminate Hminor.
  - injection Hparts as <- <- _. discriminate Hmajor.
Defined.

(** With a registry that holds only 1.3 and a compatibility test that
    refuses 1.3.1, the cut version matches exactly and no backport is
    asked for. *)
Example patch_is_cut :
  _process_object (λ _ _, false) RegistryExample.registry
    SerializerExample.a_backport 2 None
    (PDict [("nova_object.name", PStr "Foo");
            ("nova_object.namespace", PStr "nova");
            ("nova_object.version", PStr "1.3.1");
            ("nova_object.data", PDict [("a", PInt 5)])])
  = Some (OK (mkNovaObject RegistryExample.Foo_1_3 "1.3" None
                           [("a", VPy (PInt 5))] ∅)).
Proof. by vm_compute. Qed.

(** ** C6: resetting the changes *)

Lemma obj_reset_changes_unfold self fields recursive :
  obj_reset_changes self fields recursive
  = let* attrs' :=
      if recursive then
        let* _ := obj_get_changes self in
        mapM (λ kv : string * value NovaObject,
                let* v' := reset_visit (λ o, obj_reset_changes o None true)
                             (obj_class self) fields (obj_what_changed self)
                             kv.1 kv.2 in
                OK (kv.1, v'))
             (_attrs self)
      else OK (_attrs self) in
    OK (mkNovaObject (obj_class self) (VERSION self) (_context self) attrs'
          (if truthy_list fields
           then _changed_fields self ∖ list_to_set (default [] fields)
           else ∅)).
Proof. by destruct self. Qed.

(** In a well-formed instance every field reported as changed is set. *)
Lemma what_changed_set self field :
  well_formed self = true → field ∈ obj_what_changed self →
  is_Some (dict_get field (_attrs self)).
Proof.
  intros Hwf Hfield.
  apply (proj1 (elem_of_obj_what_changed self field)) in Hfield
    as [Hown|(_ & o & -> & _)]; [|by eexists].
  destruct self as [cls ver ctx attrs changed].
  apply well_formed_unfold in Hwf as (_ & _ & Hsub & _).
  apply dict_get_is_Some. simpl in *. set_solver.
Qed.

Lemma obj_get_changes_total self :
  well_formed self = true → ∃ changes, obj_get_changes self = OK changes.
Proof.
  intros Hwf. unfold obj_get_changes. apply mapM_total, Forall_forall.
  intros key Hkey. apply elem_of_elements in Hkey.
  destruct (what_changed_set self key Hwf Hkey) as [v Hv].
  unfold obj_getattr. rewrite Hv. by eexists.
Qed.

Lemma mapM_Forall2_total {A B} (f : A → result B) (R : A → B → Prop) l :
  Forall (λ a, ∃ b, f a = OK b ∧ R a b) l →
  ∃ l', mapM f l = OK l' ∧ Forall2 R l l'.
Proof.
  induction 1 as [|a l (b & Hb & HR) _ (l' & Hl' & HRl)]; simpl.
  - exists []. by split.
  - rewrite Hb, Hl'. exists (b :: l'). split; [done|by constructor].
Qed.

(** Two dicts with the same keys in the same order, related entry by
    entry, are related lookup by lookup. *)
Lemma dict_get_Forall2 {A B} (R : string → A → B → Prop) d d' k :
  Forall2 (λ kv kv', kv'.1 = kv.1 ∧ R kv.1 kv.2 kv'.2) d d' →
  option_Forall2 (R k) (dict_get k d) (dict_get k d').
Proof.
  induction 1 as [|[k1 a] [k2 b] d d' [Hk HR] _ IH]; simpl; [constructor|].
  simpl in Hk, HR. subst k2.
  destruct (decide (k = k1)) as [->|Hne]; [by constructor|done].
Qed.

(** The loop over the attributes, in a well-formed instance whose
    sub-objects can all be reset fully. *)
Lemma reset_attrs self names :
  well_formed self = true →
  Forall (λ kv, value_Forall (λ o, ∃ o', fully_reset o o') kv.2)
         (_attrs self) →
  ∃ attrs',
    mapM (λ kv : string * value NovaObject,
            let* v' := reset_visit (λ o, obj_reset_changes o None true)
                         (obj_class self) names (obj_what_changed self)
                         kv.1 kv.2 in
            OK (kv.1, v'))
         (_attrs self) = OK attrs' ∧
    Forall2 (λ kv kv', kv'.1 = kv.1 ∧
                       reset_outcome (visited self names kv.1) kv.2 kv'.2)
            (_attrs self) attrs'.
Proof.
  intros Hwf Hchildren. apply mapM_Forall2_total, Forall_forall.
  intros [k v] Hkv. simpl.
  pose proof Hchildren as Hv. rewrite Forall_forall in Hv.
  specialize (Hv _ Hkv). simpl in Hv.
  destruct self as [cls ver ctx attrs changed]. simpl _attrs in *.
  simpl obj_class.
  pose proof Hwf as Hwf'.
  apply well_formed_unfold in Hwf' as (_ & _ & _ & Htyped).
  rewrite Forall_forall in Htyped.
  destruct (Htyped _ Hkv) as (field & Hfield & Hty). simpl in Hfield, Hty.
  unfold reset_visit, visited, reset_outcome.
  destruct (bool_decide (k ∈ obj_what_changed _)); simpl;
    [|by eexists].
  destruct (in_filter names k); simpl; [|by eexists].
  assert (Hdecl : k ∈ (dict_keys (fields cls) ++ obj_extra_fields cls)%list).
  { apply elem_of_app. left. apply dict_get_is_Some. by eexists. }
  rewrite (bool_decide_eq_true_2 _ Hdecl). simpl. rewrite Hfield.
  unfold well_typed in Hty.
  destruct field, v as [[]|o|l]; simpl in Hty |- *; try done;
    try (by eexists).
  - simpl in Hv. destruct Hv as [o' Ho']. pose proof Ho' as [Hreset _].
    rewrite Hreset. eexists. split; [done|]. split; [done|]. by exists o'.
  - simpl in Hv.
    destruct (mapM_Forall2_total (λ o, obj_reset_changes o None true)
                                 fully_reset l) as (l' & -> & Hl').
    { eapply Forall_impl; [exact Hv|]. intros o [o' Ho'].
      pose proof Ho' as [Hreset _]. by exists o'. }
    eexists. split; [done|]. split; [done|]. by exists l'.
Qed.

Lemma value_Forall_mp (P Q : NovaObject → Prop) attrs :
  Forall (λ kv : string * value NovaObject,
            value_Forall (λ o, P o → Q o) kv.2) attrs →
  Forall (λ kv, value_Forall P kv.2) attrs →
  Forall (λ kv, value_Forall Q kv.2) attrs.
Proof.
  intros HPQ HP. induction HPQ as [|[k v] attrs Hv _ IH]; [constructor|].
  apply Forall_cons_1 in HP as [HPv HP]. constructor; [|by apply IH].
  destruct v as [p|o|l]; simpl in *; [done|by apply Hv|].
  induction Hv as [|o l Ho _ IHl]; [constructor|].
  apply Forall_cons_1 in HPv as [HPo HPl]. constructor; [by apply Ho|].
  by apply IHl.
Qed.

(** The recursive reset of a well-formed instance whose sub-objects can
    be reset fully. *)
Lemma reset_recursive self names :
  well_formed self = true →
  Forall (λ kv, value_Forall (λ o, ∃ o', fully_reset o o') kv.2)
         (_attrs self) →
  ∃ attrs',
    obj_reset_changes self names true
    = OK (mkNovaObject (obj_class self) (VERSION self) (_context self) attrs'
            (if truthy_list names
             then _changed_fields self ∖ list_to_set (default [] names)
             else ∅)) ∧
    ∀ field, option_Forall2 (reset_outcome (visited self names field))
                            (dict_get field (_attrs self))
                            (dict_get field attrs').
Proof.
  intros Hwf Hchildren.
  destruct (reset_attrs self names Hwf Hchildren) as (attrs' & Hmap & Hrel).
  destruct (obj_get_changes_total self Hwf) as [changes Hchanges].
  exists attrs'. split.
  - by rewrite obj_reset_changes_unfold, Hchanges, Hmap.
  - intros field.
    apply (dict_get_Forall2
             (λ k v v', reset_outcome (visited self names k) v v')).
    exact Hrel.
Qed.

(** After the recursive reset without a filter nothing is reported. *)
Lemma reset_recursive_clears self attrs' :
  (∀ field, option_Forall2 (reset_outcome (visited self None field))
                           (dict_get field (_attrs self))
                           (dict_get field attrs')) →
  obj_what_changed
    (mkNovaObject (obj_class self) (VERSION self) (_context self) attrs' ∅)
  = ∅.
Proof.
  intros Hrel. apply elem_of_equiv_empty_L. intros field Hfield.
  apply (proj1 (elem_of_obj_what_changed _ field)) in Hfield
    as [Hown|(Hdecl & o' & Hheld & Hchanged)]; [set_solver|].
  simpl in Hdecl, Hheld. specialize (Hrel field). rewrite Hheld in Hrel.
  inversion Hrel as [v v' Hout Hv|]; subst. symmetry in Hv.
  unfold reset_outcome, visited in Hout.
  destruct (bool_decide (field ∈ obj_what_changed self)) eqn:Hrep;
    simpl in Hout.
  - destruct v as [p|o|l]; [done| |by destruct Hout as (? & ? & _)].
    destruct Hout as (o'' & [= <-] & _ & Hnone). done.
  - subst v. apply bool_decide_eq_false in Hrep. apply Hrep.
    apply (elem_of_obj_what_changed self field). right.
    split; [done|]. by exists o'.
Qed.

(** Every well-formed instance can be reset fully. *)
Lemma full_reset self :
  well_formed self = true → ∃ self', fully_reset self self'.
Proof.
  induction self as [cls ver ctx attrs changed IH] using NovaObject_nested_ind.
  intros Hwf.
  pose proof (value_Forall_mp _ _ _ IH (well_formed_children _ _ _ _ _ Hwf))
    as Hchildren.
  destruct (reset_recursive (mkNovaObject cls ver ctx attrs changed) None
                            Hwf Hchildren) as (attrs' & Hreset & Hrel).
  eexists. split; [exact Hreset|].
  by apply (reset_recursive_clears (mkNovaObject cls ver ctx attrs changed)).
Qed.

(** What [obj_reset_changes] does.  Without [recursive] the call only
    rewrites the changed set: emptied when [fields] is absent or empty,
    otherwise reduced by the given names.  With [recursive], on a
    well-formed instance, the call returns; the changed set is rewritten
    in the same way, and each attribute is left as it is unless the field
    is reported by [obj_what_changed] and passes the [fields] filter, in
    which case an instance it holds, or every instance of a list it
    holds, is replaced by its full recursive reset, which reports no
    change whatever [fields] was given at the top. *)
Theorem reset_changes_outcome (self : NovaObject)
    (names : option (list string)) :
  let after := if truthy_list names
               then _changed_fields self ∖ list_to_set (default [] names)
               else ∅ in
  obj_reset_changes self names false = OK (set_changed_fields after self)
  ∧ (well_formed self = true →
     ∃ self',
       obj_reset_changes self names true = OK self' ∧
       _changed_fields self' = after ∧
       obj_class self' = obj_class self ∧
       VERSION self' = VERSION self ∧
       _context self' = _context self ∧
       (∀ field,
          option_Forall2 (reset_outcome (visited self names field))
                         (dict_get field (_attrs self))
                         (dict_get field (_attrs self'))) ∧
       (names = None → obj_what_changed self' = ∅)).
Proof.
  intros after. split.
  - by rewrite obj_reset_changes_unfold.
  - intros Hwf.
    assert (Hchildren :
              Forall (λ kv, value_Forall (λ o, ∃ o', fully_reset o o') kv.2)
                     (_attrs self)).
    { destruct self as [cls ver ctx attrs changed].
      eapply Forall_impl; [exact (well_formed_children _ _ _ _ _ Hwf)|].
      intros [k v] Hv. destruct v as [p|o|l]; simpl in *;
        [done|by apply full_reset|].
      eapply Forall_impl; [exact Hv|]. apply full_reset. }
    destruct (reset_recursive self names Hwf Hchildren)
      as (attrs' & Hreset & Hrel).
    eexists. split; [exact Hreset|]. repeat split; try done.
    intros ->. by apply reset_recursive_clears.
Qed.

Lemma reset_changes_outcome_witness :
  ∃ self',
    obj_reset_changes ResetExample.a_changed_owner (Some ["child"]) true
    = OK self' ∧
    _changed_fields self' = {["child"; "n"]} ∖ list_to_set ["child"] ∧
    option_Forall2 (reset_outcome true)
                   (Some (VObj Examples.a_child))
                   (dict_get "child" (_attrs self')).
Proof.
  destruct (proj2 (reset_changes_outcome ResetExample.a_changed_owner
                     (Some ["child"])) eq_refl)
    as (self' & Hreset & Hafter & _ & _ & _ & Hrel & _).
  exists self'. split; [exact Hreset|]. split; [exact Hafter|].
  exact (Hrel "child").
Defined.

(** C6.  The code at the failing input.  An owner whose own changed set
    is empty holds, in its set list field [kids], an instance marked as
    changed in [x].  A recursive reset of the owner returns the owner as
    it was, the element still marked: the loop runs over the fields the
    owner reports as changed, and [obj_what_changed] does not look into
    lists.  The branch for lists of instances is there and works when it
    is reached: with [kids] marked as changed at the owner the element is
    reset, and the same instance held in the entity field [child] is
    reset as well. *)
Theorem recursive_reset_misses_list :
  well_formed ResetExample.an_owner_of_kids = true ∧
  dict_get "kids" (_attrs ResetExample.an_owner_of_kids)
  = Some (VObjs [Examples.a_child]) ∧
  _changed_fields Examples.a_child = {["x"]} ∧
  obj_reset_changes ResetExample.an_owner_of_kids None true
  = OK ResetExample.an_owner_of_kids ∧
  obj_reset_changes
    (set_changed_fields {["kids"]} ResetExample.an_owner_of_kids) None true
  = OK (set_attrs [("kids", VObjs [set_changed_fields ∅ Examples.a_child])]
                  ResetExample.an_owner_of_kids) ∧
  obj_reset_changes Examples.an_owner None true
  = OK (set_attrs [("child", VObj (set_changed_fields ∅ Examples.a_child));
                   ("n", VPy (PInt 1))]
                  Examples.an_owner).
Proof. repeat split; by vm_compute. Qed.

(** An empty list of names is taken for no list at all: nothing was named,
    and the whole changed set is cleared. *)
Example reset_with_no_names :
  _changed_fields ResetExample.a_changed_owner = {["child"; "n"]} ∧
  obj_reset_changes ResetExample.a_changed_owner (Some []) false
  = OK (set_changed_fields ∅ ResetExample.a_changed_owner).
Proof. split; by vm_compute. Qed.

(** ** C3: the round trip through the wire primitive *)

Section RoundTrip.
Variable compatible : string → string → bool.
Variable registry : list (string * list NovaClass).

Let from_obj := obj_from_primitive compatible registry.

Lemma hydratable_unfold cls ver ctx attrs changed :
  hydratable compatible registry (mkNovaObject cls ver ctx attrs changed) ↔
  obj_class_from_name compatible registry (obj_name cls) ver = OK cls ∧
  Forall (λ kv, match kv.2 with
                | VPy p => inverts (dict_get kv.1 (fields cls)) p
                | v => value_Forall (hydratable compatible registry) v
                end) attrs.
Proof.
  simpl. apply and_iff_compat_l.
  induction attrs as [|[k v] attrs IH]; simpl.
  - split; [constructor|done].
  - rewrite Forall_cons, <-IH. apply and_iff_compat_r. simpl.
    destruct v as [p|o|l]; simpl; [done|done|].
    induction l as [|o l IHl]; simpl.
    + split; [constructor|done].
    + by rewrite Forall_cons, <-IHl.
Qed.

(** The loop of hydration, field by field. *)
Lemma hydrate_loop_get objdata fs :
  NoDup (dict_keys fs) →
  ∀ self,
    Forall (λ nf, ∀ p, dict_get nf.1 objdata = Some p →
                       ∃ v, field_from_primitive from_obj (_context self)
                                                 nf.2 p = OK v) fs →
    ∃ self',
      hydrate_loop from_obj objdata fs self = OK self' ∧
      ∀ k, dict_get k (_attrs self')
           = match hydrated (field_from_primitive from_obj (_context self))
                            objdata fs k with
             | Some v => Some v
             | None => dict_get k (_attrs self)
             end.
Proof.
  unfold dict_keys.
  induction fs as [|[name field] fs IH]; intros Hnodup self Hok; simpl.
  - by exists self.
  - apply NoDup_cons in Hnodup as [Hname Hnodup].
    apply Forall_cons_1 in Hok as [Hhere Hok]. simpl in Hhere.
    assert (Hfresh : dict_get name fs = None) by (by apply dict_get_None).
    rewrite dict_get_with_get.
    destruct (dict_get name objdata) as [p|] eqn:Hp; simpl.
    + destruct (Hhere p eq_refl) as [v Hv]. rewrite Hv.
      destruct (IH Hnodup (obj_setattr name v self)) as (self' & -> & Hget);
        [exact Hok|].
      exists self'. split; [done|]. intros k. rewrite Hget.
      unfold hydrated. simpl.
      destruct (decide (k = name)) as [->|Hne].
      * by rewrite Hfresh, Hp, Hv, dict_get_set_eq.
      * by rewrite dict_get_set_ne by done.
    + destruct (IH Hnodup self Hok) as (self' & -> & Hget).
      exists self'. split; [done|]. intros k. rewrite Hget.
      unfold hydrated. simpl.
      destruct (decide (k = name)) as [->|Hne]; [|done].
      by rewrite Hfresh, Hp.
Qed.

Lemma known_changes_total fs (names : list string) :
  ∃ known, known_changes fs (PStr <$> names) = OK known.
Proof.
  induction names as [|name names [known IH]]; [by eexists|].
  rewrite fmap_cons. cbn [known_changes]. rewrite IH. by eexists.
Qed.

Lemma obj_from_primitive_unfold d context :
  from_obj (PDict d) context
  = let* namespace := dict_item "nova_object.namespace" d in
    if negb (is_nova namespace) then
      let* name := dict_item "nova_object.name" d in
      Raise (UnsupportedObjectError (Dotted namespace name))
    else
      let* objname := dict_item "nova_object.name" d in
      let* objver := dict_item "nova_object.version" d in
      let* objclass := class_from_prims compatible registry objname objver in
      match objver with
      | PStr objver =>
          _obj_from_primitive from_obj objclass context objver d
      | _ => Raise TypeError
      end.
Proof. done. Qed.

(** Hydrating the envelope of a registered class comes down to the loop
    over the data map. *)
Lemma hydrate_envelope self d context hydrated_self :
  obj_class_from_name compatible registry
                      (obj_name (obj_class self)) (VERSION self)
  = OK (obj_class self) →
  hydrate_loop from_obj d (fields (obj_class self))
    (set_VERSION (VERSION self)
       (set_context context (new_object (obj_class self))))
  = OK hydrated_self →
  ∃ changes,
    from_obj (wire_envelope self (VERSION self) (PDict d)) context
    = OK (set_changed_fields changes hydrated_self).
Proof.
  intros Hclass Hloop. unfold wire_envelope.
  destruct (known_changes_total (fields (obj_class self))
                                (elements (obj_what_changed self)))
    as [known Hknown].
  destruct (bool_decide (obj_what_changed self ≠ ∅));
    rewrite obj_from_primitive_unfold; simpl; rewrite Hclass;
    unfold _obj_from_primitive; simpl; rewrite Hloop; simpl.
  - unfold changes_prim. simpl. rewrite Hknown. by eexists.
  - by eexists.
Qed.
Let comes_back := comes_back compatible registry.

Lemma list_round_trip context l :
  Forall comes_back l →
  ∃ ps l', mapM (λ o, obj_to_primitive o None) l = OK ps ∧
           mapM (λ e, from_obj e context) ps = OK l' ∧
           Forall2 same_object l l'.
Proof.
  induction 1 as [|o l Ho _ (ps & l' & Hto & Hfrom & Hsame)].
  - exists [], []. by repeat split; [..|constructor].
  - destruct (Ho context) as (env & o' & Henv & Ho' & Hoo').
    exists (PDict env :: ps), (o' :: l'). cbn [mapM].
    unfold from_obj in *. rewrite Henv, Hto, Ho', Hfrom.
    by repeat split; [..|constructor].
Qed.

(** One field: serialized by its descriptor and hydrated again. *)
Lemma field_round_trip context field v :
  well_typed field v = true →
  match v with VPy p => inverts (Some field) p | _ => True end →
  value_Forall comes_back v →
  ∃ pv v',
    field_to_primitive (λ o, obj_to_primitive o None) field v = OK pv ∧
    field_from_primitive from_obj context field pv = OK v' ∧
    same_value same_object v v'.
Proof.
  unfold well_typed. intros Htyped Hinv Hback. destruct v as [p|o|l].
  - destruct (match p with PNone => true | _ => false end) eqn:Hnone.
    + destruct p; try done. exists PNone, (VPy PNone).
      destruct field; by repeat split; [..|constructor].
    + destruct field as [objtype|objtype|enc dec];
        [by destruct p|by destruct p|].
      assert (enc p ≠ PNone ∧ dec (enc p) = OK p) as [Henc Hdec]
        by (by destruct p).
      exists (enc p), (VPy p). split; [by destruct p|].
      split; [|constructor]. cbn [field_from_primitive].
      destruct (enc p); try done; by rewrite Hdec.
  - destruct field as [objtype|objtype|enc dec]; try done.
    cbn [value_Forall] in Hback.
    destruct (Hback context) as (env & o' & Henv & Ho' & Hoo').
    exists (PDict env), (VObj o').
    cbn [field_to_primitive field_from_primitive]. unfold from_obj.
    rewrite Henv, Ho'. by repeat split; [..|constructor].
  - destruct field as [objtype|objtype|enc dec]; try done.
    cbn [value_Forall] in Hback.
    destruct (list_round_trip context l Hback)
      as (ps & l' & Hto & Hfrom & Hsame).
    exists (PList ps), (VObjs l').
    cbn [field_to_primitive field_from_primitive]. rewrite Hto, Hfrom.
    by repeat split; [..|constructor].
Qed.
Lemma value_Forall_mp2 (A B C : NovaObject → Prop) v :
  value_Forall (λ o, A o → B o → C o) v →
  value_Forall A v → value_Forall B v → value_Forall C v.
Proof.
  destruct v as [p|o|l]; simpl; [done|by auto|].
  induction 1 as [|o l Ho _ IH]; intros HA HB; [constructor|].
  apply Forall_cons_1 in HA as [HAo HA]. apply Forall_cons_1 in HB as [HBo HB].
  constructor; [by apply Ho|by apply IH].
Qed.

Lemma serialize_fields self :
  well_formed self = true →
  ∃ d,
    to_primitive_loop (_attrs self)
      (field_to_primitive (λ o, obj_to_primitive o None))
      (fields (obj_class self)) [] = OK d ∧
    ∀ k, dict_get k d
         = serialized (_attrs self)
             (field_to_primitive (λ o, obj_to_primitive o None))
             (fields (obj_class self)) k.
Proof.
  intros Hwf. destruct self as [cls ver ctx attrs changed].
  pose proof Hwf as Hwf'.
  apply well_formed_unfold in Hwf' as (Hfields & _ & _ & _).
  pose proof (well_formed_children _ _ _ _ _ Hwf) as Hchildren.
  destruct (to_primitive_loop_get attrs
              (field_to_primitive (λ o, obj_to_primitive o None))
              (fields cls) Hfields) with (acc := @nil (string * prim))
    as (d & Hloop & Hd).
  { apply Forall_forall. intros [name field] Hin v Hv. simpl in Hv |- *.
    apply field_to_primitive_total.
    - by apply (well_formed_typed (mkNovaObject cls ver ctx attrs changed)
                                  name field v Hwf).
    - pose proof (value_Forall_get _ _ _ _ Hchildren Hv) as Hwfv.
      destruct v as [p|o|l]; simpl in Hwfv |- *;
        [done|by apply obj_to_primitive_total|].
      eapply Forall_impl; [exact Hwfv|]. apply obj_to_primitive_total. }
  exists d. split; [done|]. intros k. rewrite Hd.
  by destruct (serialized _ _ _ k).
Qed.

(** The round trip, for an instance and all the instances inside. *)
Lemma nested_round_trip self :
  well_formed self = true → hydratable compatible registry self →
  comes_back self.
Proof.
  induction self as [cls ver ctx attrs changed IH] using NovaObject_nested_ind.
  intros Hwf Hhyd context.
  set (self := mkNovaObject cls ver ctx attrs changed) in *.
  set (ftp := field_to_primitive (λ o, obj_to_primitive o None)).
  pose proof Hwf as Hwf'.
  apply well_formed_unfold in Hwf' as (Hfields & _ & _ & _).
  pose proof (well_formed_children _ _ _ _ _ Hwf) as Hwfc.
  apply hydratable_unfold in Hhyd as [Hclass Hhyd].
  destruct (serialize_fields self Hwf) as (d & Hloop & Hd).
  fold ftp in Hloop, Hd. simpl _attrs in Hloop, Hd. simpl obj_class in Hloop, Hd.
  assert (Hfield : ∀ name field v,
            (name, field) ∈ fields cls → dict_get name attrs = Some v →
            ∃ pv v', ftp field v = OK pv ∧
                     field_from_primitive from_obj context field pv = OK v' ∧
                     same_value same_object v v').
  { intros name field v Hin Hv. apply field_round_trip.
    - by apply (well_formed_typed self name field v Hwf).
    - rewrite Forall_forall in Hhyd.
      specialize (Hhyd _ (dict_get_elem_of _ _ _ Hv)). simpl in Hhyd.
      rewrite (elem_of_dict_get _ _ _ Hfields Hin) in Hhyd.
      by destruct v.
    - apply (value_Forall_mp2 (λ o, well_formed o = true)
                              (hydratable compatible registry)).
      + exact (value_Forall_get _ _ _ _ IH Hv).
      + exact (value_Forall_get _ _ _ _ Hwfc Hv).
      + rewrite Forall_forall in Hhyd.
        specialize (Hhyd _ (dict_get_elem_of _ _ _ Hv)). simpl in Hhyd.
        by destruct v. }
  set (start := set_VERSION ver (set_context context (new_object cls))).
  destruct (hydrate_loop_get d (fields cls) Hfields start)
    as (self0 & Hself0 & Hget).
  { apply Forall_forall. intros [name field] Hin p Hp. simpl in Hp |- *.
    rewrite Hd in Hp. unfold serialized in Hp.
    rewrite (elem_of_dict_get _ _ _ Hfields Hin) in Hp.
    destruct (dict_get name attrs) as [v|] eqn:Hv; [|done].
    destruct (Hfield name field v Hin Hv) as (pv & v' & Hpv & Hv' & _).
    rewrite Hpv in Hp. injection Hp as <-. by exists v'. }
  destruct (hydrate_envelope self d context self0 Hclass Hself0)
    as [changes Hfrom].
  destruct (hydrate_loop_VERSION _ _ _ _ _ Hself0) as (Hver0 & _ & Hcls0).
  unfold wire_envelope in Hfrom.
  eexists _, _. split; [|split; [exact Hfrom|]].
  { rewrite obj_to_primitive_unfold. simpl _attrs. simpl obj_class.
    fold ftp. by rewrite Hloop. }
  destruct self0 as [cls0 ver0 ctx0 attrs0 changed0].
  simpl in Hver0, Hcls0, Hget. subst cls0 ver0.
  unfold set_changed_fields, self.
  cbn [obj_class VERSION _context _attrs _changed_fields].
  apply same_object_fields. intros field Hdecl. rewrite Hget.
  apply dict_get_is_Some in Hdecl as [fld Hfld].
  unfold hydrated. rewrite Hfld, Hd. unfold serialized. rewrite Hfld.
  destruct (dict_get field attrs) as [v|] eqn:Hv; [|constructor].
  destruct (Hfield field fld v (dict_get_elem_of _ _ _ Hfld) Hv)
    as (pv & v' & Hpv & Hv' & Hsame).
  rewrite Hpv, Hv'. by constructor.
Qed.
End RoundTrip.

(** C3.  A well-formed instance whose name and version the registry
    resolves to its class, whose plain descriptors invert on the values
    held, and whose inner instances are likewise, makes the round trip: it
    is serialized to a primitive, the primitive is hydrated, and the
    result is of the same class and version and agrees with the instance
    on every declared field, set fields holding the same value and unset
    fields staying unset, changes and context left aside. *)
Theorem round_trip (compatible : string → string → bool)
    (registry : list (string * list NovaClass)) (self : NovaObject)
    (context : option RequestContext) :
  well_formed self = true →
  hydratable compatible registry self →
  ∃ p self',
    obj_to_primitive self None = OK p ∧
    obj_from_primitive compatible registry p context = OK self' ∧
    obj_class self' = obj_class self ∧
    VERSION self' = VERSION self ∧
    (∀ field, field ∈ dict_keys (fields (obj_class self)) →
              option_Forall2 (same_value same_object)
                             (dict_get field (_attrs self))
                             (dict_get field (_attrs self'))).
Proof.
  intros Hwf Hhyd.
  destruct (nested_round_trip compatible registry self Hwf Hhyd context)
    as (env & self' & Hto & Hfrom & Hsame).
  exists (PDict env), self'. split; [done|]. split; [done|].
  by destruct Hsame.
Qed.

Lemma round_trip_witness :
  ∃ p self',
    obj_to_primitive RoundTripExample.a_full_owner None = OK p ∧
    obj_from_primitive is_compatible RoundTripExample.registry p
                       (Some RemotableExample.a_context) = OK self' ∧
    obj_class self' = Examples.Owner ∧
    VERSION self' = "1.5" ∧
    (∀ field, field ∈ ["child"; "n"; "kids"] →
              option_Forall2 (same_value same_object)
                (dict_get field (_attrs RoundTripExample.a_full_owner))
                (dict_get field (_attrs self'))).
Proof.
  apply (round_trip is_compatible RoundTripExample.registry
                    RoundTripExample.a_full_owner
                    (Some RemotableExample.a_context)).
  - reflexivity.
  - simpl. repeat split; try reflexivity; discriminate.
Defined.

(** The hydrated owner holds what the owner held; its sub-objects are
    bound to the context given, and the changes are those the primitive
    listed. *)
Example hydrated_owner_fields :
  match obj_to_primitive RoundTripExample.a_full_owner None with
  | OK p =>
      match obj_from_primitive is_compatible RoundTripExample.registry p
                               None with
      | OK self' => Some (_attrs self')
      | Raise _ => None
      end
  | Raise _ => None
  end
  = Some [("child", VObj Examples.a_child); ("n", VPy (PInt 1));
          ("kids", VObjs [Examples.a_child; Examples.a_child])].
Proof. by vm_compute. Qed.

(** A type the registry does not know is not hydrated back. *)
Example unregistered_not_hydrated :
  match obj_to_primitive RoundTripExample.a_full_owner None with
  | OK p => obj_from_primitive is_compatible RegistryExample.registry p None
  | Raise e => Raise e
  end
  = Raise (UnsupportedObjectError (ObjType (PStr "Owner"))).
Proof. reflexivity. Qed.

(** * Further properties of the module *)

(** ** Hydration: what is set, what is marked as changed *)

Lemma known_changes_elem fs changes names :
  known_changes fs changes = OK names →
  ∀ n, n ∈ names ↔ PStr n ∈ changes ∧ dict_has n fs = true.
Proof.
  revert names. induction changes as [|x changes IH]; intros names; simpl.
  - intros [= <-] n. rewrite !elem_of_nil. naive_solver.
  - destruct x as [| | |name| |]; try done;
      try (intros Hrest n; rewrite (IH _ Hrest n), elem_of_cons;
           naive_solver).
    destruct (known_changes fs changes) as [rest|]; [|done].
    intros [= <-] n. specialize (IH rest eq_refl n).
    rewrite elem_of_cons.
    destruct (dict_has name fs) eqn:Hname.
    + rewrite elem_of_cons, IH. split.
      * intros [->|[? ?]]; [by split; [left|]|by split; [right|]].
      * intros [[[= ->]|?] ?]; [by left|by right].
    + rewrite IH. split.
      * intros [? ?]. by split; [right|].
      * intros [[[= ->]|?] ?]; [congruence|done].
Qed.

Lemma hydrate_loop_set from_obj objdata fs :
  ∀ self self',
    hydrate_loop from_obj objdata fs self = OK self' →
    ∀ k, is_Some (dict_get k (_attrs self')) ↔
         is_Some (dict_get k (_attrs self)) ∨
         (k ∈ dict_keys fs ∧ is_Some (dict_get k objdata)).
Proof.
  unfold dict_keys.
  induction fs as [|[name field] fs IH]; intros self self'; simpl.
  - intros [= <-] k. rewrite elem_of_nil. naive_solver.
  - rewrite dict_get_with_get.
    destruct (dict_get name objdata) as [p|] eqn:Hp; simpl.
    + destruct (field_from_primitive _ _ field p) as [v|]; [|done].
      intros Hloop k. rewrite (IH _ _ Hloop k). simpl.
      rewrite !dict_get_is_Some, dict_keys_set, elem_of_cons,
        <-!dict_get_is_Some.
      split.
      * intros [[->|?]|[? ?]]; [right|by left|right]; split; eauto.
      * intros [?|[[->|?] ?]]; [left; by right|left; by left|by right].
    + intros Hloop k. rewrite (IH _ _ Hloop k), elem_of_cons.
      split.
      * intros [?|[? ?]]; [by left|right]. split; [by right|done].
      * intros [?|[[->|?] Hk]]; [by left| |by right].
        rewrite Hp in Hk. by destruct Hk.
Qed.

(** X1.  Hydration sets exactly the declared fields that the data map holds,
    binds the instance to the context given, and marks as changed exactly
    the listed names that are declared fields: a stale marker is dropped
    without an error, an entry of the data map for no declared field is
    ignored. *)
Theorem hydration_sets_declared_only (compatible : string → string → bool)
    (registry : list (string * list NovaClass))
    (d objdata : list (string * prim)) (context : option RequestContext)
    (self : NovaObject) :
  obj_from_primitive compatible registry (PDict d) context = OK self →
  dict_get "nova_object.data" d = Some (PDict objdata) →
  _context self = context
  ∧ (∀ k, is_Some (dict_get k (_attrs self)) ↔
          k ∈ dict_keys (fields (obj_class self)) ∧
          is_Some (dict_get k objdata))
  ∧ (∀ listed, dict_get "nova_object.changes" d = Some (PList listed) →
               ∀ n, n ∈ _changed_fields self ↔
                    PStr n ∈ listed ∧
                    n ∈ dict_keys (fields (obj_class self)))
  ∧ (dict_get "nova_object.changes" d = None → _changed_fields self = ∅).
Proof.
  intros Hself Hdata.
  rewrite obj_from_primitive_unfold in Hself. unfold dict_item in Hself.
  destruct (dict_get "nova_object.namespace" d) as [namespace|]; [|done].
  destruct (is_nova namespace); simpl in Hself;
    [|by destruct (dict_get "nova_object.name" d)].
  destruct (dict_get "nova_object.name" d) as [objname|]; [|done].
  destruct (dict_get "nova_object.version" d) as [objver|]; [|done].
  destruct (class_from_prims compatible registry objname objver)
    as [objclass|]; [|done].
  destruct objver as [| | |objver| |]; try done.
  unfold _obj_from_primitive in Hself.
  rewrite dict_get_with_get, Hdata in Hself. simpl in Hself.
  set (start := set_VERSION _ _) in Hself.
  destruct (hydrate_loop _ objdata (fields objclass) start)
    as [self0|] eqn:Hloop; [|done].
  pose proof (hydrate_loop_set _ _ _ _ _ Hloop) as Hset.
  pose proof (hydrate_loop_VERSION _ _ _ _ _ Hloop) as (_ & Hctx & Hcls).
  simpl in Hctx, Hcls.
  destruct (match dict_get "nova_object.changes" d with
            | Some c => _ | None => _ end) as [changes|] eqn:Hchanges;
    [|done].
  destruct (known_changes (fields objclass) changes) as [names|] eqn:Hnames;
    [|done].
  injection Hself as <-. simpl. rewrite Hcls.
  split; [done|].
  split; [|split].
  - intros k. rewrite Hset. simpl. split; [by intros [[? ?]|?]|by right].
  - intros listed Hlisted n. rewrite Hlisted in Hchanges. simpl in Hchanges.
    injection Hchanges as <-. rewrite elem_of_list_to_set.
    rewrite (known_changes_elem _ _ _ Hnames n). by rewrite dict_has_true.
  - intros Hnone. rewrite Hnone in Hchanges. injection Hchanges as <-.
    simpl in Hnames. by injection Hnames as <-.
Qed.

Lemma hydration_sets_declared_only_witness :
  ∃ self,
    obj_from_primitive is_compatible RegistryExample.registry
      (PDict HydrationExample.foo_prim) None = OK self ∧
    (∀ n, n ∈ _changed_fields self ↔
          PStr n ∈ [PStr "a"; PStr "gone"] ∧ n ∈ ["a"]).
Proof.
  destruct (obj_from_primitive is_compatible RegistryExample.registry
              (PDict HydrationExample.foo_prim) None) as [self|e] eqn:Hself;
    [|by vm_compute in Hself].
  exists self. split; [done|].
  destruct (hydration_sets_declared_only is_compatible
              RegistryExample.registry HydrationExample.foo_prim
              [("a", PInt 5)] None self Hself eq_refl)
    as (_ & _ & Hchanged & _).
  assert (Hcls : obj_class self = RegistryExample.Foo_1_3).
  { vm_compute in Hself. by injection Hself as <-. }
  rewrite Hcls in Hchanged. exact (Hchanged _ eq_refl).
Defined.

(** The changed set of a hydrated instance, read off the primitive. *)
Lemma hydrated_changes compatible registry d context self :
  obj_from_primitive compatible registry (PDict d) context = OK self →
  _context self = context ∧
  ∃ changes names,
    match dict_get "nova_object.changes" d with
    | None => OK []
    | Some c => changes_iter c
    end = OK changes ∧
    known_changes (fields (obj_class self)) changes = OK names ∧
    _changed_fields self = list_to_set names.
Proof.
  intros Hself.
  rewrite obj_from_primitive_unfold in Hself. unfold dict_item in Hself.
  destruct (dict_get "nova_object.namespace" d) as [namespace|]; [|done].
  destruct (is_nova namespace); simpl in Hself;
    [|by destruct (dict_get "nova_object.name" d)].
  destruct (dict_get "nova_object.name" d) as [objname|]; [|done].
  destruct (dict_get "nova_object.version" d) as [objver|]; [|done].
  destruct (class_from_prims compatible registry objname objver)
    as [objclass|]; [|done].
  destruct objver as [| | |objver| |]; try done.
  pose proof (_obj_from_primitive_VERSION _ _ _ _ _ _ Hself)
    as (_ & Hctx & Hclass).
  split; [done|]. unfold _obj_from_primitive in Hself.
  destruct (dict_get_with _ "nova_object.data" d) as [[self0|]|]; try done.
  destruct (match dict_get "nova_object.changes" d with
            | Some c => _ | None => _ end) as [changes|]; [|done].
  destruct (known_changes (fields objclass) changes) as [names|] eqn:Hnames;
    [|done].
  injection Hself as <-. simpl in Hclass |- *. exists changes, names.
  by rewrite Hclass.
Qed.

Lemma well_formed_declared self k :
  well_formed self = true → is_Some (dict_get k (_attrs self)) →
  k ∈ dict_keys (fields (obj_class self)).
Proof.
  destruct self as [cls ver ctx attrs changed]. rewrite well_formed_unfold.
  intros (_ & _ & _ & Hall) [v Hv]. rewrite Forall_forall in Hall.
  destruct (Hall _ (dict_get_elem_of _ _ _ Hv)) as (field & Hfield & _).
  apply dict_get_is_Some. by exists field.
Qed.

(** X2.  Through the round trip the change markers become what the instance
    reported: the hydrated instance is marked as changed in exactly the
    fields of [obj_what_changed], the names of fields that hold a changed
    instance included, and is bound to the context it was hydrated in. *)
Theorem changes_after_round_trip (compatible : string → string → bool)
    (registry : list (string * list NovaClass)) (self : NovaObject)
    (context : option RequestContext) :
  well_formed self = true →
  hydratable compatible registry self →
  ∃ p self',
    obj_to_primitive self None = OK p ∧
    obj_from_primitive compatible registry p context = OK self' ∧
    _changed_fields self' = obj_what_changed self ∧
    _context self' = context.
Proof.
  intros Hwf Hhyd.
  destruct (nested_round_trip compatible registry self Hwf Hhyd context)
    as (env & self' & Hto & Hfrom & Hsame).
  exists (PDict env), self'. split; [done|]. split; [done|].
  destruct (hydrated_changes _ _ _ _ _ Hfrom)
    as (Hctx & changes & names & Hchanges & Hnames & Hchanged).
  split; [|done]. rewrite Hchanged.
  assert (Hcls : obj_class self' = obj_class self) by (by destruct Hsame).
  rewrite Hcls in Hnames.
  pose proof (known_changes_elem _ _ _ Hnames) as Helem.
  destruct (serialize_fields self Hwf) as (d & Hloop & _).
  rewrite obj_to_primitive_unfold, Hloop in Hto. simpl in Hto.
  unfold wire_envelope in Hto. injection Hto as <-.
  apply set_eq. intros n. rewrite elem_of_list_to_set, Helem, dict_has_true.
  destruct (bool_decide (obj_what_changed self ≠ ∅)) eqn:Hany.
  - simpl in Hchanges. injection Hchanges as <-.
    rewrite list_elem_of_fmap. split.
    + intros [(m & [= ->] & Hm) _]. by apply elem_of_elements.
    + intros Hn. split.
      * exists n. split; [done|]. by apply elem_of_elements.
      * apply well_formed_declared; [done|]. by apply what_changed_set.
  - simpl in Hchanges. injection Hchanges as <-.
    apply bool_decide_eq_false in Hany.
    assert (Hnone : obj_what_changed self = ∅).
    { destruct (decide (obj_what_changed self = ∅)); [done|by destruct Hany]. }
    rewrite Hnone, elem_of_nil. set_solver.
Qed.

Lemma changes_after_round_trip_witness :
  ∃ p self',
    obj_to_primitive RoundTripExample.a_full_owner None = OK p ∧
    obj_from_primitive is_compatible RoundTripExample.registry p
                       (Some RemotableExample.a_context) = OK self' ∧
    _changed_fields self' = obj_what_changed RoundTripExample.a_full_owner ∧
    _context self' = Some RemotableExample.a_context.
Proof.
  apply (changes_after_round_trip is_compatible RoundTripExample.registry
                            RoundTripExample.a_full_owner
                            (Some RemotableExample.a_context)).
  - reflexivity.
  - simpl. repeat split; try reflexivity; discriminate.
Defined.

(** ** The backport: what it leaves alone, and its errors *)

Lemma dict_set_same {A} k (a : A) d :
  dict_get k d = Some a → dict_set k a d = d.
Proof.
  induction d as [|[k' a'] d IH]; simpl; [done|].
  destruct (decide (k = k')) as [->|Hne]; [by intros [= ->]|].
  intros Hget. by rewrite IH.
Qed.

(** Backporting the field [key] changes no other entry of the dict. *)
Lemma _obj_make_obj_compatible_other mc self d target_version key obj d' k :
  k ≠ key →
  _obj_make_obj_compatible mc self (PDict d) target_version key obj
  = OK (PDict d') →
  dict_get k d' = dict_get k d.
Proof.
  intros Hne. unfold _obj_make_obj_compatible.
  destruct (obj_calculate_child_version self target_version key)
    as [[to_version|]|]; [| |done].
  - destruct (_do_backport mc to_version obj (prim_item key (PDict d)))
      as [[slot|]|]; [| |done]; simpl.
    + intros [= <-]. by rewrite dict_get_set_ne by done.
    + by intros [= <-].
  - simpl. destruct (dict_has key d); [|done]. intros [= <-].
    by rewrite dict_get_del_ne by done.
Qed.

(** X3.  [obj_make_compatible] changes only the entries of set composed
    fields: the entry of a plain field, of an unset field, or of a key that
    is no field at all, is after the backport what it was before. *)
Theorem backport_keeps_other_entries (self : NovaObject)
    (d d' : list (string * prim)) (target_version k : string) :
  obj_make_compatible self (PDict d) target_version = OK (PDict d') →
  (∀ field, (k, field) ∈ fields (obj_class self) →
            is_composed field = false ∨ dict_get k (_attrs self) = None) →
  dict_get k d' = dict_get k d.
Proof.
  rewrite obj_make_compatible_unfold.
  generalize (fields (obj_class self)). intros fs. revert d.
  induction fs as [|[key field] fs IH]; intros d; simpl.
  - by intros [= <-].
  - intros Hloop Hk.
    assert (Hrest : ∀ field0, (k, field0) ∈ fs →
              is_composed field0 = false ∨ dict_get k (_attrs self) = None).
    { intros field0 Hin. apply Hk. by apply list_elem_of_further. }
    destruct (is_composed field) eqn:Hfield; simpl in Hloop;
      [|by apply IH].
    rewrite dict_get_with_get in Hloop.
    destruct (dict_get key (_attrs self)) as [obj|] eqn:Hobj;
      simpl in Hloop; [|by apply IH].
    destruct (negb (dict_has key _)); [done|].
    destruct (_obj_make_obj_compatible obj_make_compatible self (PDict d)
                target_version key obj) as [data1|] eqn:Hstep; [|done].
    destruct (_obj_make_obj_compatible_keys _ _ _ _ _ _ _ Hstep)
      as (d1 & -> & _).
    rewrite (IH d1 Hloop Hrest).
    assert (Hne : k ≠ key).
    { intros ->. destruct (Hk field (list_elem_of_here _ _)); congruence. }
    exact (_obj_make_obj_compatible_other _ _ _ _ _ _ _ _ Hne Hstep).
Qed.

Lemma backport_keeps_other_entries_witness :
  ∃ d', obj_make_compatible Examples.an_owner
          (PDict [("child", PNone); ("n", PInt 1)]) "1.0" = OK (PDict d') ∧
        dict_get "n" d' = Some (PInt 1).
Proof.
  exists [("n", PInt 1)]. split; [reflexivity|].
  apply (backport_keeps_other_entries Examples.an_owner
           [("child", PNone); ("n", PInt 1)] [("n", PInt 1)] "1.0" "n"
           eq_refl).
  intros field Hin.
  apply elem_of_cons in Hin as [Heq|Hin]; [discriminate|].
  apply elem_of_cons in Hin as [Heq|Hin]; [injection Heq as ->; by left|].
  apply elem_of_cons in Hin as [Heq|Hin]; [discriminate|].
  by apply elem_of_nil in Hin.
Defined.

(** X4.  A single sub-object whose primitive already carries the version
    computed for it is not backported again: whatever its own
    [obj_make_compatible] would do, the owner's primitive stays as it is. *)
Theorem backport_skips_child_at_version
    (mc : NovaObject → prim → string → result prim) (self o : NovaObject)
    (d pchild : list (string * prim))
    (target_version field to_version : string) :
  obj_calculate_child_version self target_version field
  = OK (Some to_version) →
  dict_get field d = Some (PDict pchild) →
  dict_get "nova_object.version" pchild = Some (PStr to_version) →
  _obj_make_obj_compatible mc self (PDict d) target_version field (VObj o)
  = OK (PDict d).
Proof.
  intros Hcalc Hfield Hver. unfold _obj_make_obj_compatible.
  rewrite Hcalc. simpl. unfold dict_item. rewrite Hfield. simpl.
  unfold dict_item. rewrite Hver. simpl.
  rewrite bool_decide_eq_true_2 by done. simpl.
  by rewrite (dict_set_same _ _ _ Hver), (dict_set_same _ _ _ Hfield).
Qed.

Lemma backport_skips_child_at_version_witness :
  _obj_make_obj_compatible (λ _ _ _, Raise ValueError) Examples.an_owner
    (PDict [("child", PDict [("nova_object.version", PStr "1.2")])])
    "1.5" "child" (VObj Examples.a_child)
  = OK (PDict [("child", PDict [("nova_object.version", PStr "1.2")])]).
Proof.
  exact (backport_skips_child_at_version (λ _ _ _, Raise ValueError)
           Examples.an_owner Examples.a_child
           [("child", PDict [("nova_object.version", PStr "1.2")])]
           [("nova_object.version", PStr "1.2")] "1.5" "child" "1.2"
           eq_refl eq_refl eq_refl).
Defined.

Lemma calculate_from_answers table target :
  table ≠ [] →
  ∀ rest index pre,
    table = (pre ++ rest)%list → length pre = index →
    Forall (λ entry, ∃ o, convert_version_to_tuple entry.1 = OK o) rest →
    ∃ answer,
      calculate_from table target index rest = OK answer ∧
      ∀ v, answer = Some v → v ∈ table.*2.
Proof.
  intros Hne rest. induction rest as [|[my cv] rest IH];
    intros index pre Htable Hlen Hconv; simpl.
  - destruct (last table) as [entry|] eqn:Hlast.
    + exists (Some entry.2). split; [done|]. intros v [= <-].
      apply list_elem_of_fmap. exists entry. split; [done|].
      apply last_Some in Hlast as [l' ->]. set_solver.
    + by apply last_None in Hlast.
  - apply Forall_cons_1 in Hconv as [[o Ho] Hconv]. simpl in Ho. rewrite Ho.
    destruct (tuple_lt target o).
    + destruct index as [|before].
      * exists None. by split.
      * destruct (table !! before) as [entry|] eqn:Hentry.
        -- exists (Some entry.2). split; [done|]. intros v [= <-].
           apply list_elem_of_fmap. exists entry. split; [done|].
           by apply list_elem_of_lookup_2 in Hentry.
        -- apply lookup_ge_None in Hentry. subst table.
           rewrite length_app in Hentry. lia.
    + destruct (tuple_eq target o).
      * exists (Some cv). split; [done|]. intros v [= <-].
        apply list_elem_of_fmap. exists (my, cv). split; [done|].
        subst table. set_solver.
      * apply (IH (S index) (pre ++ [(my, cv)])%list);
          [by rewrite <-app_assoc|rewrite length_app; simpl; lia|done].
Qed.

(** X5.  [obj_calculate_child_version] and its table. A target version that
    is no dotted number is refused before the table is looked at; a field
    without a table is a [KeyError], an empty table an [IndexError]. With a
    table that is not empty and whose owner versions are dotted numbers the
    call returns, in whatever order the entries are, and a version it
    answers is the child version of some entry of the table. *)
Theorem child_version_total (self : NovaObject)
    (target_version child : string) :
  (convert_version_to_tuple target_version = Raise ValueError →
   obj_calculate_child_version self target_version child = Raise ValueError)
  ∧ (∀ target,
       convert_version_to_tuple target_version = OK target →
       (dict_get child (obj_relationships (obj_class self)) = None →
        obj_calculate_child_version self target_version child
        = Raise (KeyError (PStr child)))
       ∧ (dict_get child (obj_relationships (obj_class self)) = Some [] →
          obj_calculate_child_version self target_version child
          = Raise IndexError)
       ∧ (∀ table,
            dict_get child (obj_relationships (obj_class self)) = Some table →
            table ≠ [] →
            Forall (λ entry, ∃ o, convert_version_to_tuple entry.1 = OK o)
                   table →
            ∃ answer,
              obj_calculate_child_version self target_version child
              = OK answer ∧
              ∀ v, answer = Some v → v ∈ table.*2)).
Proof.
  unfold obj_calculate_child_version, dict_item. split.
  - by intros ->.
  - intros target ->. split; [by intros ->|]. split; [by intros ->|].
    intros table -> Hne Hconv.
    by apply (calculate_from_answers table target Hne table 0%nat []).
Qed.

Lemma child_version_total_witness :
  obj_calculate_child_version Examples.an_owner "1.x" "child"
  = Raise ValueError
  ∧ obj_calculate_child_version Examples.an_owner "1.3" "n"
    = Raise (KeyError (PStr "n"))
  ∧ ∃ answer,
      obj_calculate_child_version Examples.an_owner "1.3" "child"
      = OK answer ∧
      ∀ v, answer = Some v → v ∈ ["1.0"; "1.2"].
Proof.
  split; [|split].
  - exact (proj1 (child_version_total Examples.an_owner "1.x" "child")
                 eq_refl).
  - exact (proj1 (proj2 (child_version_total Examples.an_owner "1.3" "n")
                        [1; 3] eq_refl) eq_refl).
  - apply (proj2 (proj2 (proj2 (child_version_total Examples.an_owner
                                  "1.3" "child") [1; 3] eq_refl))
                 [("1.2", "1.0"); ("1.4", "1.2")] eq_refl).
    + discriminate.
    + repeat constructor; by eexists.
Defined.

(** ** Resetting changes leaves the values alone *)

Lemma same_value_refl v :
  value_Forall (λ o, same_object o o) v → same_value same_object v v.
Proof.
  destruct v as [p|o|l]; simpl; intros Hv.
  - constructor.
  - by constructor.
  - constructor. induction Hv; by constructor.
Qed.

Lemma same_object_refl o : same_object o o.
Proof.
  induction o as [cls ver ctx attrs changed IH] using NovaObject_nested_ind.
  constructor. intros field _.
  destruct (dict_get field attrs) as [v|] eqn:Hv; constructor.
  apply same_value_refl. exact (value_Forall_get _ _ _ _ IH Hv).
Qed.

Lemma reset_outcome_same is_visited v v' :
  value_Forall (λ o, ∀ o', fully_reset o o' → same_object o o') v →
  reset_outcome is_visited v v' → same_value same_object v v'.
Proof.
  intros Hv. unfold reset_outcome.
  assert (Hrefl : same_value same_object v v).
  { apply same_value_refl. destruct v as [p|o|l]; simpl; [done| |].
    - apply same_object_refl.
    - apply Forall_forall. intros o _. apply same_object_refl. }
  destruct is_visited; [|by intros ->].
  destruct v as [p|o|l]; [by intros ->| |].
  - intros (o' & -> & Ho'). constructor. by apply Hv.
  - intros (l' & -> & Hl'). constructor. simpl in Hv. clear Hrefl.
    revert Hv. induction Hl' as [|o o' l l' Ho' _ IH]; intros Hv;
      [constructor|].
    apply Forall_cons_1 in Hv as [Ho Hv]. constructor; [by apply Ho|].
    by apply IH.
Qed.

(** A full recursive reset gives an instance that holds the same. *)
Lemma fully_reset_same o :
  well_formed o = true → ∀ o', fully_reset o o' → same_object o o'.
Proof.
  induction o as [cls ver ctx attrs changed IH] using NovaObject_nested_ind.
  intros Hwf o' [Hreset _].
  set (self := mkNovaObject cls ver ctx attrs changed) in *.
  pose proof (well_formed_children _ _ _ _ _ Hwf) as Hwfc.
  assert (Hchildren :
            Forall (λ kv, value_Forall (λ o, ∃ o', fully_reset o o') kv.2)
                   (_attrs self)).
  { eapply Forall_impl; [exact Hwfc|].
    intros [k v] Hv. destruct v as [p|o|l]; simpl in *;
      [done|by apply full_reset|].
    eapply Forall_impl; [exact Hv|]. apply full_reset. }
  destruct (reset_recursive self None Hwf Hchildren)
    as (attrs' & Hself' & Hrel).
  rewrite Hself' in Hreset. injection Hreset as <-.
  unfold self. cbn [obj_class VERSION _context]. constructor.
  intros field _. specialize (Hrel field). simpl in Hrel.
  destruct (dict_get field attrs) as [v|] eqn:Hv;
    inversion Hrel as [v0 v' Hout|]; subst; constructor.
  eapply reset_outcome_same; [|exact Hout].
  exact (value_Forall_get _ _ _ _ (value_Forall_mp _ _ _ IH Hwfc) Hv).
Qed.

(** X6.  "This is NOT revert to previous values": on a well-formed instance
    [obj_reset_changes] returns, with or without [fields], recursive or not,
    and the instance afterwards is of the same class, version and context
    and holds in every declared field what it held before, up to the change
    sets inside. *)
Theorem reset_keeps_values (self : NovaObject) (names : option (list string))
    (recursive : bool) :
  well_formed self = true →
  ∃ self',
    obj_reset_changes self names recursive = OK self' ∧
    same_object self self' ∧
    _context self' = _context self ∧
    dict_keys (_attrs self') = dict_keys (_attrs self).
Proof.
  intros Hwf. destruct recursive.
  - assert (Hchildren :
              Forall (λ kv, value_Forall (λ o, ∃ o', fully_reset o o') kv.2)
                     (_attrs self)).
    { destruct self as [cls ver ctx attrs changed].
      eapply Forall_impl; [exact (well_formed_children _ _ _ _ _ Hwf)|].
      intros [k v] Hv. destruct v as [p|o|l]; simpl in *;
        [done|by apply full_reset|].
      eapply Forall_impl; [exact Hv|]. apply full_reset. }
    destruct (reset_attrs self names Hwf Hchildren) as (attrs' & Hmap & Hrel).
    destruct (obj_get_changes_total self Hwf) as [changes Hchanges].
    eexists. split.
    { by rewrite obj_reset_changes_unfold, Hchanges, Hmap. }
    destruct self as [cls ver ctx attrs changed].
    cbn [obj_class VERSION _context _attrs] in *.
    split; [|split; [done|]].
    + constructor. intros field _.
      pose proof (dict_get_Forall2
                    (λ k v v', reset_outcome
                                 (visited (mkNovaObject cls ver ctx attrs
                                                        changed) names k)
                                 v v') attrs attrs' field Hrel) as Hfield.
      pose proof (well_formed_children _ _ _ _ _ Hwf) as Hwfc.
      destruct (dict_get field attrs) as [v|] eqn:Hv;
        inversion Hfield as [v0 v' Hout|]; subst; constructor.
      eapply reset_outcome_same; [|exact Hout].
      pose proof (value_Forall_get _ _ _ _ Hwfc Hv) as Hwfv.
      destruct v as [p|o|l]; simpl in Hwfv |- *;
        [done|by apply fully_reset_same|].
      eapply Forall_impl; [exact Hwfv|]. apply fully_reset_same.
    + clear -Hrel. induction Hrel as [|[k v] [k' v'] ? ? [Hk _] _ IH];
        [done|]. simpl in *. by rewrite Hk, IH.
  - eexists. split; [by rewrite obj_reset_changes_unfold|].
    destruct self as [cls ver ctx attrs changed].
    split; [|done]. cbn [obj_class VERSION _context _attrs].
    pose proof (same_object_refl (mkNovaObject cls ver ctx attrs changed))
      as Hsame.
    inversion Hsame; subst. by constructor.
Qed.

Lemma reset_keeps_values_witness :
  ∃ self',
    obj_reset_changes ResetExample.a_changed_owner None true = OK self' ∧
    same_object ResetExample.a_changed_owner self' ∧
    _context self' = None ∧
    dict_keys (_attrs self') = ["child"; "n"].
Proof.
  exact (reset_keeps_values ResetExample.a_changed_owner None true eq_refl).
Defined.

(** ** The cut of a version to MAJOR.MINOR *)

(** X7.  What the retry of [_process_object] puts in place of the version:
    its tuple is the first two components of the version's tuple, so that it
    compares as MAJOR.MINOR; a version of at most one dot is left as it is,
    and cutting twice is cutting once. *)
Theorem major_minor_keeps_two (objver : string) :
  (∀ t, convert_version_to_tuple objver = OK t →
        convert_version_to_tuple (major_minor objver) = OK (take 2 t))
  ∧ ((str_count dot objver ≤ 1)%nat → major_minor objver = objver)
  ∧ major_minor (major_minor objver) = major_minor objver.
Proof.
  split; [|split].
  - intros t Ht. unfold convert_version_to_tuple in *.
    rewrite major_minor_split. by apply mapM_take.
  - intros Hdots. unfold major_minor.
    pose proof (str_split_length dot objver) as Hlen.
    rewrite take_ge by lia. apply str_join_split.
  - unfold major_minor at 1. rewrite major_minor_split.
    by rewrite take_take.
Qed.

Lemma major_minor_keeps_two_witness :
  convert_version_to_tuple (major_minor "1.5.1") = OK (take 2 [1; 5; 1])
  ∧ major_minor "1.5" = "1.5".
Proof.
  split.
  - exact (proj1 (major_minor_keeps_two "1.5.1") [1; 5; 1] eq_refl).
  - exact (proj1 (proj2 (major_minor_keeps_two "1.5")) (le_n 1)).
Defined.

(** ** A remotable call that goes to the remote end *)

Section RemoteCall.
Variable compatible : string → string → bool.
Variable registry : list (string * list NovaClass).

Lemma apply_update_stored self key v field v' :
  dict_get key (fields (obj_class self)) = Some field →
  stored field v = Some v' →
  apply_update compatible registry self key v
  = OK (obj_setattr key v' self).
Proof.
  intros Hfield. unfold apply_update, stored. rewrite Hfield.
  destruct v as [p|o|l].
  - destruct p; try (by intros [= <-]; destruct field);
      destruct field as [?|?|enc dec]; try done; simpl;
      (destruct (dec _) as [q|]; [by intros [= <-]|done]).
  - by intros [= <-].
  - destruct field; try done. by intros [= <-].
Qed.

Lemma apply_updates_get updates :
  NoDup (dict_keys updates) →
  ∀ self,
    (∀ k v field, (k, v) ∈ updates →
                  dict_get k (fields (obj_class self)) = Some field →
                  is_Some (stored field v)) →
    ∃ self',
      apply_updates compatible registry updates self = OK self' ∧
      obj_class self' = obj_class self ∧ VERSION self' = VERSION self ∧
      _context self' = _context self ∧
      ∀ k, dict_get k (_attrs self')
           = match dict_get k (fields (obj_class self)),
                   dict_get k updates with
             | Some field, Some v => stored field v
             | _, _ => dict_get k (_attrs self)
             end.
Proof.
  unfold dict_keys.
  induction updates as [|[key v] updates IH]; intros Hnodup self Hok.
  - exists self. repeat split; try done. intros k. simpl.
    by destruct (dict_get k (fields (obj_class self))).
  - simpl in Hnodup. apply NoDup_cons in Hnodup as [Hkey Hnodup].
    assert (Hfresh : dict_get key updates = None) by (by apply dict_get_None).
    cbn [apply_updates].
    destruct (dict_get key (fields (obj_class self))) as [field|] eqn:Hfield.
    + destruct (Hok key v field (list_elem_of_here _ _) Hfield) as [v' Hv'].
      rewrite (apply_update_stored _ _ _ _ _ Hfield Hv').
      destruct (IH Hnodup (obj_setattr key v' self))
        as (self' & -> & Hcls & Hver & Hctx & Hget).
      { intros k w f Hin. apply Hok. by apply list_elem_of_further. }
      exists self'. repeat split; try done. intros k. rewrite Hget.
      simpl. destruct (decide (k = key)) as [->|Hne].
      * by rewrite Hfield, Hfresh, dict_get_set_eq.
      * by rewrite dict_get_set_ne by done.
    + assert (Hskip : apply_update compatible registry self key v = OK self)
        by (unfold apply_update; by rewrite Hfield).
      rewrite Hskip.
      destruct (IH Hnodup self) as (self' & -> & Hcls & Hver & Hctx & Hget).
      { intros k w f Hin. apply Hok. by apply list_elem_of_further. }
      exists self'. repeat split; try done. intros k. rewrite Hget.
      simpl. destruct (decide (k = key)) as [->|Hne]; [|done].
      by rewrite Hfield.
Qed.
End RemoteCall.

(** X8.  With an indirection API in place, a remotable call on a bound
    instance does not run the method: it sends the call away and takes over
    what comes back. Every update for a declared field replaces the field,
    updates under other keys are ignored, fields without an update keep what
    they held; the changed set is afterwards exactly the one the remote end
    reports, whatever it was before and whatever the updates touched; and
    the result is the remote end's. *)
Theorem remote_call_takes_reply (compatible : string → string → bool)
    (registry : list (string * list NovaClass)) (api : IndirectionAPI)
    (fn : Method) (self : NovaObject) (args : list pyarg)
    (kwargs : list (string * pyarg)) (ctx : RequestContext)
    (updates : list (string * value NovaObject)) (res : value NovaObject)
    (reported : gset string) :
  leading_context args = false →
  _context self = Some ctx →
  api ctx self (fn_name fn) args kwargs = OK (updates, res) →
  NoDup (dict_keys updates) →
  (∀ k v field, (k, v) ∈ updates →
                dict_get k (fields (obj_class self)) = Some field →
                is_Some (stored field v)) →
  reported_changes updates = OK reported →
  ∃ self',
    remotable compatible registry (Some api) fn self args kwargs
    = OK (self', res) ∧
    _changed_fields self' = reported ∧
    obj_class self' = obj_class self ∧ VERSION self' = VERSION self ∧
    _context self' = Some ctx ∧
    ∀ k, dict_get k (_attrs self')
         = match dict_get k (fields (obj_class self)), dict_get k updates with
           | Some field, Some v => stored field v
           | _, _ => dict_get k (_attrs self)
           end.
Proof.
  intros Hargs Hctx Hreply Hnodup Hok Hreported.
  destruct (apply_updates_get compatible registry updates Hnodup self Hok)
    as (self1 & Hself1 & Hcls & Hver & Hctx1 & Hget).
  unfold remotable. rewrite Hargs, Hctx, Hreply. simpl.
  rewrite Hself1, obj_reset_changes_unfold. simpl. rewrite Hreported.
  eexists. split; [done|]. simpl. rewrite Hcls, Hver, Hctx1, Hctx.
  by repeat split.
Qed.

Lemma remote_call_takes_reply_witness :
  ∃ self',
    remotable is_compatible [] (Some RemoteExample.an_api)
              RemotableExample.save RemotableExample.a_bound_owner [] []
    = OK (self', VPy (PStr "done")) ∧
    _changed_fields self' = {["n"]} ∧
    dict_get "n" (_attrs self') = Some (VPy (PInt 2)) ∧
    dict_get "later" (_attrs self') = None ∧
    dict_get "child" (_attrs self') = Some (VObj Examples.a_child).
Proof.
  destruct (remote_call_takes_reply is_compatible []
              RemoteExample.an_api RemotableExample.save
              RemotableExample.a_bound_owner [] []
              RemotableExample.a_context
              [("n", VPy (PInt 2)); ("later", VPy (PInt 9));
               ("obj_what_changed", VPy (PList [PStr "n"]))]
              (VPy (PStr "done")) {["n"]}
              eq_refl eq_refl eq_refl)
    as (self' & Hcall & Hchanged & _ & _ & _ & Hget).
  - apply (bool_decide_unpack _). by vm_compute.
  - intros k v field Hin Hfield. vm_compute in Hfield.
    apply elem_of_cons in Hin as [[= -> ->]|Hin];
      [injection Hfield as <-; by eexists|].
    apply elem_of_cons in Hin as [[= -> ->]|Hin]; [discriminate|].
    apply elem_of_cons in Hin as [[= -> ->]|Hin]; [discriminate|].
    by apply elem_of_nil in Hin.
  - reflexivity.
  - exists self'. split; [exact Hcall|]. split; [exact Hchanged|].
    split; [exact (Hget "n")|].
    split; [exact (Hget "later")|exact (Hget "child")].
Defined.

(** ** Defaults *)

Section DefaultsFacts.
Variable default : string → Field → option (value NovaObject).

(** What the loop does when every name it is given has a default. *)
Lemma set_defaults_loop_outcome attrs :
  ∀ self,
    Forall (λ attr, ∃ field d,
              dict_get attr (fields (obj_class self)) = Some field ∧
              default attr field = Some d) attrs →
    ∃ self',
      set_defaults_loop default attrs self = OK self' ∧
      obj_class self' = obj_class self ∧ VERSION self' = VERSION self ∧
      _context self' = _context self ∧
      (∀ k v, dict_get k (_attrs self) = Some v →
              dict_get k (_attrs self') = Some v) ∧
      (∀ k, k ∈ attrs → is_Some (dict_get k (_attrs self'))) ∧
      (∀ k, is_Some (dict_get k (_attrs self')) →
            is_Some (dict_get k (_attrs self)) ∨ k ∈ attrs) ∧
      (∀ k, k ∈ _changed_fields self' ↔
            k ∈ _changed_fields self ∨
            (k ∈ attrs ∧ dict_get k (_attrs self) = None)).
Proof.
  induction attrs as [|attr attrs IH]; intros self Hall.
  - exists self. repeat split; try done.
    + intros k Hk. by apply elem_of_nil in Hk.
    + by left.
    + by left.
    + intros [?|[Hk _]]; [done|]. by apply elem_of_nil in Hk.
  - apply Forall_cons_1 in Hall as [(field & d & Hfield & Hd) Hall].
    cbn [set_defaults_loop]. unfold dict_item. rewrite Hfield, Hd.
    set (self1 := if dict_has attr (_attrs self) then self
                  else obj_setattr attr d self).
    assert (Hcls1 : obj_class self1 = obj_class self)
      by (unfold self1; by destruct (dict_has attr (_attrs self))).
    destruct (IH self1) as (self' & -> & Hcls & Hver & Hctx & Hkeep
                            & Hset & Hfrom & Hchanged).
    { by rewrite Hcls1. }
    assert (Hkeep1 : ∀ k v, dict_get k (_attrs self) = Some v →
                            dict_get k (_attrs self1) = Some v).
    { intros k v Hv. unfold self1.
      destruct (dict_has attr (_attrs self)) eqn:Hhas; [done|]. simpl.
      rewrite dict_get_set_ne; [done|]. intros ->.
      apply not_true_iff_false in Hhas. apply Hhas, dict_has_true.
      apply dict_get_is_Some. by eexists. }
    assert (Hattr1 : is_Some (dict_get attr (_attrs self1))).
    { unfold self1. destruct (dict_has attr (_attrs self)) eqn:Hhas.
      - by apply dict_get_is_Some, dict_has_true.
      - simpl. rewrite dict_get_set_eq. by eexists. }
    exists self'. split; [done|].
    split; [by rewrite Hcls|]. split.
    { rewrite Hver. unfold self1. by destruct (dict_has attr (_attrs self)). }
    split.
    { rewrite Hctx. unfold self1. by destruct (dict_has attr (_attrs self)). }
    split; [|split; [|split]].
    + intros k v Hv. by apply Hkeep, Hkeep1.
    + intros k Hk. apply elem_of_cons in Hk as [->|Hk]; [|by apply Hset].
      destruct Hattr1 as [v Hv]. rewrite (Hkeep _ _ Hv). by eexists.
    + intros k Hk. apply Hfrom in Hk as [Hk|Hk];
        [|right; by apply list_elem_of_further].
      unfold self1 in Hk.
      destruct (dict_has attr (_attrs self)); [by left|]. simpl in Hk.
      apply dict_get_is_Some, dict_keys_set in Hk as [->|Hk].
      * right. apply list_elem_of_here.
      * left. by apply dict_get_is_Some.
    + intros k. rewrite Hchanged, elem_of_cons. unfold self1.
      destruct (dict_has attr (_attrs self)) eqn:Hhas.
      * apply dict_has_true, dict_get_is_Some in Hhas as [v Hv].
        split; [intros [?|[? ?]]; [by left|right; by split; [right|]]|].
        intros [?|[[->|?] Hnone]]; [by left|congruence|right; by split].
      * assert (Hnone : dict_get attr (_attrs self) = None).
        { apply dict_get_None. intros Hin. apply dict_has_true in Hin.
          congruence. }
        simpl. rewrite elem_of_union, elem_of_singleton. split.
        -- intros [[->|?]|[Hk Hk1]]; [right; by split; [left|]|by left|].
           right. split; [by right|].
           destruct (decide (k = attr)) as [->|Hne]; [done|].
           by rewrite dict_get_set_ne in Hk1.
        -- intros [?|[[->|Hk] Hk0]]; [left; by right|left; by left|].
           destruct (decide (k = attr)) as [->|Hne]; [left; by left|].
           right. split; [done|]. by rewrite dict_get_set_ne.
Qed.

Lemma defaulted_elem fs k :
  k ∈ defaulted default fs →
  ∃ field, (k, field) ∈ fs ∧ is_Some (default k field).
Proof.
  unfold defaulted. rewrite list_elem_of_fmap.
  intros ([k' field] & -> & Hin). apply list_elem_of_filter in Hin as [? ?].
  by exists field.
Qed.
Lemma set_defaults_loop_app before rest self :
  set_defaults_loop default (before ++ rest)%list self
  = let* self := set_defaults_loop default before self in
    set_defaults_loop default rest self.
Proof.
  revert self. induction before as [|attr before IH]; intros self;
    cbn [set_defaults_loop app]; [done|].
  destruct (dict_item attr (fields (obj_class self))) as [field|]; [|done].
  destruct (default attr field); [apply IH|done].
Qed.

(** Names that are all set already: the loop changes nothing. *)
Lemma set_defaults_loop_set attrs self :
  Forall (λ attr, ∃ field d,
            dict_get attr (fields (obj_class self)) = Some field ∧
            default attr field = Some d ∧
            is_Some (dict_get attr (_attrs self))) attrs →
  set_defaults_loop default attrs self = OK self.
Proof.
  induction 1 as [|attr attrs (field & d & Hfield & Hd & Hset) _ IH];
    cbn [set_defaults_loop]; [done|].
  unfold dict_item. rewrite Hfield, Hd.
  by rewrite (proj2 (dict_has_true _ _) (proj1 (dict_get_is_Some _ _) Hset)).
Qed.

Lemma names_to_work_on (self self' : NovaObject) (attrs : list string) :
  obj_class self' = obj_class self →
  match attrs with
  | [] => defaulted default (fields (obj_class self'))
  | _ => attrs
  end
  = match attrs with
    | [] => defaulted default (fields (obj_class self))
    | _ => attrs
    end.
Proof. by intros ->. Qed.
End DefaultsFacts.

(** X9.  [obj_set_defaults] without names, on a class whose field names are
    distinct: it returns; a field that was set keeps its value, every field
    with a declared default is set afterwards, no other field becomes set,
    and the fields it has set, and only those, are added to the changed set. *)
Theorem set_defaults_fills_unset
    (default : string → Field → option (value NovaObject))
    (self : NovaObject) :
  NoDup (dict_keys (fields (obj_class self))) →
  ∃ self',
    obj_set_defaults default self [] = OK self' ∧
    (∀ k v, dict_get k (_attrs self) = Some v →
            dict_get k (_attrs self') = Some v) ∧
    (∀ k field, (k, field) ∈ fields (obj_class self) →
                is_Some (default k field) →
                is_Some (dict_get k (_attrs self'))) ∧
    (∀ k, is_Some (dict_get k (_attrs self')) →
          is_Some (dict_get k (_attrs self)) ∨
          ∃ field, (k, field) ∈ fields (obj_class self) ∧
                   is_Some (default k field)) ∧
    (∀ k, k ∈ _changed_fields self' ↔
          k ∈ _changed_fields self ∨
          (dict_get k (_attrs self) = None ∧
           ∃ field, (k, field) ∈ fields (obj_class self) ∧
                    is_Some (default k field))).
Proof.
  intros Hnodup. unfold obj_set_defaults.
  destruct (set_defaults_loop_outcome default
              (defaulted default (fields (obj_class self))) self)
    as (self' & Hloop & _ & _ & _ & Hkeep & Hset & Hfrom & Hchanged).
  { apply Forall_forall. intros attr Hattr.
    apply defaulted_elem in Hattr as (field & Hin & [d Hd]).
    exists field, d. split; [by apply elem_of_dict_get|done]. }
  assert (Hin : ∀ k field, (k, field) ∈ fields (obj_class self) →
                  is_Some (default k field) →
                  k ∈ defaulted default (fields (obj_class self))).
  { intros k field Hk Hd. unfold defaulted. apply list_elem_of_fmap.
    exists (k, field). split; [done|]. by apply list_elem_of_filter. }
  exists self'. split; [done|]. split; [done|]. split; [|split].
  - intros k field Hk Hd. by apply Hset, (Hin k field).
  - intros k Hk. apply Hfrom in Hk as [?|Hk]; [by left|right].
    by apply defaulted_elem in Hk.
  - intros k. rewrite Hchanged. split.
    + intros [?|[Hk Hnone]]; [by left|right]. split; [done|].
      by apply defaulted_elem in Hk.
    + intros [?|(Hnone & field & Hk & Hd)]; [by left|right].
      split; [by apply (Hin k field)|done].
Qed.

Lemma set_defaults_fills_unset_witness :
  ∃ self',
    obj_set_defaults DefaultsExample.default DefaultsExample.a_deleted_one []
    = OK self' ∧
    dict_get "deleted" (_attrs self') = Some (VPy (PBool true)).
Proof.
  destruct (set_defaults_fills_unset DefaultsExample.default
              DefaultsExample.a_deleted_one)
    as (self' & Hcall & Hkeep & _).
  - apply (bool_decide_unpack _). by vm_compute.
  - exists self'. split; [exact Hcall|]. exact (Hkeep "deleted" _ eq_refl).
Defined.

(** X10.  [obj_set_defaults] with names. A name without a declared default
    is refused with [ObjectActionError] also when the field is set already,
    once the names before it have been worked off; and when all the names
    have defaults, calling again with the same names changes nothing more. *)
Theorem set_defaults_named
    (default : string → Field → option (value NovaObject))
    (self : NovaObject) (attrs : list string) :
  attrs ≠ [] →
  (∀ before attr after field reached,
     attrs = (before ++ attr :: after)%list →
     set_defaults_loop default before self = OK reached →
     dict_get attr (fields (obj_class self)) = Some field →
     default attr field = None →
     obj_set_defaults default self attrs
     = Raise (ObjectActionError "set_defaults"
                ("No default set for field " ++ attr)))
  ∧ (Forall (λ attr, ∃ field d,
               dict_get attr (fields (obj_class self)) = Some field ∧
               default attr field = Some d) attrs →
     ∃ self',
       obj_set_defaults default self attrs = OK self' ∧
       (∀ k v, dict_get k (_attrs self) = Some v →
               dict_get k (_attrs self') = Some v) ∧
       (∀ k, k ∈ attrs → is_Some (dict_get k (_attrs self'))) ∧
       obj_set_defaults default self' attrs = OK self').
Proof.
  intros Hne.
  assert (Hnames : ∀ o, obj_set_defaults default o attrs
                        = set_defaults_loop default attrs o).
  { intros o. unfold obj_set_defaults. by destruct attrs. }
  split.
  - intros before attr after field reached -> Hbefore Hfield Hnone.
    rewrite Hnames, set_defaults_loop_app, Hbefore.
    cbn [set_defaults_loop]. unfold dict_item.
    assert (Hcls : obj_class reached = obj_class self).
    { clear -Hbefore. revert self Hbefore.
      induction before as [|a before IH]; intros self; simpl;
        [by intros [= <-]|].
      destruct (dict_item a (fields (obj_class self))) as [f|]; [|done].
      destruct (default a f) as [d|]; [|done]. intros Hloop.
      rewrite (IH _ Hloop).
      by destruct (dict_has a (_attrs self)). }
    by rewrite Hcls, Hfield, Hnone.
  - intros Hall.
    destruct (set_defaults_loop_outcome default attrs self Hall)
      as (self' & Hloop & Hcls & _ & _ & Hkeep & Hset & _).
    exists self'. rewrite !Hnames. split; [done|]. split; [done|].
    split; [done|]. apply set_defaults_loop_set.
    rewrite Forall_forall in Hall |- *. intros attr Hattr.
    destruct (Hall attr Hattr) as (field & d & Hfield & Hd).
    exists field, d. rewrite Hcls. by repeat split; [..|apply Hset].
Qed.

Lemma set_defaults_named_witness :
  obj_set_defaults DefaultsExample.default DefaultsExample.a_deleted_one
                   ["deleted"; "deleted_at"]
  = Raise (ObjectActionError "set_defaults"
             "No default set for field deleted_at").
Proof.
  apply (proj1 (set_defaults_named DefaultsExample.default
                  DefaultsExample.a_deleted_one ["deleted"; "deleted_at"]
                  ltac:(discriminate))
               ["deleted"] "deleted_at" [] (PlainField id OK)
               DefaultsExample.a_deleted_one);
    reflexivity.
Defined.

(** ** Copies of an instance *)

Lemma foldl_ext_elem {A B} (f g : A → B → A) l :
  (∀ a b, b ∈ l → f a b = g a b) → ∀ a, foldl f a l = foldl g a l.
Proof.
  induction l as [|b l IH]; intros Hfg a; simpl; [done|].
  rewrite (Hfg a b) by apply list_elem_of_here.
  apply IH. intros a' b' Hin. apply Hfg. by apply list_elem_of_further.
Qed.

Lemma deepcopy_unfold self :
  deepcopy self
  = set_changed_fields (_changed_fields self)
      (foldl (λ nobj name,
                match copy_value <$> dict_get name (_attrs self) with
                | Some nval => obj_setattr name nval nobj
                | None => nobj
                end)
             (set_context (_context self) (new_object (obj_class self)))
             (dict_keys (fields (obj_class self)))).
Proof.
  destruct self as [cls ver ctx attrs changed]. simpl. f_equal.
  apply foldl_ext_elem. intros nobj name _.
  by rewrite dict_get_with_get.
Qed.

(** What the loop of [__deepcopy__] leaves in the new instance. *)
Lemma deepcopy_loop attrs keys :
  ∀ nobj,
    let copied :=
      foldl (λ nobj name,
               match copy_value <$> dict_get name attrs with
               | Some nval => obj_setattr name nval nobj
               | None => nobj
               end) nobj keys in
    obj_class copied = obj_class nobj ∧ VERSION copied = VERSION nobj ∧
    _context copied = _context nobj ∧
    ∀ k, dict_get k (_attrs copied)
         = match (if bool_decide (k ∈ keys)
                  then copy_value <$> dict_get k attrs else None) with
           | Some v => Some v
           | None => dict_get k (_attrs nobj)
           end.
Proof.
  induction keys as [|name keys IH]; intros nobj; simpl.
  { by repeat (split; [done|]). }
  destruct (IH (match copy_value <$> dict_get name attrs with
                | Some nval => obj_setattr name nval nobj
                | None => nobj
                end)) as (Hcls & Hver & Hctx & Hget).
  rewrite Hcls, Hver, Hctx.
  split; [by destruct (copy_value <$> dict_get name attrs)|].
  split; [by destruct (copy_value <$> dict_get name attrs)|].
  split; [by destruct (copy_value <$> dict_get name attrs)|].
  intros k. rewrite Hget.
  destruct (decide (k = name)) as [->|Hne].
  - rewrite (bool_decide_eq_true_2 (name ∈ name :: keys))
      by apply list_elem_of_here.
    destruct (bool_decide (name ∈ keys));
      destruct (copy_value <$> dict_get name attrs) as [nval|] eqn:Hval;
      try done.
    simpl. apply dict_get_set_eq.
  - assert (Hsame : bool_decide (k ∈ name :: keys) = bool_decide (k ∈ keys)).
    { apply bool_decide_ext. rewrite elem_of_cons. naive_solver. }
    rewrite Hsame.
    destruct (if bool_decide (k ∈ keys) then _ else _); [done|].
    destruct (copy_value <$> dict_get name attrs); [|done].
    simpl. by rewrite dict_get_set_ne.
Qed.

Lemma deepcopy_parts self :
  obj_class (deepcopy self) = obj_class self ∧
  VERSION (deepcopy self) = cls_VERSION (obj_class self) ∧
  _context (deepcopy self) = _context self ∧
  _changed_fields (deepcopy self) = _changed_fields self ∧
  ∀ k, dict_get k (_attrs (deepcopy self))
       = if bool_decide (k ∈ dict_keys (fields (obj_class self)))
         then copy_value <$> dict_get k (_attrs self) else None.
Proof.
  rewrite deepcopy_unfold.
  destruct (deepcopy_loop (_attrs self)
              (dict_keys (fields (obj_class self)))
              (set_context (_context self) (new_object (obj_class self))))
    as (Hcls & Hver & Hctx & Hget).
  simpl in *. repeat (split; [done|]).
  intros k. rewrite Hget.
  by destruct (if bool_decide _ then _ else _).
Qed.

Lemma deepcopy_get self key field :
  (key, field) ∈ fields (obj_class self) →
  dict_get key (_attrs (deepcopy self))
  = copy_value <$> dict_get key (_attrs self).
Proof.
  intros Hin. destruct (deepcopy_parts self) as (_ & _ & _ & _ & ->).
  rewrite bool_decide_eq_true_2; [done|].
  unfold dict_keys. apply list_elem_of_fmap. by exists (key, field).
Qed.

Section LoopsAlike.
Variables (self self' : NovaObject).

Lemma make_compatible_loop_ext
    (backport_field backport_field'
       : prim → string → value NovaObject → result prim) fs :
  obj_class self' = obj_class self →
  (∀ key field primitive, (key, field) ∈ fs →
     dict_get_with (backport_field' primitive key) key (_attrs self')
     = dict_get_with (backport_field primitive key) key (_attrs self)) →
  ∀ primitive,
    make_compatible_loop self' backport_field' fs primitive
    = make_compatible_loop self backport_field fs primitive.
Proof.
  intros Hcls. induction fs as [|[key field] fs IH]; intros Hsame primitive;
    simpl; [done|].
  assert (Hrest : ∀ primitive,
            make_compatible_loop self' backport_field' fs primitive
            = make_compatible_loop self backport_field fs primitive).
  { apply IH. intros k f p Hin. apply (Hsame k f p).
    by apply list_elem_of_further. }
  destruct (negb (is_composed field)); [apply Hrest|].
  rewrite (Hsame key field primitive) by apply list_elem_of_here.
  rewrite Hcls.
  destruct (dict_get_with _ key (_attrs self)) as [backported|];
    [|apply Hrest].
  destruct (negb (dict_has key _)); [done|].
  destruct backported; [apply Hrest|done].
Qed.

Lemma to_primitive_loop_ext
    (to_primitive_field : Field → value NovaObject → result prim) fs :
  (∀ name field, (name, field) ∈ fs →
     dict_get_with (to_primitive_field field) name (_attrs self')
     = dict_get_with (to_primitive_field field) name (_attrs self)) →
  ∀ acc,
    to_primitive_loop (_attrs self') to_primitive_field fs acc
    = to_primitive_loop (_attrs self) to_primitive_field fs acc.
Proof.
  induction fs as [|[name field] fs IH]; intros Hsame acc; simpl; [done|].
  assert (Hrest : ∀ acc,
            to_primitive_loop (_attrs self') to_primitive_field fs acc
            = to_primitive_loop (_attrs self) to_primitive_field fs acc).
  { apply IH. intros k f Hin. apply Hsame. by apply list_elem_of_further. }
  rewrite (Hsame name field) by apply list_elem_of_here.
  destruct (dict_get_with _ name (_attrs self)) as [[p|e]|];
    [apply Hrest|done|apply Hrest].
Qed.
End LoopsAlike.

Lemma backport_elements_copies
    (make_compatible : NovaObject → prim → string → result prim)
    to_version l :
  Forall (λ o, ∀ p v, make_compatible (deepcopy o) p v
                      = make_compatible o p v) l →
  ∀ i plist,
    backport_elements make_compatible to_version i (deepcopy <$> l) plist
    = backport_elements make_compatible to_version i l plist.
Proof.
  induction 1 as [|o l Ho _ IH]; intros i plist; simpl; [done|].
  destruct (prim_index i plist) as [pelem|]; [|done]. simpl.
  destruct (prim_item _ pelem) as [data|]; [|done]. simpl.
  rewrite Ho. destruct (make_compatible o data to_version); [|done]. simpl.
  destruct (prim_setitem _ _ pelem) as [pelem'|]; [|done]. simpl.
  destruct (prim_setitem _ _ pelem') as [pelem''|]; [|done]. simpl.
  destruct (prim_setindex i pelem'' plist); [|done]. simpl.
  apply IH.
Qed.

Lemma _do_backport_copies
    (make_compatible : NovaObject → prim → string → result prim)
    to_version val pfield :
  value_Forall (λ o, ∀ p v, make_compatible (deepcopy o) p v
                            = make_compatible o p v) val →
  _do_backport make_compatible to_version (copy_value val) pfield
  = _do_backport make_compatible to_version val pfield.
Proof.
  destruct val as [pv|o|l]; intros Hval; [done| |].
  - simpl in *. destruct pfield as [pchild|]; [|done]. simpl.
    destruct (prim_item _ pchild) as [cver|]; [|done]. simpl.
    destruct (version_is to_version cver); [done|].
    destruct (prim_item _ pchild) as [data|]; [|done]. simpl.
    by rewrite Hval.
  - destruct l as [|o l]; [done|].
    pose proof (backport_elements_copies make_compatible to_version
                  (o :: l) Hval) as Hsame.
    unfold copy_value, _do_backport.
    assert (Hcons : ∃ o' l', deepcopy <$> o :: l = o' :: l')
      by (by eexists _, _).
    destruct Hcons as (o' & l' & Hcons). rewrite Hcons in Hsame |- *.
    cbv beta iota. destruct pfield as [plist|]; [|done].
    by rewrite Hsame.
Qed.

Lemma field_to_primitive_copies (to_primitive_obj : NovaObject → result prim)
    field val :
  value_Forall (λ o, to_primitive_obj (deepcopy o) = to_primitive_obj o) val →
  field_to_primitive to_primitive_obj field (copy_value val)
  = field_to_primitive to_primitive_obj field val.
Proof.
  destruct val as [pv|o|l]; intros Hval; [done| |].
  - destruct field; simpl in *; [done|done|done].
  - assert (Hall : mapM to_primitive_obj (deepcopy <$> l)
                   = mapM to_primitive_obj l).
    { induction Hval as [|o l Ho _ IHl]; [done|].
      change (deepcopy <$> o :: l) with (deepcopy o :: (deepcopy <$> l)).
      simpl. by rewrite Ho, IHl. }
    destruct field; unfold copy_value, field_to_primitive; try done.
    by rewrite Hall.
Qed.

Lemma at_class_version_unfold cls ver ctx attrs changed :
  at_class_version (mkNovaObject cls ver ctx attrs changed) = true ↔
  ver = cls_VERSION cls ∧
  ∀ k v, (k, v) ∈ attrs →
         match v with
         | VPy _ => True
         | VObj o => at_class_version o = true
         | VObjs l => Forall (λ o, at_class_version o = true) l
         end.
Proof.
  simpl. rewrite andb_true_iff, bool_decide_eq_true, forallb_forall.
  apply and_iff_compat_l. split.
  - intros Hall k v Hin. apply list_elem_of_In, Hall in Hin. simpl in Hin.
    destruct v as [p|o|l]; [done|done|].
    apply Forall_forall. intros o Ho.
    rewrite forallb_forall in Hin. by apply Hin, list_elem_of_In.
  - intros Hall [k v] Hin. apply list_elem_of_In, Hall in Hin. simpl.
    destruct v as [p|o|l]; [done|done|].
    apply forallb_forall. intros o Ho.
    rewrite Forall_forall in Hin. by apply Hin, list_elem_of_In.
Qed.

(** A copy has the same changes, is backported the same way and, when
    the versions are those of the classes, serializes the same way. *)
Lemma deepcopy_alike self :
  obj_what_changed (deepcopy self) = obj_what_changed self ∧
  (∀ p v, obj_make_compatible (deepcopy self) p v
          = obj_make_compatible self p v) ∧
  (at_class_version self = true →
   ∀ target_version,
     obj_to_primitive (deepcopy self) target_version
     = obj_to_primitive self target_version).
Proof.
  induction self as [cls ver ctx attrs changed IH]
    using NovaObject_nested_ind.
  remember (mkNovaObject cls ver ctx attrs changed) as self eqn:Hself.
  assert (Hparts : obj_class self = cls ∧ VERSION self = ver ∧
                   _attrs self = attrs) by (by subst self).
  destruct Hparts as (Hc & Hv & Ha).
  destruct (deepcopy_parts self) as (Hcls & Hver & Hctx & Hchanged & Hget).
  rewrite Hc in Hcls, Hver, Hget. rewrite Ha in Hget.
  assert (Hchanges :
            obj_what_changed (deepcopy self) = obj_what_changed self).
  { rewrite !obj_what_changed_unfold, Hcls, Hchanged, Hc, Ha.
    apply foldl_ext_elem. intros changes field Hin.
    unfold holds_changed. rewrite Hget, bool_decide_eq_true_2 by done.
    simpl. destruct (dict_get field attrs) as [[p|o|l]|] eqn:Hfield;
      simpl; try done.
    apply (value_Forall_get _ _ _ _ IH) in Hfield as (-> & _). done. }
  assert (Hbackport : ∀ p v, obj_make_compatible (deepcopy self) p v
                             = obj_make_compatible self p v).
  { intros p v. rewrite !obj_make_compatible_unfold, Hcls, Hc.
    apply make_compatible_loop_ext; [by rewrite Hc|].
    intros key field primitive Hin.
    rewrite !dict_get_with_get, (deepcopy_get self key field), Ha
      by (by rewrite Hc).
    simpl. destruct (dict_get key attrs) as [val|] eqn:Hval; simpl; [|done].
    f_equal. unfold _obj_make_obj_compatible, obj_calculate_child_version.
    rewrite Hcls, Hc. simpl.
    destruct (convert_version_to_tuple v) as [target|]; [|done]. simpl.
    destruct (dict_item key (obj_relationships cls)) as [table|]; [|done].
    simpl. destruct (calculate_from _ _ _ _) as [[to_version|]|]; try done.
    simpl. apply (value_Forall_get _ _ _ _ IH) in Hval.
    rewrite _do_backport_copies; [done|].
    destruct val as [pv|o|l]; simpl in Hval |- *; [done|by apply Hval|].
    eapply Forall_impl; [exact Hval|]. by intros o' (_ & Ho' & _). }
  split; [done|]. split; [done|].
  intros Hat target_version.
  rewrite Hself in Hat. apply at_class_version_unfold in Hat as [Hat_ver Hat].
  rewrite !obj_to_primitive_unfold, Hcls, Hver, Hc, Hv, Hat_ver.
  assert (Hloop : ∀ acc,
            to_primitive_loop (_attrs (deepcopy self))
              (field_to_primitive (λ o, obj_to_primitive o None))
              (fields cls) acc
            = to_primitive_loop (_attrs self)
                (field_to_primitive (λ o, obj_to_primitive o None))
                (fields cls) acc).
  { apply to_primitive_loop_ext. intros name field Hin.
    rewrite !dict_get_with_get, (deepcopy_get self name field), Ha
      by (by rewrite Hc).
    simpl. destruct (dict_get name attrs) as [val|] eqn:Hval; simpl; [|done].
    f_equal. pose proof (Hat _ _ (dict_get_elem_of _ _ _ Hval)) as Hinner.
    apply (value_Forall_get _ _ _ _ IH) in Hval.
    apply field_to_primitive_copies.
    destruct val as [pv|o|l]; simpl in Hval, Hinner |- *;
      [done|by apply Hval|].
    apply Forall_forall. intros o Ho. rewrite Forall_forall in Hval, Hinner.
    by apply (Hval o Ho), Hinner. }
  rewrite Hloop. simpl.
  destruct (to_primitive_loop _ _ _ _) as [primitive|]; [|done]. simpl.
  rewrite Hbackport.
  destruct (if truthy_str target_version then _ else _); [|done]. simpl.
  unfold wire_envelope. by rewrite Hchanges, Hcls, Hc.
Qed.

(** X11.  [obj_clone] gives an instance of the same class, bound to the same
    context, with the same changed set and the same answer of
    [obj_what_changed]; it holds a copy of every declared field that was set
    and nothing else, so attributes outside [fields] are not carried over;
    and its [VERSION] is the one of the class, whatever the original's was.
    When the original and the instances inside it are at their classes'
    versions, the copy serializes to the same primitive, for every target
    version. *)
Theorem clone_serializes_alike (self : NovaObject) :
  obj_class (obj_clone self) = obj_class self ∧
  _context (obj_clone self) = _context self ∧
  VERSION (obj_clone self) = cls_VERSION (obj_class self) ∧
  _changed_fields (obj_clone self) = _changed_fields self ∧
  obj_what_changed (obj_clone self) = obj_what_changed self ∧
  (∀ name, dict_get name (_attrs (obj_clone self))
           = if bool_decide (name ∈ dict_keys (fields (obj_class self)))
             then copy_value <$> dict_get name (_attrs self) else None) ∧
  (at_class_version self = true →
   ∀ target_version,
     obj_to_primitive (obj_clone self) target_version
     = obj_to_primitive self target_version).
Proof.
  unfold obj_clone.
  destruct (deepcopy_parts self) as (Hcls & Hver & Hctx & Hchanged & Hget).
  destruct (deepcopy_alike self) as (Hchanges & _ & Hprim).
  done.
Qed.

Lemma clone_serializes_alike_witness :
  at_class_version RoundTripExample.a_full_owner = true ∧
  obj_to_primitive (obj_clone RoundTripExample.a_full_owner) (Some "1.0")
  = obj_to_primitive RoundTripExample.a_full_owner (Some "1.0").
Proof.
  split; [by vm_compute|].
  apply (clone_serializes_alike RoundTripExample.a_full_owner).
  by vm_compute.
Defined.

(** The copy of an instance hydrated at an older version answers with the
    version of its class. *)
Example clone_of_older_version :
  VERSION CloneExample.an_older_foo = "1.1" ∧
  VERSION (obj_clone CloneExample.an_older_foo) = "1.3".
Proof. by vm_compute. Qed.

(** ** The values of the changed fields *)

Lemma mapM_Raise {A B} (f : A → result B) l a :
  a ∈ l → (∃ e, f a = Raise e) → ∃ e, mapM f l = Raise e.
Proof.
  intros Hin [e He]. induction l as [|x l IH]; [by apply elem_of_nil in Hin|].
  simpl. apply elem_of_cons in Hin as [<-|Hin].
  - rewrite He. by eexists.
  - destruct (f x) as [b|e']; [|by eexists].
    destruct (IH Hin) as [e'' ->]. by eexists.
Qed.

Lemma changed_entries self changes :
  obj_get_changes self = OK changes →
  changes.*1 = elements (obj_what_changed self) ∧
  Forall (λ kv, dict_get kv.1 (_attrs self) = Some kv.2) changes.
Proof.
  unfold obj_get_changes. intros Hchanges. apply mapM_Forall2 in Hchanges.
  induction Hchanges as [|key kv keys changes Hkv _ [IHkeys IHall]];
    [done|].
  unfold obj_getattr in Hkv.
  destruct (dict_get key (_attrs self)) as [v|] eqn:Hv;
    [|by destruct (bool_decide _)].
  injection Hkv as <-. split; [|by constructor].
  rewrite fmap_cons. simpl. by f_equal.
Qed.

(** X12.  On a well-formed instance [obj_get_changes] returns, for each name
    that [obj_what_changed] reports and for no other, the value the field
    holds, the names of fields that hold a changed instance included. Where
    a name is reported as changed and nothing is stored under it, the call
    raises instead. *)
Theorem get_changes_entries (self : NovaObject) :
  (well_formed self = true →
   ∃ changes,
     obj_get_changes self = OK changes ∧
     dict_keys changes = elements (obj_what_changed self) ∧
     ∀ key v, dict_get key changes = Some v ↔
              key ∈ obj_what_changed self ∧
              dict_get key (_attrs self) = Some v) ∧
  (∀ key, key ∈ obj_what_changed self →
          dict_get key (_attrs self) = None →
          ∃ e, obj_get_changes self = Raise e).
Proof.
  split.
  - intros Hwf. destruct (obj_get_changes_total self Hwf) as [changes Hc].
    exists changes. split; [done|].
    destruct (changed_entries self changes Hc) as [Hkeys Hall].
    split; [done|]. intros key v.
    assert (Hnodup : NoDup (dict_keys changes)).
    { unfold dict_keys. rewrite Hkeys. apply NoDup_elements. }
    rewrite Forall_forall in Hall. split.
    + intros Hget. pose proof (dict_get_elem_of _ _ _ Hget) as Hin.
      split; [|exact (Hall _ Hin)].
      apply elem_of_elements. rewrite <- Hkeys.
      apply list_elem_of_fmap. by exists (key, v).
    + intros [Hkey Hv].
      apply elem_of_elements in Hkey. rewrite <- Hkeys in Hkey.
      apply list_elem_of_fmap in Hkey as ([k w] & -> & Hin).
      pose proof (Hall _ Hin) as Hw. simpl in *.
      rewrite Hv in Hw. injection Hw as <-.
      by apply elem_of_dict_get.
  - intros key Hkey Hunset. unfold obj_get_changes.
    apply (mapM_Raise _ _ key); [by apply elem_of_elements|].
    unfold obj_getattr. rewrite Hunset.
    destruct (bool_decide _); by eexists.
Qed.

Lemma get_changes_entries_witness :
  ∃ changes,
    obj_get_changes ResetExample.a_changed_owner = OK changes ∧
    dict_get "child" changes = Some (VObj Examples.a_child) ∧
    dict_get "kids" changes = None.
Proof.
  destruct (proj1 (get_changes_entries ResetExample.a_changed_owner)
              eq_refl) as (changes & Hchanges & _ & Hget).
  exists changes. split; [exact Hchanges|]. split.
  - apply Hget. split; [|reflexivity].
    apply (bool_decide_unpack _). by vm_compute.
  - destruct (dict_get "kids" changes) as [v|] eqn:Hkids; [|reflexivity].
    apply Hget in Hkids as [_ Hheld]. discriminate Hheld.
Defined.

(** ** Blocks under another context, and class methods *)

Lemma set_context_twice c c' (o : NovaObject) :
  set_context c (set_context c' o) = set_context c o.
Proof. done. Qed.

Lemma set_context_own (o : NovaObject) : set_context (_context o) o = o.
Proof. by destruct o. Qed.

(** X13.  A block run under [obj_alternate_context] sees the given context,
    and the instance has its own context back afterwards, whether the block
    returns or raises and whatever the block did to the context; a block
    that leaves the instance alone leaves it exactly as it was. Of two
    nested blocks the inner one's context is the one in force, and unwinding
    both gives the original back. [obj_as_admin] on an unbound instance
    raises [OrphanedObjectError] without running the block; on a bound one
    it is [obj_alternate_context] with the elevated context. *)
Theorem context_blocks_restore {R : Type}
    (elevated : RequestContext → RequestContext) (self : NovaObject)
    (block : NovaObject → NovaObject * result R) :
  (∀ context,
     _context (obj_alternate_context self context block).1 = _context self ∧
     (obj_alternate_context self context block).2
     = (block (set_context context self)).2 ∧
     ((block (set_context context self)).1 = set_context context self →
      (obj_alternate_context self context block).1 = self)) ∧
  (∀ outer inner,
     obj_alternate_context self outer
       (λ o, obj_alternate_context o inner block)
     = obj_alternate_context self inner block) ∧
  (_context self = None →
   obj_as_admin elevated self block
   = (self, Raise (OrphanedObjectError "obj_as_admin"
                     (obj_name (obj_class self))))) ∧
  (∀ ctx, _context self = Some ctx →
          obj_as_admin elevated self block
          = obj_alternate_context self (Some (elevated ctx)) block).
Proof.
  split; [|split; [|split]].
  - intros context. unfold obj_alternate_context. simpl.
    split; [done|]. split; [done|].
    intros ->. by rewrite set_context_twice, set_context_own.
  - intros outer inner. unfold obj_alternate_context. simpl.
    by rewrite !set_context_twice.
  - intros Horphan. unfold obj_as_admin. by rewrite Horphan.
  - intros ctx Hctx. unfold obj_as_admin, obj_alternate_context.
    by rewrite Hctx.
Qed.

Lemma context_blocks_restore_witness :
  obj_as_admin ContextExample.elevated RemotableExample.a_bound_owner
               ContextExample.a_block
  = (RemotableExample.a_bound_owner, OK true).
Proof.
  destruct (context_blocks_restore ContextExample.elevated
              RemotableExample.a_bound_owner ContextExample.a_block)
    as (_ & _ & _ & Hadmin).
  rewrite (Hadmin RemotableExample.a_context eq_refl). reflexivity.
Defined.

(** X14.  Run locally, a remotable class method that returns an instance
    hands it out bound to the caller's context, whatever context the method
    had left on it, so that a remotable method called on it next runs its
    body and is not refused as orphaned. A list of instances that the method
    returns is handed out as it is, its elements not rebound. With an
    indirection API in place the method is not run and the API's answer is
    returned untouched. *)
Theorem classmethod_binds_result (compatible : string → string → bool)
    (registry : list (string * list NovaClass)) (cm : ClassMethod)
    (cls : NovaClass) (ctx : RequestContext) (cargs : list pyarg)
    (ckwargs : list (string * pyarg)) :
  (∀ o fn args kwargs,
     cm_body cm cls (Some ctx) cargs ckwargs = OK (VObj o) →
     leading_context args = false →
     ∃ o',
       remotable_classmethod None cm cls (Some ctx) cargs ckwargs
       = OK (VObj o') ∧
       o' = set_context (Some ctx) o ∧
       remotable compatible registry None fn o' args kwargs
       = fn_body fn o' args kwargs) ∧
  (∀ l, cm_body cm cls (Some ctx) cargs ckwargs = OK (VObjs l) →
        remotable_classmethod None cm cls (Some ctx) cargs ckwargs
        = OK (VObjs l)) ∧
  (∀ api : ClassActionAPI,
     remotable_classmethod (Some api) cm cls (Some ctx) cargs ckwargs
     = api (Some ctx) (obj_name cls) (cm_name cm) (cls_VERSION cls)
           cargs ckwargs).
Proof.
  split; [|split].
  - intros o fn args kwargs Hbody Hargs. exists (set_context (Some ctx) o).
    unfold remotable_classmethod, remotable. rewrite Hbody, Hargs. done.
  - intros l Hbody. unfold remotable_classmethod. by rewrite Hbody.
  - done.
Qed.

Lemma classmethod_binds_result_witness :
  ∃ o',
    remotable_classmethod None ContextExample.get_by_id Examples.Owner
                          (Some RemotableExample.a_context) [] []
    = OK (VObj o') ∧
    o' = RemotableExample.a_bound_owner ∧
    remotable is_compatible [] None RemotableExample.save o' [] []
    = OK (o', VPy PNone).
Proof.
  destruct (classmethod_binds_result is_compatible []
              ContextExample.get_by_id Examples.Owner
              RemotableExample.a_context [] [])
    as (Hbound & _ & _).
  destruct (Hbound Examples.an_owner RemotableExample.save [] []
              eq_refl eq_refl) as (o' & Hcall & -> & Hnext).
  eexists. split; [exact Hcall|]. split; [reflexivity|]. exact Hnext.
Defined.

(** ** Comparing instances by their primitives *)

Lemma prim_nested_ind (P : prim → Prop) :
  P PNone → (∀ b, P (PBool b)) → (∀ z, P (PInt z)) → (∀ s, P (PStr s)) →
  (∀ l, Forall P l → P (PList l)) →
  (∀ d, Forall (λ kv, P kv.2) d → P (PDict d)) →
  ∀ p, P p.
Proof.
  intros HNone HBool HInt HStr HList HDict. fix IH 1.
  intros [|b|z|s|l|d]; [done|done|done|done| |].
  - apply HList. induction l as [|p l IHl]; constructor; [apply IH|done].
  - apply HDict. induction d as [|[k p] d IHd]; constructor; [apply IH|done].
Qed.

Lemma py_eq_refl p : py_eq p p = true.
Proof.
  induction p as [|b|z|s|l IH|d IH] using prim_nested_ind; simpl.
  - done.
  - by destruct b.
  - apply Z.eqb_refl.
  - by apply bool_decide_eq_true_2.
  - induction IH as [|p l Hp _ IHl]; [done|]. by rewrite Hp, IHl.
  - apply andb_true_iff. split; apply forallb_forall; intros k Hk;
      apply list_elem_of_In in Hk.
    + rewrite dict_get_with_get.
      apply dict_get_is_Some in Hk as [v Hv]. rewrite Hv. simpl.
      rewrite dict_get_with_get, Hv. simpl.
      rewrite Forall_forall in IH.
      exact (IH (k, v) (dict_get_elem_of _ _ _ Hv)).
    + by apply dict_has_true.
Qed.

(** What equal dicts agree on. *)
Lemma py_eq_dict d1 d2 k v1 :
  py_eq (PDict d1) (PDict d2) = true →
  dict_get k d1 = Some v1 →
  ∃ v2, dict_get k d2 = Some v2 ∧ py_eq v1 v2 = true.
Proof.
  simpl. rewrite andb_true_iff, forallb_forall. intros [Hall _] Hv1.
  assert (Hk : In k (dict_keys d1)).
  { apply list_elem_of_In, dict_get_is_Some. by eexists. }
  apply Hall in Hk. rewrite dict_get_with_get, Hv1 in Hk. simpl in Hk.
  rewrite dict_get_with_get in Hk.
  destruct (dict_get k d2) as [v2|]; [|done]. by exists v2.
Qed.

Section StripFacts.
Variable keys : list string.

Lemma _strip_dict d : _strip keys (PDict d) = PDict (strip_items keys d).
Proof.
  reflexivity.
Qed.

Lemma strip_items_get d k :
  dict_get k (strip_items keys d)
  = if bool_decide (k ∈ keys) then None else _strip keys <$> dict_get k d.
Proof.
  induction d as [|[k' v] d IH]; simpl.
  - by destruct (bool_decide (k ∈ keys)).
  - destruct (decide (k = k')) as [<-|Hne].
    + destruct (bool_decide (k ∈ keys)) eqn:Hk; [done|].
      simpl. by rewrite decide_True.
    + destruct (bool_decide (k' ∈ keys)); [done|].
      simpl. by rewrite decide_False.
Qed.

Lemma strip_items_set k p d :
  strip_items keys (dict_set k p d)
  = if bool_decide (k ∈ keys) then strip_items keys d
    else dict_set k (_strip keys p) (strip_items keys d).
Proof.
  induction d as [|[k' v] d IH]; simpl.
  - by destruct (bool_decide (k ∈ keys)).
  - destruct (decide (k = k')) as [<-|Hne]; simpl.
    + destruct (bool_decide (k ∈ keys)); [done|].
      simpl. by rewrite decide_True.
    + rewrite IH.
      destruct (bool_decide (k' ∈ keys)), (bool_decide (k ∈ keys));
        try done.
      simpl. by rewrite decide_False.
Qed.

(** The envelope without what is stripped from it. *)
Lemma _strip_envelope self version data :
  "nova_object.changes" ∈ keys →
  _strip keys (wire_envelope self version data)
  = PDict (strip_items keys
             [("nova_object.name", PStr (obj_name (obj_class self)));
              ("nova_object.namespace", PStr "nova");
              ("nova_object.version", PStr version);
              ("nova_object.data", data)]).
Proof.
  intros Hkey. unfold wire_envelope. rewrite _strip_dict.
  destruct (bool_decide (obj_what_changed self ≠ ∅)); [|done].
  by rewrite strip_items_set, bool_decide_eq_true_2.
Qed.

Lemma to_primitive_loop_alike attrs1 attrs2
    (to_primitive_field : Field → value NovaObject → result prim) fs :
  (∀ name field, (name, field) ∈ fs →
     option_Forall2
       (λ v1 v2, ∀ p1, to_primitive_field field v1 = OK p1 →
                       ∃ p2, to_primitive_field field v2 = OK p2 ∧
                             alike keys p1 p2)
       (dict_get name attrs1) (dict_get name attrs2)) →
  ∀ acc1 acc2 d1,
    strip_items keys acc1 = strip_items keys acc2 →
    to_primitive_loop attrs1 to_primitive_field fs acc1 = OK d1 →
    ∃ d2, to_primitive_loop attrs2 to_primitive_field fs acc2 = OK d2 ∧
          strip_items keys d1 = strip_items keys d2.
Proof.
  induction fs as [|[name field] fs IH]; intros Hsame acc1 acc2 d1 Hacc;
    simpl.
  { intros [= <-]. by exists acc2. }
  assert (Hrest : ∀ name field, (name, field) ∈ fs →
            option_Forall2
              (λ v1 v2, ∀ p1, to_primitive_field field v1 = OK p1 →
                              ∃ p2, to_primitive_field field v2 = OK p2 ∧
                                    alike keys p1 p2)
              (dict_get name attrs1) (dict_get name attrs2)).
  { intros n f Hin. apply Hsame. by apply list_elem_of_further. }
  rewrite !dict_get_with_get.
  destruct (Hsame name field (list_elem_of_here _ _)) as [v1 v2 Hv|]; simpl.
  - destruct (to_primitive_field field v1) as [p1|] eqn:Hp1; [|done].
    destruct (Hv p1 eq_refl) as (p2 & -> & Halike). simpl.
    apply (IH Hrest).
    rewrite !strip_items_set, Hacc. unfold alike in Halike.
    by rewrite Halike.
  - by apply (IH Hrest).
Qed.
End StripFacts.

Lemma mapM_alike keys (to_primitive_obj : NovaObject → result prim) l l' :
  Forall (λ o, ∀ o', same_object o o' →
               ∀ p, to_primitive_obj o = OK p →
                    ∃ p', to_primitive_obj o' = OK p' ∧ alike keys p p') l →
  Forall2 same_object l l' →
  ∀ ps, mapM to_primitive_obj l = OK ps →
        ∃ ps', mapM to_primitive_obj l' = OK ps' ∧
               _strip keys <$> ps = _strip keys <$> ps'.
Proof.
  intros Hall Hsame. revert Hall.
  induction Hsame as [|o o' l l' Ho _ IH]; intros Hall ps; simpl.
  { intros [= <-]. by exists []. }
  apply Forall_cons_1 in Hall as [Hhere Hall].
  destruct (to_primitive_obj o) as [p|] eqn:Hp; [|done]. simpl.
  destruct (mapM to_primitive_obj l) as [ps0|] eqn:Hps; [|done]. simpl.
  intros [= <-].
  destruct (Hhere o' Ho p eq_refl) as (p' & -> & Halike).
  destruct (IH Hall ps0 eq_refl) as (ps' & -> & Hps'). simpl.
  eexists. split; [done|]. unfold alike in Halike.
  rewrite !fmap_cons. by f_equal.
Qed.

(** Instances that agree on their fields serialize alike. *)
Lemma same_object_alike keys self :
  "nova_object.changes" ∈ keys →
  ∀ self', same_object self self' →
  ∀ p, obj_to_primitive self None = OK p →
       ∃ p', obj_to_primitive self' None = OK p' ∧ alike keys p p'.
Proof.
  intros Hkey.
  induction self as [cls ver ctx attrs changed IH]
    using NovaObject_nested_ind.
  intros self' Hsame p. inversion Hsame as [? ? ? ctx2 ? attrs2 ? changed2
                                             Hfields]; subst.
  rewrite !obj_to_primitive_unfold. simpl.
  destruct (to_primitive_loop attrs _ (fields cls) []) as [d1|] eqn:Hd1;
    [|done].
  simpl. intros [= <-].
  destruct (to_primitive_loop_alike keys attrs attrs2
              (field_to_primitive (λ o, obj_to_primitive o None))
              (fields cls)) with (acc1 := @nil (string * prim))
                                 (acc2 := @nil (string * prim)) (d1 := d1)
    as (d2 & -> & Hd2); [|done|done|].
  - intros name field Hin.
    assert (Hname : name ∈ dict_keys (fields cls)).
    { unfold dict_keys. apply list_elem_of_fmap. by exists (name, field). }
    destruct (dict_get name attrs) as [v1|] eqn:Hv1;
      pose proof (Hfields name Hname) as Hfield; rewrite Hv1 in Hfield;
      inversion Hfield as [? v2 Hv|]; subst; constructor.
    apply (value_Forall_get _ _ _ _ IH) in Hv1.
    destruct Hv as [pv|o o' Ho|l l' Hl]; simpl in Hv1.
    + intros p1 Hp1. by exists p1.
    + destruct field; simpl; try done. by apply Hv1.
    + destruct field; simpl; try done. intros p1.
      destruct (mapM _ l) as [ps|] eqn:Hps; [|done]. simpl. intros [= <-].
      destruct (mapM_alike keys _ l l' Hv1 Hl ps Hps) as (ps' & -> & Hps').
      simpl. eexists. split; [done|]. unfold alike. simpl.
      by rewrite Hps'.
  - simpl. eexists. split; [done|]. unfold alike.
    rewrite !_strip_envelope by done. simpl.
    pose proof (_strip_dict keys d1) as H1.
    pose proof (_strip_dict keys d2) as H2. simpl in H1, H2.
    by rewrite H1, H2, Hd2.
Qed.

Lemma obj_to_primitive_envelope self p :
  obj_to_primitive self None = OK p →
  ∃ d, p = wire_envelope self (VERSION self) (PDict d).
Proof.
  rewrite obj_to_primitive_unfold. simpl.
  destruct (to_primitive_loop _ _ _ _) as [d|]; [|done].
  simpl. intros [= <-]. by exists d.
Qed.

(** X15.  [obj_equal_prims] compares what two instances serialize to and
    looks at neither change tracking nor context, at any depth: two
    well-formed instances of one class and version that hold the same in
    every declared field compare equal, whatever their changed sets and
    those of the instances inside them, and whatever else is ignored.
    Instances whose names differ, or whose versions differ, compare unequal
    unless that key of the envelope is among the ignored ones. *)
Theorem equal_prims_ignores_changes (obj_1 obj_2 : NovaObject)
    (ignore : option (list string)) :
  well_formed obj_1 = true → well_formed obj_2 = true →
  (same_object obj_1 obj_2 →
   obj_equal_prims obj_1 obj_2 ignore = OK true) ∧
  (obj_name (obj_class obj_1) ≠ obj_name (obj_class obj_2) →
   "nova_object.name" ∉ default [] ignore →
   obj_equal_prims obj_1 obj_2 ignore = OK false) ∧
  (VERSION obj_1 ≠ VERSION obj_2 →
   "nova_object.version" ∉ default [] ignore →
   obj_equal_prims obj_1 obj_2 ignore = OK false).
Proof.
  intros Hwf1 Hwf2.
  destruct (obj_to_primitive_total obj_1 Hwf1) as [p1 Hp1].
  destruct (obj_to_primitive_total obj_2 Hwf2) as [p2 Hp2].
  set (keys := match ignore with
               | Some ignore => "nova_object.changes" :: ignore
               | None => ["nova_object.changes"]
               end).
  assert (Hkey : "nova_object.changes" ∈ keys).
  { unfold keys. destruct ignore; apply list_elem_of_here. }
  assert (Hcall : obj_equal_prims obj_1 obj_2 ignore
                  = OK (py_eq (_strip keys p1) (_strip keys p2))).
  { unfold obj_equal_prims. by rewrite Hp1, Hp2. }
  assert (Hother : ∀ key, key ≠ "nova_object.changes" →
                          key ∉ default [] ignore → key ∉ keys).
  { intros key Hne Hkeys. unfold keys. destruct ignore as [l|]; simpl in *.
    - rewrite elem_of_cons. by intros [?|?].
    - rewrite elem_of_cons. intros [?|Hnil]; [done|].
      by apply elem_of_nil in Hnil. }
  destruct (obj_to_primitive_envelope obj_1 p1 Hp1) as [d1 Hd1].
  destruct (obj_to_primitive_envelope obj_2 p2 Hp2) as [d2 Hd2].
  assert (Hdiffer : ∀ key v1 v2,
            key ∉ keys →
            dict_get key
              [("nova_object.name", PStr (obj_name (obj_class obj_1)));
               ("nova_object.namespace", PStr "nova");
               ("nova_object.version", PStr (VERSION obj_1));
               ("nova_object.data", PDict d1)] = Some v1 →
            dict_get key
              [("nova_object.name", PStr (obj_name (obj_class obj_2)));
               ("nova_object.namespace", PStr "nova");
               ("nova_object.version", PStr (VERSION obj_2));
               ("nova_object.data", PDict d2)] = Some v2 →
            py_eq (_strip keys v1) (_strip keys v2) = false →
            obj_equal_prims obj_1 obj_2 ignore = OK false).
  { intros key v1 v2 Hnot Hv1 Hv2 Hne.
    rewrite Hcall, Hd1, Hd2, !_strip_envelope by done. f_equal.
    destruct (py_eq (PDict _) (PDict _)) eqn:Heq; [|done].
    destruct (py_eq_dict _ _ key (_strip keys v1) Heq)
      as (v2' & Hv2' & Hsame).
    { by rewrite strip_items_get, bool_decide_eq_false_2, Hv1. }
    rewrite strip_items_get, bool_decide_eq_false_2, Hv2 in Hv2' by done.
    simpl in Hv2'. congruence. }
  split; [|split].
  - intros Hsame. rewrite Hcall.
    destruct (same_object_alike keys obj_1 Hkey obj_2 Hsame p1 Hp1)
      as (p' & Hp' & Halike).
    rewrite Hp2 in Hp'. injection Hp' as <-. unfold alike in Halike.
    by rewrite Halike, py_eq_refl.
  - intros Hname Hignored.
    apply (Hdiffer "nova_object.name" (PStr (obj_name (obj_class obj_1)))
                   (PStr (obj_name (obj_class obj_2))));
      [by apply Hother|done|done|].
    simpl. by apply bool_decide_eq_false_2.
  - intros Hver Hignored.
    apply (Hdiffer "nova_object.version" (PStr (VERSION obj_1))
                   (PStr (VERSION obj_2)));
      [by apply Hother|done|done|].
    simpl. by apply bool_decide_eq_false_2.
Qed.

Lemma equal_prims_ignores_changes_witness :
  obj_equal_prims ResetExample.a_changed_owner Examples.an_owner None
  = OK true.
Proof.
  apply (equal_prims_ignores_changes ResetExample.a_changed_owner
           Examples.an_owner None);
    [by vm_compute|by vm_compute|].
  constructor. intros field _.
  destruct (dict_get field _) as [v|]; constructor.
  apply same_value_refl.
  destruct v as [p|o|l]; simpl; [done|apply same_object_refl|].
  apply Forall_forall. intros o _. apply same_object_refl.
Defined.

(** ** The serializer over containers *)

Lemma pyvalue_nested_ind (P : pyvalue → Prop) :
  P ENone → (∀ b, P (EBool b)) → (∀ z, P (EInt z)) → (∀ s, P (EStr s)) →
  (∀ l, Forall P l → P (ETuple l)) →
  (∀ l, Forall P l → P (EList l)) →
  (∀ l, Forall P l → P (ESet l)) →
  (∀ d, Forall (λ kv, P kv.2) d → P (EDict d)) →
  (∀ o, P (EObj o)) →
  ∀ e, P e.
Proof.
  intros HNone HBool HInt HStr HTuple HList HSet HDict HObj. fix IH 1.
  intros [|b|z|s|l|l|l|d|o]; [done|done|done|done| | | | |done].
  - apply HTuple. induction l as [|e l IHl]; constructor; [apply IH|done].
  - apply HList. induction l as [|e l IHl]; constructor; [apply IH|done].
  - apply HSet. induction l as [|e l IHl]; constructor; [apply IH|done].
  - apply HDict. induction d as [|[k e] d IHd]; constructor; [apply IH|done].
Qed.

Lemma mapM_fixed {A} (f : A → result A) l :
  Forall (λ a, f a = OK a) l → mapM f l = OK l.
Proof. induction 1 as [|a l Ha _ IH]; simpl; [done|]. by rewrite Ha, IH. Qed.

Lemma mapM_is_OK {A B} (f : A → result B) l :
  (∃ l', mapM f l = OK l') ↔ Forall (λ a, ∃ b, f a = OK b) l.
Proof.
  split; [|apply mapM_total].
  intros [l' Hl']. apply mapM_Forall2 in Hl'.
  induction Hl' as [|a b l l' Hab _ IH]; constructor; [by exists b|done].
Qed.

Lemma Forall2_Forall_to {A B} (P : A → Prop) (R : A → B → Prop)
    (Q : B → Prop) l l' :
  (∀ a b, P a → R a b → Q b) → Forall P l → Forall2 R l l' → Forall Q l'.
Proof.
  intros HQ Hall Hrel. revert Hall.
  induction Hrel as [|a b l l' Hab _ IH]; intros Hall; [done|].
  apply Forall_cons_1 in Hall as [Ha Hall].
  constructor; [by apply (HQ a)|by apply IH].
Qed.

(** A primitive is on the wire as it is. *)
Lemma of_prim_on_the_wire p :
  on_the_wire (of_prim p) = true ∧
  ∀ context, serialize_entity context (of_prim p) = OK (of_prim p).
Proof.
  induction p as [|b|z|s|l IH|d IH] using prim_nested_ind;
    try (by split).
  - split.
    + simpl. apply forallb_forall. intros e He.
      apply list_elem_of_In, list_elem_of_fmap in He as (p & -> & Hp).
      rewrite Forall_forall in IH. by apply IH.
    + intros context.
      change (serialize_entity context (of_prim (PList l)))
        with (let* l' := mapM (serialize_entity context) (of_prim <$> l) in
              OK (EList l')).
      rewrite mapM_fixed; [done|].
      apply Forall_fmap. eapply Forall_impl; [exact IH|].
      intros p [_ Hp]. apply Hp.
  - split.
    + simpl. apply forallb_forall. intros e He.
      apply list_elem_of_In, list_elem_of_fmap in He as ([k p] & -> & Hp).
      rewrite Forall_forall in IH. by apply (IH (k, p)).
    + intros context.
      change (serialize_entity context (of_prim (PDict d)))
        with (let* d' :=
                mapM (λ kv : string * pyvalue,
                        let* v := serialize_entity context kv.2 in
                        OK (kv.1, v))
                     ((λ kv : string * prim, (kv.1, of_prim kv.2)) <$> d) in
              OK (EDict d')).
      rewrite mapM_fixed; [done|].
      apply Forall_fmap. eapply Forall_impl; [exact IH|].
      intros [k p] [_ Hp]. simpl in *. by rewrite Hp.
Qed.

Lemma serialize_entity_on_the_wire context entity w :
  serialize_entity context entity = OK w →
  on_the_wire w = true ∧
  ∀ context', serialize_entity context' w = OK w.
Proof.
  revert w.
  induction entity as [|b|z|s|l IH|l IH|l IH|d IH|o]
    using pyvalue_nested_ind; intros w.
  1-4: by intros [= <-].
  - change (serialize_entity context (ETuple l))
      with (let* l' := mapM (serialize_entity context) l in OK (ETuple l')).
    destruct (mapM _ l) as [l'|] eqn:Hl'; [|done]. intros [= <-].
    apply mapM_Forall2 in Hl'.
    pose proof (Forall2_Forall_to _ _ _ l l' (λ a b Ha Hab, Ha b Hab) IH Hl')
      as Hall.
    split.
    + simpl. apply forallb_forall. intros e He.
      rewrite Forall_forall in Hall. by apply Hall, list_elem_of_In.
    + intros context'.
      change (serialize_entity context' (ETuple l'))
        with (let* l := mapM (serialize_entity context') l' in
              OK (ETuple l)).
      rewrite mapM_fixed; [done|].
      eapply Forall_impl; [exact Hall|]. intros e [_ He]. apply He.
  - change (serialize_entity context (EList l))
      with (let* l' := mapM (serialize_entity context) l in OK (EList l')).
    destruct (mapM _ l) as [l'|] eqn:Hl'; [|done]. intros [= <-].
    apply mapM_Forall2 in Hl'.
    pose proof (Forall2_Forall_to _ _ _ l l' (λ a b Ha Hab, Ha b Hab) IH Hl')
      as Hall.
    split.
    + simpl. apply forallb_forall. intros e He.
      rewrite Forall_forall in Hall. by apply Hall, list_elem_of_In.
    + intros context'.
      change (serialize_entity context' (EList l'))
        with (let* l := mapM (serialize_entity context') l' in
              OK (EList l)).
      rewrite mapM_fixed; [done|].
      eapply Forall_impl; [exact Hall|]. intros e [_ He]. apply He.
  - change (serialize_entity context (ESet l))
      with (let* l' := mapM (serialize_entity context) l in OK (EList l')).
    destruct (mapM _ l) as [l'|] eqn:Hl'; [|done]. intros [= <-].
    apply mapM_Forall2 in Hl'.
    pose proof (Forall2_Forall_to _ _ _ l l' (λ a b Ha Hab, Ha b Hab) IH Hl')
      as Hall.
    split.
    + simpl. apply forallb_forall. intros e He.
      rewrite Forall_forall in Hall. by apply Hall, list_elem_of_In.
    + intros context'.
      change (serialize_entity context' (EList l'))
        with (let* l := mapM (serialize_entity context') l' in
              OK (EList l)).
      rewrite mapM_fixed; [done|].
      eapply Forall_impl; [exact Hall|]. intros e [_ He]. apply He.
  - change (serialize_entity context (EDict d))
      with (let* d' :=
              mapM (λ kv : string * pyvalue,
                      let* v := serialize_entity context kv.2 in
                      OK (kv.1, v)) d in
            OK (EDict d')).
    destruct (mapM _ d) as [d'|] eqn:Hd'; [|done]. intros [= <-].
    apply mapM_Forall2 in Hd'.
    assert (Hall : Forall (λ kv : string * pyvalue,
                             on_the_wire kv.2 = true ∧
                             ∀ context',
                               serialize_entity context' kv.2 = OK kv.2) d').
    { apply (Forall2_Forall_to
               (λ kv : string * pyvalue,
                  ∀ kv' : string * pyvalue,
                    (let* v := serialize_entity context kv.2 in
                     OK (kv.1, v)) = OK kv' →
                    on_the_wire kv'.2 = true ∧
                    ∀ context', serialize_entity context' kv'.2 = OK kv'.2)
               _ _ d d' (λ a b Ha Hab, Ha b Hab)); [|exact Hd'].
      eapply Forall_impl; [exact IH|]. intros [k e] He [k' e']. simpl.
      destruct (serialize_entity context e) as [v|] eqn:Hv; [|done].
      intros Heq. injection Heq as -> ->. by apply He. }
    split.
    + simpl. apply forallb_forall. intros kv Hkv.
      rewrite Forall_forall in Hall. by apply Hall, list_elem_of_In.
    + intros context'.
      change (serialize_entity context' (EDict d'))
        with (let* d :=
                mapM (λ kv : string * pyvalue,
                        let* v := serialize_entity context' kv.2 in
                        OK (kv.1, v)) d' in
              OK (EDict d)).
      rewrite mapM_fixed; [done|].
      eapply Forall_impl; [exact Hall|]. intros [k e] [_ He]. simpl in *.
      by rewrite He.
  - simpl. destruct (obj_to_primitive o None) as [p|]; [|done].
    intros [= <-]. apply of_prim_on_the_wire.
Qed.

Lemma serialize_entity_returns context entity :
  (∃ w, serialize_entity context entity = OK w) ↔
  Forall (λ o, ∃ p, obj_to_primitive o None = OK p) (instances entity).
Proof.
  assert (Hlift : ∀ (con : list pyvalue → pyvalue) l,
            (∃ w, (let* l' := mapM (serialize_entity context) l in
                   OK (con l')) = OK w)
            ↔ ∃ l', mapM (serialize_entity context) l = OK l').
  { intros con l. destruct (mapM _ l) as [l'|]; split;
      try (by intros [? ?]); by eexists. }
  assert (Hlist : ∀ l,
            Forall (λ e, (∃ w, serialize_entity context e = OK w) ↔
                         Forall (λ o, ∃ p, obj_to_primitive o None = OK p)
                                (instances e)) l →
            (∃ l', mapM (serialize_entity context) l = OK l') ↔
            Forall (λ o, ∃ p, obj_to_primitive o None = OK p)
                   (flat_map instances l)).
  { intros l IH. rewrite mapM_is_OK, Forall_flat_map.
    induction IH as [|e l He _ IHl]; [done|].
    rewrite !Forall_cons, He, IHl. done. }
  induction entity as [|b|z|s|l IH|l IH|l IH|d IH|o]
    using pyvalue_nested_ind.
  1-4: by (split; [constructor|by eexists]).
  - rewrite <- (Hlist l IH). apply (Hlift ETuple).
  - rewrite <- (Hlist l IH). apply (Hlift EList).
  - rewrite <- (Hlist l IH). apply (Hlift EList).
  - change (serialize_entity context (EDict d))
      with (let* d' :=
              mapM (λ kv : string * pyvalue,
                      let* v := serialize_entity context kv.2 in
                      OK (kv.1, v)) d in
            OK (EDict d')).
    cbn [instances]. rewrite Forall_flat_map.
    transitivity (∃ d', mapM (λ kv : string * pyvalue,
                                let* v := serialize_entity context kv.2 in
                                OK (kv.1, v)) d = OK d').
    { destruct (mapM _ d) as [d'|]; split;
        try (by intros [? ?]); by eexists. }
    rewrite mapM_is_OK.
    induction IH as [|[k e] d He _ IHd]; [done|].
    rewrite !Forall_cons, <- He, IHd. simpl.
    apply and_iff_compat_r.
    destruct (serialize_entity context e) as [v|]; split;
      try (by intros [? ?]); by eexists.
  - simpl. rewrite Forall_singleton.
    destruct (obj_to_primitive o None) as [p|]; split;
      try (by intros [? ?]); by eexists.
Qed.

(** X16.  [serialize_entity] returns exactly when every instance inside the
    value serializes; what it returns holds neither an instance nor a set,
    and serializing it once more, in any context, gives it back unchanged. *)
Theorem serialize_entity_plain (context : option RequestContext)
    (entity : pyvalue) :
  ((∃ w, serialize_entity context entity = OK w) ↔
   Forall (λ o, ∃ p, obj_to_primitive o None = OK p) (instances entity)) ∧
  (∀ w, serialize_entity context entity = OK w →
        on_the_wire w = true ∧
        ∀ context', serialize_entity context' w = OK w).
Proof.
  split; [apply serialize_entity_returns|].
  intros w. apply serialize_entity_on_the_wire.
Qed.

(** ** From the wire and back *)

Lemma as_prim_of_prim p : as_prim (of_prim p) = Some p.
Proof.
  induction p as [|b|z|s|l IH|d IH] using prim_nested_ind; try done.
  - assert (Hall : option_all as_prim (of_prim <$> l) = Some l).
    { induction IH as [|p l Hp _ IHl]; [done|].
      rewrite fmap_cons. simpl. by rewrite Hp, IHl. }
    simpl. by rewrite Hall.
  - assert (Hall : option_all
                     (λ kv : string * pyvalue,
                        match as_prim kv.2 with
                        | Some p => Some (kv.1, p)
                        | None => None
                        end)
                     ((λ kv : string * prim, (kv.1, of_prim kv.2)) <$> d)
                   = Some d).
    { induction IH as [|[k p] d Hp _ IHd]; [done|].
      rewrite fmap_cons. simpl in *. by rewrite Hp, IHd. }
    simpl. by rewrite Hall.
Qed.

Lemma dict_get_fmap {A B} (f : A → B) k (d : list (string * A)) :
  dict_get k ((λ kv, (kv.1, f kv.2)) <$> d) = f <$> dict_get k d.
Proof.
  induction d as [|[k' a] d IH]; simpl; [done|].
  by destruct (decide (k = k')).
Qed.

Lemma dict_has_same_keys {A B} k (d : list (string * A))
    (d' : list (string * B)) :
  Forall2 (λ kv kv', kv.1 = kv'.1) d d' → dict_has k d' = dict_has k d.
Proof.
  intros Hkeys. unfold dict_has. apply bool_decide_ext.
  induction Hkeys as [|[k1 a] [k2 b] d d' Hk _ IH]; simpl in *; [done|].
  subst k2. destruct (decide (k = k1)); [|done].
  split; by eexists.
Qed.

Lemma dict_has_of_prim k d :
  dict_has k ((λ kv : string * prim, (kv.1, of_prim kv.2)) <$> d)
  = dict_has k d.
Proof.
  unfold dict_has. apply bool_decide_ext. rewrite dict_get_fmap.
  apply fmap_is_Some.
Qed.

Lemma hydrated_has_name compatible registry d context self :
  obj_from_primitive compatible registry (PDict d) context = OK self →
  dict_has "nova_object.name" d = true.
Proof.
  intros Hself. rewrite obj_from_primitive_unfold in Hself.
  unfold dict_item in Hself. apply bool_decide_eq_true_2.
  destruct (dict_get "nova_object.namespace" d) as [namespace|]; [|done].
  destruct (is_nova namespace); simpl in Hself;
    destruct (dict_get "nova_object.name" d); try done; by eexists.
Qed.

Lemma round_trip_all {A B C} (f : A → result B) (g : B → option (result C))
    (S : A → B → Prop) (T : A → C → Prop) l :
  Forall (λ x, ∃ w e', f x = OK w ∧ g w = Some (OK e') ∧ S x w ∧ T x e') l →
  ∃ ws es, mapM f l = OK ws ∧ mapM_bounded g ws = Some (OK es) ∧
           Forall2 S l ws ∧ Forall2 T l es.
Proof.
  induction 1 as [|x l (w & e' & Hw & He' & HS & HT) _
                    (ws & es & Hws & Hes & HSs & HTs)].
  - exists [], []. by repeat split; try constructor.
  - exists (w :: ws), (e' :: es). simpl. rewrite Hw, Hws, He', Hes.
    by repeat split; try constructor.
Qed.

Lemma mapM_bounded_Some {A B} (g : A → option (result B)) l :
  Forall (λ a, is_Some (g a)) l → is_Some (mapM_bounded g l).
Proof.
  induction 1 as [|a l [r Hr] _ [rs Hrs]]; simpl; [by eexists|].
  rewrite Hr, Hrs. destruct r, rs; by eexists.
Qed.

Lemma sendable_items compatible registry l :
  (fix all (l : list pyvalue) : Prop :=
     match l with
     | [] => True
     | x :: l' => sendable compatible registry x ∧ all l'
     end) l ↔ Forall (sendable compatible registry) l.
Proof.
  induction l as [|x l IH]; [by split; [constructor|]|].
  rewrite Forall_cons, <- IH. done.
Qed.

Lemma sendable_entries compatible registry (d : list (string * pyvalue)) :
  (fix all (d : list (string * pyvalue)) : Prop :=
     match d with
     | [] => True
     | kv :: d' => sendable compatible registry kv.2 ∧ all d'
     end) d ↔ Forall (λ kv, sendable compatible registry kv.2) d.
Proof.
  induction d as [|kv d IH]; [by split; [constructor|]|].
  rewrite Forall_cons, <- IH. done.
Qed.

Section FromTheWire.
Variable compatible : string → string → bool.
Variable registry : list (string * list NovaClass).
Variable object_backport :
  option RequestContext → prim → string → result NovaObject.
Variable fuel : nat.
Variable context : option RequestContext.

Let receive := deserialize_entity compatible registry object_backport
                                  fuel context.

Lemma receive_items (con : list pyvalue → pyvalue) l context' :
  Forall (λ e, sendable compatible registry e →
               ∀ context', ∃ w e',
                 serialize_entity context' e = OK w ∧
                 receive w = Some (OK e') ∧ received context e e') l →
  Forall (sendable compatible registry) l →
  ∃ ws es, mapM (serialize_entity context') l = OK ws ∧
           mapM_bounded receive ws = Some (OK es) ∧
           Forall2 (received context) l es.
Proof.
  intros IH Hsend.
  destruct (round_trip_all (serialize_entity context') receive
              (λ _ _, True) (received context) l)
    as (ws & es & Hws & Hes & _ & Hback).
  { rewrite Forall_forall in *. intros e He.
    destruct (IH e He (Hsend e He) context') as (w & e' & Hw & He' & Hr).
    by exists w, e'. }
  by exists ws, es.
Qed.

Lemma round_trip_entity entity :
  fuel ≠ 0%nat →
  sendable compatible registry entity →
  ∀ context', ∃ w e',
    serialize_entity context' entity = OK w ∧
    receive w = Some (OK e') ∧ received context entity e'.
Proof.
  intros Hfuel.
  induction entity as [|b|z|s|l IH|l IH|l IH|d IH|o]
    using pyvalue_nested_ind; intros Hsend context'.
  - exists ENone, ENone. by repeat split; constructor.
  - exists (EBool b), (EBool b). by repeat split; constructor.
  - exists (EInt z), (EInt z). by repeat split; constructor.
  - exists (EStr s), (EStr s). by repeat split; constructor.
  - apply sendable_items in Hsend.
    destruct (receive_items ETuple l context' IH Hsend)
      as (ws & es & Hws & Hes & Hback).
    exists (ETuple ws), (ETuple es).
    change (serialize_entity context' (ETuple l))
      with (let* l' := mapM (serialize_entity context') l in
            OK (ETuple l')).
    change (receive (ETuple ws))
      with (match mapM_bounded receive ws with
            | None => None
            | Some (Raise e) => Some (Raise e)
            | Some (OK a) => Some (OK (ETuple a))
            end).
    rewrite Hws, Hes. by repeat split; constructor.
  - apply sendable_items in Hsend.
    destruct (receive_items EList l context' IH Hsend)
      as (ws & es & Hws & Hes & Hback).
    exists (EList ws), (EList es).
    change (serialize_entity context' (EList l))
      with (let* l' := mapM (serialize_entity context') l in
            OK (EList l')).
    change (receive (EList ws))
      with (match mapM_bounded receive ws with
            | None => None
            | Some (Raise e) => Some (Raise e)
            | Some (OK a) => Some (OK (EList a))
            end).
    rewrite Hws, Hes. by repeat split; constructor.
  - apply sendable_items in Hsend.
    destruct (receive_items EList l context' IH Hsend)
      as (ws & es & Hws & Hes & Hback).
    exists (EList ws), (EList es).
    change (serialize_entity context' (ESet l))
      with (let* l' := mapM (serialize_entity context') l in
            OK (EList l')).
    change (receive (EList ws))
      with (match mapM_bounded receive ws with
            | None => None
            | Some (Raise e) => Some (Raise e)
            | Some (OK a) => Some (OK (EList a))
            end).
    rewrite Hws, Hes. by repeat split; constructor.
  - destruct Hsend as [Hname Hsend]. apply sendable_entries in Hsend.
    destruct (round_trip_all
                (λ kv : string * pyvalue,
                   let* v := serialize_entity context' kv.2 in OK (kv.1, v))
                (λ kv : string * pyvalue,
                   match receive kv.2 with
                   | None => None
                   | Some (Raise e) => Some (Raise e)
                   | Some (OK a) => Some (OK (kv.1, a))
                   end)
                (λ kv kv', kv.1 = kv'.1)
                (λ kv kv', kv.1 = kv'.1 ∧ received context kv.2 kv'.2) d)
      as (ws & es & Hws & Hes & Hkeys & Hback).
    { rewrite Forall_forall in *. intros [k e] He.
      destruct (IH _ He (Hsend _ He) context') as (w & e' & Hw & He' & Hr).
      exists (k, w), (k, e'). simpl in *. by rewrite Hw, He'. }
    exists (EDict ws), (EDict es).
    change (serialize_entity context' (EDict d))
      with (let* d' :=
              mapM (λ kv : string * pyvalue,
                      let* v := serialize_entity context' kv.2 in
                      OK (kv.1, v)) d in
            OK (EDict d')).
    rewrite Hws. split; [done|]. split; [|by constructor].
    change (receive (EDict ws))
      with (if dict_has "nova_object.name" ws then
              match as_prim (EDict ws) with
              | Some objprim =>
                  match _process_object compatible registry object_backport
                                        fuel context objprim with
                  | None => None
                  | Some (Raise e) => Some (Raise e)
                  | Some (OK a) => Some (OK (EObj a))
                  end
              | None => None
              end
            else
              match mapM_bounded
                      (λ kv : string * pyvalue,
                         match receive kv.2 with
                         | None => None
                         | Some (Raise e) => Some (Raise e)
                         | Some (OK a) => Some (OK (kv.1, a))
                         end) ws with
              | None => None
              | Some (Raise e) => Some (Raise e)
              | Some (OK a) => Some (OK (EDict a))
              end).
    by rewrite (dict_has_same_keys _ d ws Hkeys), Hname, Hes.
  - destruct Hsend as [Hwf Hhyd].
    destruct (nested_round_trip compatible registry o Hwf Hhyd context)
      as (env & o' & Hto & Hfrom & Hsame).
    exists (of_prim (PDict env)), (EObj o').
    split; [by simpl; rewrite Hto|].
    split; [|constructor; [done|]].
    + change (receive (of_prim (PDict env)))
        with (if dict_has "nova_object.name"
                   ((λ kv : string * prim, (kv.1, of_prim kv.2)) <$> env)
              then
                match as_prim (of_prim (PDict env)) with
                | Some objprim =>
                    match _process_object compatible registry
                            object_backport fuel context objprim with
                    | None => None
                    | Some (Raise e) => Some (Raise e)
                    | Some (OK a) => Some (OK (EObj a))
                    end
                | None => None
                end
              else
                match mapM_bounded
                        (λ kv : string * pyvalue,
                           match receive kv.2 with
                           | None => None
                           | Some (Raise e) => Some (Raise e)
                           | Some (OK a) => Some (OK (kv.1, a))
                           end)
                        ((λ kv : string * prim, (kv.1, of_prim kv.2))
                           <$> env) with
                | None => None
                | Some (Raise e) => Some (Raise e)
                | Some (OK a) => Some (OK (EDict a))
                end).
      rewrite dict_has_of_prim, (hydrated_has_name _ _ _ _ _ Hfrom).
      rewrite as_prim_of_prim.
      destruct fuel as [|fuel']; [done|]. cbn [_process_object].
      by rewrite Hfrom.
    + by destruct (hydrated_changes _ _ _ _ _ Hfrom) as [-> _].
Qed.

Lemma _process_object_enough objprim :
  (2 ≤ fuel)%nat →
  is_Some (_process_object compatible registry object_backport
                           fuel context objprim).
Proof.
  intros Hfuel. destruct fuel as [|fuel1]; [lia|].
  cbn [_process_object].
  destruct (obj_from_primitive compatible registry objprim context)
    as [objinst|e]; [by eexists|].
  destruct e; try (by eexists).
  destruct (prim_item "nova_object.version" objprim) as [pv|] eqn:Hpv;
    [|by eexists].
  destruct pv as [| | |ver| |]; try (by eexists).
  destruct (decide (str_count dot ver = 2%nat)) as [Hdots|]; [|by eexists].
  destruct objprim as [| | | | |d]; try done.
  cbn [prim_setitem]. destruct fuel1 as [|fuel']; [lia|].
  rewrite (_process_object_final compatible registry object_backport
             fuel' context _ (major_minor ver)).
  - by eexists.
  - by rewrite dict_get_set_eq.
  - rewrite major_minor_dots; lia.
Qed.

Lemma receive_wire p : (2 ≤ fuel)%nat → is_Some (receive (of_prim p)).
Proof.
  intros Hfuel.
  induction p as [|b|z|s|l IH|d IH] using prim_nested_ind;
    try (by eexists).
  - change (receive (of_prim (PList l)))
      with (match mapM_bounded receive (of_prim <$> l) with
            | None => None
            | Some (Raise e) => Some (Raise e)
            | Some (OK a) => Some (OK (EList a))
            end).
    destruct (mapM_bounded_Some receive (of_prim <$> l)) as [r ->];
      [by apply Forall_fmap|].
    destruct r; by eexists.
  - change (receive (of_prim (PDict d)))
      with (if dict_has "nova_object.name"
                 ((λ kv : string * prim, (kv.1, of_prim kv.2)) <$> d)
            then
              match as_prim (of_prim (PDict d)) with
              | Some objprim =>
                  match _process_object compatible registry
                          object_backport fuel context objprim with
                  | None => None
                  | Some (Raise e) => Some (Raise e)
                  | Some (OK a) => Some (OK (EObj a))
                  end
              | None => None
              end
            else
              match mapM_bounded
                      (λ kv : string * pyvalue,
                         match receive kv.2 with
                         | None => None
                         | Some (Raise e) => Some (Raise e)
                         | Some (OK a) => Some (OK (kv.1, a))
                         end)
                      ((λ kv : string * prim, (kv.1, of_prim kv.2))
                         <$> d) with
              | None => None
              | Some (Raise e) => Some (Raise e)
              | Some (OK a) => Some (OK (EDict a))
              end).
    destruct (dict_has _ _).
    + rewrite as_prim_of_prim.
      destruct (_process_object_enough (PDict d) Hfuel) as [r ->].
      destruct r; by eexists.
    + destruct (mapM_bounded_Some
                  (λ kv : string * pyvalue,
                     match receive kv.2 with
                     | None => None
                     | Some (Raise e) => Some (Raise e)
                     | Some (OK a) => Some (OK (kv.1, a))
                     end)
                  ((λ kv : string * prim, (kv.1, of_prim kv.2)) <$> d))
        as [r ->].
      { apply Forall_fmap. eapply Forall_impl; [exact IH|].
        intros [k p] [r Hr]. simpl in *. rewrite Hr.
        destruct r; by eexists. }
      destruct r; by eexists.
Qed.
End FromTheWire.

(** X17.  A value whose instances are well formed and can be hydrated back,
    and none of whose own dicts carries the key ['nova_object.name'],
    survives the serializer: [serialize_entity] returns a value free of
    instances and sets, and [deserialize_entity], with [_process_object]
    allowed one call or more, returns from it the same tuples, lists and
    dicts with the same keys, a list where there was a set, and in the place
    of every instance one of the same class and version that holds the same
    in every field and is bound to the receiver's context. *)
Theorem serializer_round_trip (compatible : string → string → bool)
    (registry : list (string * list NovaClass))
    (object_backport :
       option RequestContext → prim → string → result NovaObject)
    (fuel : nat) (sender receiver : option RequestContext)
    (entity : pyvalue) :
  fuel ≠ 0%nat →
  sendable compatible registry entity →
  ∃ w e',
    serialize_entity sender entity = OK w ∧
    on_the_wire w = true ∧
    deserialize_entity compatible registry object_backport fuel receiver w
    = Some (OK e') ∧
    received receiver entity e'.
Proof.
  intros Hfuel Hsend.
  destruct (round_trip_entity compatible registry object_backport fuel
              receiver entity Hfuel Hsend sender)
    as (w & e' & Hw & He' & Hback).
  exists w, e'. split; [done|].
  split; [by apply (serialize_entity_on_the_wire sender entity)|done].
Qed.

Lemma serializer_round_trip_witness :
  ∃ w e',
    serialize_entity None SerializerRoundTrip.a_reply = OK w ∧
    on_the_wire w = true ∧
    deserialize_entity is_compatible RoundTripExample.registry
                       SerializerExample.a_backport 2
                       (Some RemotableExample.a_context) w
    = Some (OK e') ∧
    received (Some RemotableExample.a_context)
             SerializerRoundTrip.a_reply e'.
Proof.
  apply (serializer_round_trip is_compatible RoundTripExample.registry
           SerializerExample.a_backport 2 None
           (Some RemotableExample.a_context) SerializerRoundTrip.a_reply).
  - discriminate.
  - simpl. repeat split; try reflexivity; discriminate.
Defined.

(** X18.  On a value that came over the wire, that is one made of plain
    values, lists and dicts, [deserialize_entity] comes to an end when
    [_process_object] is allowed two calls: no primitive inside makes it
    call itself a second time. *)
Theorem deserialize_entity_two_calls (compatible : string → string → bool)
    (registry : list (string * list NovaClass))
    (object_backport :
       option RequestContext → prim → string → result NovaObject)
    (fuel : nat) (context : option RequestContext) (p : prim) :
  (2 ≤ fuel)%nat →
  ∃ outcome,
    deserialize_entity compatible registry object_backport fuel context
                       (of_prim p)
    = Some outcome.
Proof. intros Hfuel. by apply receive_wire. Qed.

Lemma deserialize_entity_two_calls_witness :
  ∃ outcome,
    deserialize_entity is_compatible RegistryExample.registry
                       SerializerExample.a_backport 2 None
                       (of_prim (PList [PDict SerializerExample.newer_prim]))
    = Some outcome.
Proof.
  apply (deserialize_entity_two_calls is_compatible RegistryExample.registry
           SerializerExample.a_backport 2 None
           (PList [PDict SerializerExample.newer_prim])).
  lia.
Defined.
